(** * The AI prediction engine of [src/lib/ai/predictors.ts]

    A shallow embedding of the four classes of the file
    ([NeuralPatternRecognizer], [MultiStepPredictor], [AnomalyDetector],
    [BacktestingEngine]) and proofs of properties of them.

    Numbers.  Every JavaScript [number] of the source is an IEEE-754
    binary64 value.  The embedding is written once, over an interface
    [Number] of the arithmetic the source uses, with two instances:

    - [float]: the kernel's binary64 floats, which compute what the
      source computes, NaN and the infinities included;
    - [xnum]: exact rationals extended with [+Infinity], [-Infinity] and
      [NaN], i.e. the source's arithmetic without rounding and overflow.

    Theorems about control flow and data are proved for every instance
    of the interface, binary64 included.  Theorems whose content is an
    arithmetic identity are proved for [xnum]; what division by zero does
    is proved for [float].

    Digits.  The source's inputs are digit sequences (integers 0..9); the
    embedding gives them the type [list digit].

    State.  The pattern table of the recognizer is a [Map] in insertion
    order: an association list.  The methods of the recognizer are
    state-passing functions over it, written with [get], [set] and the
    mutation of a stored pattern as the source has them.

    Exceptions.  The only exception the source can raise on digit
    sequences is the TypeError of [predictNextN] on an empty working
    sequence; [predictNextN] and [backtest] return an [option], [None] for
    the exception.  [detect] has no failing path and returns its list.

    Sorting.  [Array.prototype.sort] is stable and, for a consistent
    comparison, determined by it; the embedding is the stable insertion
    sort. *)

From Stdlib Require Import String PrimFloat.
From Stdlib Require Floats.
From Stdlib Require Import List ZArith QArith Qreduction Qabs Lia Bool Arith.
From Stdlib Require Import Sorted Permutation Lqa.
Import ListNotations.

Set Implicit Arguments.
Local Open Scope nat_scope.

(* ================================================================= *)
(** * Digits *)

Inductive digit : Type :=
  D0 | D1 | D2 | D3 | D4 | D5 | D6 | D7 | D8 | D9.

Definition digit_to_nat (d : digit) : nat :=
  match d with
  | D0 => 0 | D1 => 1 | D2 => 2 | D3 => 3 | D4 => 4
  | D5 => 5 | D6 => 6 | D7 => 7 | D8 => 8 | D9 => 9
  end.

(** The digits in the order of [for (let digit = 0; digit < 10; digit++)]. *)
Definition all_digits : list digit := [D0; D1; D2; D3; D4; D5; D6; D7; D8; D9].

Definition digit_eq_dec (a b : digit) : {a = b} + {a <> b}.
Proof. decide equality. Defined.

Definition digit_eqb (a b : digit) : bool :=
  if digit_eq_dec a b then true else false.

(** [JSON.stringify(a) === JSON.stringify(b)] on two arrays of digits, and
    equality of the keys [a.join(',')] and [b.join(',')]: both are
    element-wise equality of the two sequences. *)
Fixpoint seq_eqb (a b : list digit) : bool :=
  match a, b with
  | [], [] => true
  | x :: a', y :: b' => digit_eqb x y && seq_eqb a' b'
  | _, _ => false
  end.

(* ================================================================= *)
(** * The arithmetic of JavaScript numbers *)

Class Number (num : Type) : Type := {
  lit : Q -> num;                 (* a decimal literal of the source *)
  of_nat : nat -> num;            (* a counter or a length used as a number *)
  neg_infinity : num;             (* -Infinity *)
  nan : num;                      (* NaN, also what [undefined] is in arithmetic *)
  add : num -> num -> num;
  sub : num -> num -> num;
  mul : num -> num -> num;
  div : num -> num -> num;
  lt : num -> num -> bool;        (* a < b *)
  le : num -> num -> bool;        (* a <= b *)
  strict_eq : num -> num -> bool; (* a === b *)
  truthy : num -> bool;           (* ToBoolean: false on 0 and NaN *)
  Math_abs : num -> num;
  Math_min : num -> num -> num;
  Math_max : num -> num -> num
}.

(** [Math.pow(base, k)] for a non-negative integer [k]. *)
Class MathPow (num : Type) : Type := Math_pow : num -> nat -> num.

(** [Math.sqrt]. *)
Class MathSqrt (num : Type) : Type := Math_sqrt : num -> num.

Declare Scope js_scope.
Delimit Scope js_scope with js.
Infix "+" := add : js_scope.
Infix "-" := sub : js_scope.
Infix "*" := mul : js_scope.
Infix "/" := div : js_scope.
Notation "a <? b" := (lt a b) : js_scope.
Notation "a <=? b" := (le a b) : js_scope.
Notation "a >? b" := (lt b a) : js_scope.
Notation "a >=? b" := (le b a) : js_scope.

(** [x || 0]. *)
Definition or_zero {num} `{Number num} (x : num) : num :=
  if truthy x then x else lit 0.

(** [array[i] || 0], where a read outside the array gives [undefined]. *)
Definition nth_or_zero {num} `{Number num} (l : list num) (i : nat) : num :=
  match nth_error l i with
  | Some x => or_zero x
  | None => lit 0
  end.

(** [array[i]] used as a number. *)
Definition nth_num {num} `{Number num} (l : list num) (i : nat) : num :=
  nth i l nan.

(** [values.reduce((sum, v) => sum + v, 0)]. *)
Definition sum_from_zero {num} `{Number num} (values : list num) : num :=
  fold_left add values (lit 0).

(* ----------------------------------------------------------------- *)
(** ** Binary64 *)

Module F64.

Fixpoint of_pos (p : positive) : float :=
  match p with
  | xH => 1%float
  | xO p' => PrimFloat.mul 2%float (of_pos p')
  | xI p' => PrimFloat.add (PrimFloat.mul 2%float (of_pos p')) 1%float
  end.

Definition of_Z (z : Z) : float :=
  match z with
  | Z0 => 0%float
  | Zpos p => of_pos p
  | Zneg p => PrimFloat.opp (of_pos p)
  end.

(** A literal [n/d] with [n] and [d] below 2^53 is the correctly rounded
    quotient of two exact floats, which is the double the literal denotes. *)
Definition lit (q : Q) : float := PrimFloat.div (of_Z (Qnum q)) (of_pos (Qden q)).

Definition truthy (x : float) : bool :=
  negb (PrimFloat.eqb x 0%float || PrimFloat.is_nan x).

(** [Math.min] and [Math.max]: NaN if an argument is NaN; on two zeros
    the sum (resp. the negated sum of the opposites) has the sign the
    standard asks for. *)
Definition min (a b : float) : float :=
  if PrimFloat.is_nan a || PrimFloat.is_nan b then PrimFloat.nan
  else if PrimFloat.ltb a b then a
  else if PrimFloat.ltb b a then b
  else if PrimFloat.is_zero a
       then PrimFloat.opp (PrimFloat.add (PrimFloat.opp a) (PrimFloat.opp b))
       else a.

Definition max (a b : float) : float :=
  if PrimFloat.is_nan a || PrimFloat.is_nan b then PrimFloat.nan
  else if PrimFloat.ltb a b then b
  else if PrimFloat.ltb b a then a
  else if PrimFloat.is_zero a then PrimFloat.add a b
       else a.

End F64.

#[global] Instance float_Number : Number float := {|
  lit := F64.lit;
  of_nat := fun n => F64.of_Z (Z.of_nat n);
  neg_infinity := PrimFloat.neg_infinity;
  nan := PrimFloat.nan;
  add := PrimFloat.add;
  sub := PrimFloat.sub;
  mul := PrimFloat.mul;
  div := PrimFloat.div;
  lt := PrimFloat.ltb;
  le := PrimFloat.leb;
  strict_eq := PrimFloat.eqb;
  truthy := F64.truthy;
  Math_abs := PrimFloat.abs;
  Math_min := F64.min;
  Math_max := F64.max
|}.

#[global] Instance float_MathSqrt : MathSqrt float := PrimFloat.sqrt.

(** [Math.pow] is implementation-approximated; for binary64 the embedding
    takes the iterated product.  For the squares of [calculateStdDev] it is
    the correctly rounded square; for the powers of 0.99 the platform's
    [Math.pow] may differ from it in the last bits. *)
#[global] Instance float_MathPow : MathPow float :=
  fix pow (a : float) (k : nat) : float :=
    match k with
    | O => 1%float
    | S k' => PrimFloat.mul a (pow a k')
    end.

(* ----------------------------------------------------------------- *)
(** ** Exact arithmetic with Infinity and NaN *)

Inductive xnum : Type :=
| Fin (q : Q)      (* a finite value, kept in lowest terms *)
| PInf | NInf | NaN.

Module X.

Definition fin (q : Q) : xnum := Fin (Qred q).

Definition is_zero (q : Q) : bool := (Qnum q =? 0)%Z.
Definition is_neg (q : Q) : bool := (Qnum q <? 0)%Z.

Definition opp (a : xnum) : xnum :=
  match a with
  | Fin q => fin (- q)
  | PInf => NInf
  | NInf => PInf
  | NaN => NaN
  end.

Definition add (a b : xnum) : xnum :=
  match a, b with
  | NaN, _ | _, NaN => NaN
  | PInf, NInf | NInf, PInf => NaN
  | PInf, _ | _, PInf => PInf
  | NInf, _ | _, NInf => NInf
  | Fin p, Fin q => fin (p + q)
  end.

Definition sub (a b : xnum) : xnum := add a (opp b).

(** An infinity times a finite value: zero gives NaN, otherwise the sign. *)
Definition inf_times (positive : bool) (q : Q) : xnum :=
  if is_zero q then NaN
  else if Bool.eqb positive (is_neg q) then NInf else PInf.

Definition mul (a b : xnum) : xnum :=
  match a, b with
  | NaN, _ | _, NaN => NaN
  | Fin p, Fin q => fin (p * q)
  | PInf, Fin q | Fin q, PInf => inf_times true q
  | NInf, Fin q | Fin q, NInf => inf_times false q
  | PInf, PInf | NInf, NInf => PInf
  | PInf, NInf | NInf, PInf => NInf
  end.

(** Division; the zero of this arithmetic is +0. *)
Definition div (a b : xnum) : xnum :=
  match a, b with
  | NaN, _ | _, NaN => NaN
  | Fin p, Fin q =>
      if is_zero q
      then (if is_zero p then NaN else if is_neg p then NInf else PInf)
      else fin (p / q)
  | Fin _, (PInf | NInf) => fin 0
  | PInf, Fin q => if is_neg q then NInf else PInf
  | NInf, Fin q => if is_neg q then PInf else NInf
  | (PInf | NInf), (PInf | NInf) => NaN
  end.

Definition lt (a b : xnum) : bool :=
  match a, b with
  | NaN, _ | _, NaN => false
  | Fin p, Fin q => match Qcompare p q with Lt => true | _ => false end
  | NInf, (Fin _ | PInf) => true
  | Fin _, PInf => true
  | _, _ => false
  end.

Definition eqb (a b : xnum) : bool :=
  match a, b with
  | Fin p, Fin q => Qeq_bool p q
  | PInf, PInf | NInf, NInf => true
  | _, _ => false
  end.

Definition le (a b : xnum) : bool := lt a b || eqb a b.

Definition truthy (a : xnum) : bool :=
  match a with
  | Fin q => negb (is_zero q)
  | NaN => false
  | _ => true
  end.

Definition abs (a : xnum) : xnum :=
  match a with
  | Fin q => fin (Qabs q)
  | PInf | NInf => PInf
  | NaN => NaN
  end.

Definition min (a b : xnum) : xnum :=
  match a, b with
  | NaN, _ | _, NaN => NaN
  | _, _ => if lt b a then b else a
  end.

Definition max (a b : xnum) : xnum :=
  match a, b with
  | NaN, _ | _, NaN => NaN
  | _, _ => if lt a b then b else a
  end.

Fixpoint pow (a : xnum) (k : nat) : xnum :=
  match k with
  | O => fin 1
  | S k' => mul a (pow a k')
  end.

End X.

#[global] Instance xnum_Number : Number xnum := {|
  lit := X.fin;
  of_nat := fun n => X.fin (inject_Z (Z.of_nat n));
  neg_infinity := NInf;
  nan := NaN;
  add := X.add;
  sub := X.sub;
  mul := X.mul;
  div := X.div;
  lt := X.lt;
  le := X.le;
  strict_eq := X.eqb;
  truthy := X.truthy;
  Math_abs := X.abs;
  Math_min := X.min;
  Math_max := X.max
|}.

#[global] Instance xnum_MathPow : MathPow xnum := X.pow.

(* ================================================================= *)
(** * Arrays *)

Section Arrays.

Variable A : Type.

(** [a.slice(i, j)] for [0 <= i <= j]. *)
Definition slice (i j : nat) (a : list A) : list A := firstn (j - i) (skipn i a).

(** [a.slice(-k)]: the last [k] elements, all of them when [k] is 0 or
    exceeds the length. *)
Definition slice_last (k : nat) (a : list A) : list A :=
  match k with
  | O => a
  | _ => skipn (length a - k) a
  end.

(** [a.slice(0, -1)]. *)
Definition slice_init (a : list A) : list A := firstn (length a - 1) a.

(** [a[i] = f(a[i])] on an index of the array. *)
Fixpoint update_nth (i : nat) (f : A -> A) (a : list A) : list A :=
  match a, i with
  | [], _ => []
  | x :: a', O => f x :: a'
  | x :: a', S i' => x :: update_nth i' f a'
  end.

(** [a.map((x, i) => f(i, x))]. *)
Definition mapi {B : Type} (f : nat -> A -> B) (a : list A) : list B :=
  map (fun ix => f (fst ix) (snd ix)) (combine (seq 0 (length a)) a).

(** [a[a.length - 1]]. *)
Definition last_error (a : list A) : option A :=
  nth_error a (length a - 1).

(** [Array.prototype.sort(compare)], for a comparison that is consistent:
    the stable sort that puts [x] after [y] exactly when [compare(x, y) > 0]
    ([after x y]).  Insertion from the right keeps equal elements in their
    original order. *)
Section Sort.
Variable after : A -> A -> bool.

Fixpoint sort_insert (x : A) (sorted : list A) : list A :=
  match sorted with
  | [] => [x]
  | y :: sorted' =>
      if after x y then y :: sort_insert x sorted' else x :: sorted
  end.

Fixpoint Array_sort (a : list A) : list A :=
  match a with
  | [] => []
  | x :: a' => sort_insert x (Array_sort a')
  end.
End Sort.

End Arrays.

(* ================================================================= *)
(** * NeuralPatternRecognizer *)

Section Recognizer.

Context {num : Type} `{Number num}.
Local Open Scope js_scope.

Record Pattern : Type := {
  sequence : list digit;
  frequency : nat;
  confidence : num;
  lastSeen : nat;
  successRate : num
}.

(** [this.patterns]: a [Map] from the key [sequence.join(',')] to the
    pattern, in insertion order.  Two digit sequences have the same joined
    key exactly when they are equal, so the key is the sequence. *)
Definition key : Type := list digit.
Definition table : Type := list (key * Pattern).

Definition windowSizes : list nat := [2; 3; 4; 5].

(** Methods of the recognizer: computations over [this.patterns]. *)
Definition Method (R : Type) : Type := table -> R * table.

Definition ret {R} (r : R) : Method R := fun t => (r, t).

Definition bind {R S} (m : Method R) (k : R -> Method S) : Method S :=
  fun t => let (r, t') := m t in k r t'.

Notation "x <- m ;; k" := (bind m (fun x => k))
  (at level 61, m at next level, right associativity).
Notation "m ;;; k" := (bind m (fun _ => k))
  (at level 61, right associativity).

(** A [for] loop or a [forEach] over [l] that carries [acc]. *)
Fixpoint loop {E R} (l : list E) (acc : R) (body : R -> E -> Method R) : Method R :=
  match l with
  | [] => ret acc
  | e :: l' => acc' <- body acc e ;; loop l' acc' body
  end.

Definition for_each {E} (l : list E) (body : E -> Method unit) : Method unit :=
  loop l tt (fun _ e => body e).

(** *** The map *)

Fixpoint lookup (k : key) (t : table) : option Pattern :=
  match t with
  | [] => None
  | (k', p) :: t' => if seq_eqb k' k then Some p else lookup k t'
  end.

Fixpoint insert (k : key) (p : Pattern) (t : table) : table :=
  match t with
  | [] => [(k, p)]
  | (k', p') :: t' =>
      if seq_eqb k' k then (k', p) :: t' else (k', p') :: insert k p t'
  end.

(** [this.patterns.get(key)] *)
Definition Map_get (k : key) : Method (option Pattern) :=
  fun t => (lookup k t, t).

(** [this.patterns.set(key, pattern)] *)
Definition Map_set (k : key) (p : Pattern) : Method unit :=
  fun t => (tt, insert k p t).

(** Assignments to the fields of the pattern object that [get(key)]
    returned. *)
Fixpoint mutate (k : key) (f : Pattern -> Pattern) (t : table) : table :=
  match t with
  | [] => []
  | (k', p) :: t' =>
      if seq_eqb k' k then (k', f p) :: t' else (k', p) :: mutate k f t'
  end.

Definition Map_mutate (k : key) (f : Pattern -> Pattern) : Method unit :=
  fun t => (tt, mutate k f t).

(** [this.patterns.forEach(pattern => ...)] with a body that assigns to
    the fields of [pattern]. *)
Definition Map_forEach_mutate (f : Pattern -> Pattern) : Method unit :=
  fun t => (tt, map (fun e => (fst e, f (snd e))) t).

(** The patterns as [this.patterns.forEach] visits them. *)
Definition Map_values : Method (list Pattern) :=
  fun t => (map snd t, t).

(** *** train *)

Definition train_window (digits : list digit) (windowSize i : nat) : Method unit :=
  let window := slice i (i + windowSize) digits in   (* [sequence] *)
  let key := window in
  existing <- Map_get key ;;
  match existing with
  | Some _ =>
      Map_mutate key (fun existing =>
        {| sequence := existing.(sequence);
           frequency := S existing.(frequency);
           confidence := existing.(confidence);
           lastSeen := i;
           successRate := existing.(successRate) |})
  | None =>
      Map_set key
        {| sequence := window;
           frequency := 1;
           confidence := lit 0;
           lastSeen := i;
           successRate := lit 0 |}
  end.

(** The confidence the last pass of [train] assigns. *)
Definition score_confidence (length : nat) (pattern : Pattern) : num :=
  let recency := (of_nat pattern.(lastSeen) / of_nat length) * lit 100 in
  let frequency := (of_nat pattern.(frequency) / of_nat length) * lit 1000 in
  frequency * lit 0.6 + recency * lit 0.4.

Definition train (digits : list digit) : Method unit :=
  for_each windowSizes (fun windowSize =>
    (* for (let i = 0; i <= digits.length - windowSize; i++) *)
    for_each (seq 0 (length digits + 1 - windowSize))
             (train_window digits windowSize)) ;;;
  Map_forEach_mutate (fun pattern =>
    {| sequence := pattern.(sequence);
       frequency := pattern.(frequency);
       confidence := score_confidence (length digits) pattern;
       lastSeen := pattern.(lastSeen);
       successRate := pattern.(successRate) |}).

(** *** detectPatterns *)

Definition detectPatterns (recentDigits : list digit) (minConfidence : num)
  : Method (list Pattern) :=
  detected <-
    loop windowSizes [] (fun detected windowSize =>
      if (length recentDigits <? windowSize)%nat then ret detected
      else
        let recentSequence := slice_last windowSize recentDigits in
        let key := recentSequence in
        pattern <- Map_get key ;;
        match pattern with
        | Some pattern =>
            if pattern.(confidence) >=? minConfidence
            then ret (detected ++ [pattern])
            else ret detected
        | None => ret detected
        end) ;;
  ret (Array_sort (fun a b => b.(confidence) - a.(confidence) >? lit 0) detected).

(** *** predictNext *)

(** [predictions]: a [Map] from digit to accumulated weight. *)
Definition weight_map : Type := list (digit * num).

Fixpoint weight_get (d : digit) (m : weight_map) : option num :=
  match m with
  | [] => None
  | (d', w) :: m' => if digit_eqb d' d then Some w else weight_get d m'
  end.

Fixpoint weight_set (d : digit) (w : num) (m : weight_map) : weight_map :=
  match m with
  | [] => [(d, w)]
  | (d', w') :: m' =>
      if digit_eqb d' d then (d', w) :: m' else (d', w') :: weight_set d w m'
  end.

(** [predictions.get(digit) || 0] *)
Definition weight_get_or_zero (d : digit) (m : weight_map) : num :=
  match weight_get d m with
  | Some w => or_zero w
  | None => lit 0
  end.

(** The body of the [forEach] of [predictNext].  Every stored sequence has
    a last element (its length is a window size); an empty one would make
    [nextDigit] undefined and is left out. *)
Definition predictNext_visit (recentDigits : list digit)
           (predictions : weight_map) (pattern : Pattern) : weight_map :=
  let seqLength := length pattern.(sequence) in
  if (length recentDigits <? seqLength - 1)%nat then predictions
  else
    let recent := slice_last (seqLength - 1) recentDigits in
    let patternPrefix := slice_init pattern.(sequence) in
    if seq_eqb recent patternPrefix then
      match nth_error pattern.(sequence) (seqLength - 1) with
      | Some nextDigit =>
          let weight := pattern.(confidence) in
          weight_set nextDigit
            (weight_get_or_zero nextDigit predictions + weight) predictions
      | None => predictions
      end
    else predictions.

Definition predictNext (recentDigits : list digit) : Method weight_map :=
  patterns <- Map_values ;;
  ret (fold_left (predictNext_visit recentDigits) patterns []).

End Recognizer.

Arguments Pattern num : clear implicits.
Arguments table num : clear implicits.
Arguments weight_map num : clear implicits.

(* ================================================================= *)
(** * MultiStepPredictor *)

Module MultiStepPrediction.

Inductive Confidence : Type := very_high | high | medium | low.

Definition is_low (c : Confidence) : bool :=
  match c with low => true | _ => false end.

Record t (num : Type) : Type := {
  step : nat;
  digit : digit;
  probability : num;
  confidence : Confidence;
  method : string
}.

End MultiStepPrediction.

Section Predictor.

Context {num : Type} `{Number num} `{MathPow num}.
Local Open Scope js_scope.

Definition matrix : Type := list (list num).

Record MultiStepPredictor : Type := {
  patternRecognizer : table num;
  markovChain : matrix
}.

(** [Array(10).fill(0).map(() => Array(10).fill(0))] *)
Definition zero_matrix : matrix := repeat (repeat (lit 0) 10) 10.

(** [m[from][to] += weight] *)
Definition matrix_add (from to : digit) (weight : num) (m : matrix) : matrix :=
  update_nth (digit_to_nat from)
             (update_nth (digit_to_nat to) (fun count => count + weight)) m.

(** The first loop of [buildEnhancedMarkov]: the decayed transition
    counts, in [transitions] and in [neuralWeights]. *)
Definition count_transitions (digits : list digit) : matrix * matrix :=
  fold_left
    (fun (acc : matrix * matrix) (i : nat) =>
       let (transitions, neuralWeights) := acc in
       match nth_error digits i, nth_error digits (i + 1) with
       | Some from, Some to =>
           let weight := Math_pow (lit 0.99) (length digits - 1 - i) in
           (matrix_add from to weight transitions,
            matrix_add from to weight neuralWeights)
       | _, _ => acc
       end)
    (seq 0 (length digits - 1))
    (zero_matrix, zero_matrix).

(** [total > 0 ? (count / total) * 100 : 0] *)
Definition baseProb (total count : num) : num :=
  if total >? lit 0 then (count / total) * lit 100 else lit 0.

Definition buildEnhancedMarkov (digits : list digit) : matrix :=
  let (transitions, neuralWeights) := count_transitions digits in
  mapi (fun from row =>
          let total := sum_from_zero row in
          mapi (fun to count =>
                  let neuralBoost := nth_num (nth from neuralWeights []) to / lit 10 in
                  Math_min (baseProb total count + neuralBoost) (lit 100))
               row)
       transitions.

(** The constructor. *)
Definition new_MultiStepPredictor (historicalDigits : list digit) : MultiStepPredictor :=
  {| patternRecognizer := snd (train historicalDigits []);
     markovChain := buildEnhancedMarkov historicalDigits |}.

(** [counts]: [new Array(10).fill(0)] after [digits.forEach(d => counts[d]++)]. *)
Definition count_digits (digits : list digit) : list nat :=
  fold_left (fun counts d => update_nth (digit_to_nat d) S counts) digits (repeat 0%nat 10).

Definition analyzeFrequency (digits : list digit) : list num :=
  let counts := count_digits digits in
  let total := length digits in
  map (fun count => (of_nat count / of_nat total) * lit 100) counts.

Definition confidence_of (score : num) : MultiStepPrediction.Confidence :=
  if score >=? lit 80 then MultiStepPrediction.very_high
  else if score >=? lit 65 then MultiStepPrediction.high
  else if score >=? lit 50 then MultiStepPrediction.medium
  else MultiStepPrediction.low.

(** The score [totalScore] the ensemble gives [digit]. *)
Definition totalScore (patternPreds : weight_map num) (markovProbs freqAnalysis : list num)
           (digit : digit) : num :=
  let patternScore := weight_get_or_zero digit patternPreds in
  let markovScore := nth_or_zero markovProbs (digit_to_nat digit) in
  let freqScore := nth_or_zero freqAnalysis (digit_to_nat digit) in
  patternScore * lit 0.5 + markovScore * lit 0.35 + freqScore * lit 0.15.

(** [Array.from(ensemble.entries())] *)
Definition ensemble (this : MultiStepPredictor) (markovProbs : list num)
           (currentDigits : list digit) : list (digit * num) :=
  (* the recognizer is read, not written: its state after the call is dropped *)
  let patternPreds := fst (predictNext currentDigits this.(patternRecognizer)) in
  let freqAnalysis := analyzeFrequency currentDigits in
  map (fun digit => (digit, totalScore patternPreds markovProbs freqAnalysis digit))
      all_digits.

(** One iteration of the loop of [predictNextN], up to the [push].  [None]
    is the TypeError of reading [markovProbs[digit]] when the working
    sequence is empty and [markovProbs] is undefined. *)
Definition predict_step (this : MultiStepPredictor) (step : nat)
           (currentDigits : list digit) : option (MultiStepPrediction.t num) :=
  match last_error currentDigits with
  | None => None
  | Some lastDigit =>
      match nth_error this.(markovChain) (digit_to_nat lastDigit) with
      | None => None
      | Some markovProbs =>
          let sorted :=
            Array_sort (fun a b => snd b - snd a >? lit 0)
                       (ensemble this markovProbs currentDigits) in
          match sorted with
          | [] => None
          | (predictedDigit, score) :: _ =>
              Some {| MultiStepPrediction.step := step;
                      MultiStepPrediction.digit := predictedDigit;
                      MultiStepPrediction.probability := score;
                      MultiStepPrediction.confidence := confidence_of score;
                      MultiStepPrediction.method :=
                        "Ensemble (Pattern + Markov + Frequency)" |}
          end
      end
  end.

(** The loop of [predictNextN] with [remaining] iterations to go. *)
Fixpoint predict_loop (this : MultiStepPredictor) (remaining step : nat)
         (predictions : list (MultiStepPrediction.t num))
         (currentDigits : list digit) : option (list (MultiStepPrediction.t num)) :=
  match remaining with
  | O => Some predictions
  | S remaining' =>
      match predict_step this step currentDigits with
      | None => None
      | Some prediction =>
          let predictions := predictions ++ [prediction] in
          let currentDigits := currentDigits ++ [prediction.(MultiStepPrediction.digit)] in
          if MultiStepPrediction.is_low prediction.(MultiStepPrediction.confidence)
             && (3 <=? step)%nat
          then Some predictions  (* break *)
          else predict_loop this remaining' (S step) predictions currentDigits
      end
  end.

(** [predictNextN(recentDigits, steps)]: the predictions, or [None] when
    the call throws. *)
Definition predictNextN (this : MultiStepPredictor) (recentDigits : list digit)
           (steps : Z) : option (list (MultiStepPrediction.t num)) :=
  predict_loop this (Z.to_nat steps) 1 [] recentDigits.

End Predictor.

Arguments MultiStepPredictor num : clear implicits.
Arguments matrix num : clear implicits.

(* ================================================================= *)
(** * BacktestingEngine *)

Inductive Strategy : Type := Match | Differ.

Section Backtesting.

Context {num : Type} `{Number num}.
Local Open Scope js_scope.

Record BacktestResult : Type := {
  accuracy : num;
  precision : num;
  recall : num;
  f1Score : num;
  truePositives : nat;
  falsePositives : nat;
  trueNegatives : nat;
  falseNegatives : nat;
  profitLoss : num
}.

(** The counters the loop of [backtest] updates. *)
Record Tally : Type := {
  tally_truePositives : nat;
  tally_falsePositives : nat;
  tally_profitLoss : num
}.

Definition win (payout : num) (t : Tally) : Tally :=
  {| tally_truePositives := S t.(tally_truePositives);
     tally_falsePositives := t.(tally_falsePositives);
     tally_profitLoss := t.(tally_profitLoss) + payout |}.

Definition lose (t : Tally) : Tally :=
  {| tally_truePositives := t.(tally_truePositives);
     tally_falsePositives := S t.(tally_falsePositives);
     tally_profitLoss := t.(tally_profitLoss) - lit 1 |}.

(** [predicted === actual], where [actual] is [testData[i]]. *)
Definition same_digit (predicted : digit) (actual : option digit) : bool :=
  match actual with
  | Some a => digit_eqb predicted a
  | None => false
  end.

(** The body of the loop once [predicted] is known. *)
Definition settle (strategy : Strategy) (predicted : digit) (actual : option digit)
           (t : Tally) : Tally :=
  match strategy with
  | Match => if same_digit predicted actual then win (lit 0.95) t else lose t
  | Differ => if negb (same_digit predicted actual) then win (lit 0.9) t else lose t
  end.

Section WithPredictor.

(** [predictor.predictNextN]; [None] when the call throws. *)
Variable predictor_predictNextN :
  list digit -> Z -> option (list (MultiStepPrediction.t num)).

(** One iteration of the loop, [None] when the predictor throws. *)
Definition backtest_step (testData : list digit) (strategy : Strategy)
           (t : Tally) (i : nat) : option Tally :=
  let historical := slice 0 i testData in
  let actual := nth_error testData i in
  match predictor_predictNextN historical 1%Z with
  | None => None
  | Some [] => Some t  (* continue *)
  | Some (prediction :: _) =>
      Some (settle strategy prediction.(MultiStepPrediction.digit) actual t)
  end.

Fixpoint backtest_loop (testData : list digit) (strategy : Strategy)
         (indices : list nat) (t : Tally) : option Tally :=
  match indices with
  | [] => Some t
  | i :: indices' =>
      match backtest_step testData strategy t i with
      | None => None
      | Some t' => backtest_loop testData strategy indices' t'
      end
  end.

(** The indices of [for (let i = 50; i < testData.length - 1; i++)]. *)
Definition scored_indices (testData : list digit) : list nat :=
  seq 50 (length testData - 1 - 50).

Definition metrics (t : Tally) : BacktestResult :=
  let truePositives := t.(tally_truePositives) in
  let falsePositives := t.(tally_falsePositives) in
  let trueNegatives := 0%nat in
  let falseNegatives := 0%nat in
  let total := (truePositives + falsePositives + trueNegatives + falseNegatives)%nat in
  let accuracy := (of_nat (truePositives + trueNegatives) / of_nat total) * lit 100 in
  let precision :=
    (of_nat truePositives / of_nat (truePositives + falsePositives)) * lit 100 in
  let recall :=
    (of_nat truePositives / of_nat (truePositives + falseNegatives)) * lit 100 in
  let f1Score := (lit 2 * precision * recall) / (precision + recall) in
  {| accuracy := accuracy;
     precision := precision;
     recall := recall;
     f1Score := f1Score;
     truePositives := truePositives;
     falsePositives := falsePositives;
     trueNegatives := trueNegatives;
     falseNegatives := falseNegatives;
     profitLoss := t.(tally_profitLoss) |}.

Definition backtest_with (testData : list digit) (strategy : Strategy)
  : option BacktestResult :=
  match backtest_loop testData strategy (scored_indices testData)
          {| tally_truePositives := 0;
             tally_falsePositives := 0;
             tally_profitLoss := lit 0 |} with
  | None => None
  | Some t => Some (metrics t)
  end.

End WithPredictor.

(** [backtest(predictor, testData, strategy)] *)
Definition backtest `{MathPow num} (predictor : MultiStepPredictor num)
           (testData : list digit) (strategy : Strategy) : option BacktestResult :=
  backtest_with (predictNextN predictor) testData strategy.

End Backtesting.

Arguments BacktestResult num : clear implicits.
Arguments Tally num : clear implicits.

Module Comparison.

Record t (num : Type) : Type := {
  strategy : string;
  result : BacktestResult num
}.

Arguments strategy {num} _.
Arguments result {num} _.

End Comparison.

Section Comparing.

Context {num : Type} `{Number num}.

(** [compareStrategies(predictor, testData)]: the two calls of [backtest]
    in the order of the array literal; [None] when one of them throws. *)
Definition compareStrategies `{MathPow num} (predictor : MultiStepPredictor num)
           (testData : list digit) : option (list (Comparison.t num)) :=
  match backtest predictor testData Match with
  | None => None
  | Some matchResult =>
      match backtest predictor testData Differ with
      | None => None
      | Some differResult =>
          Some [ {| Comparison.strategy := "Match";
                    Comparison.result := matchResult |};
                 {| Comparison.strategy := "Differ";
                    Comparison.result := differResult |} ]
      end
  end.

End Comparing.

(* ================================================================= *)
(** * AnomalyDetector *)

Module Anomaly.

Inductive Kind : Type := frequency | volatility | pattern | distribution.

Inductive Severity : Type := low | medium | high | critical.

(** [severityOrder] *)
Definition severityOrder (s : Severity) : Z :=
  match s with
  | critical => 4
  | high => 3
  | medium => 2
  | low => 1
  end%Z.

(** What [detectUnusualPatterns] reports; each is a template string of the
    source, kept as the values it is filled with. *)
Inductive UnusualPattern : Type :=
| Streak (currentStreak : nat) (d : digit)   (* `${currentStreak}x consecutive ${d}s` *)
| Alternation (a b : digit)                  (* `Perfect alternation: ${a}-${b}` *)
| Ascending (last4 : list digit)             (* `Ascending sequence: ${last4.join('-')}` *)
| Descending (last4 : list digit).           (* `Descending sequence: ${last4.join('-')}` *)

(** The [description] strings, as their template and its arguments (the
    numbers before [toFixed(0)]). *)
Inductive Description (num : Type) : Type :=
| FrequencyDescription (digit : nat) (percentChange : num) (above : bool)
| VolatilityDescription (increased : bool) (percent : num)
| PatternDescription (pattern : UnusualPattern)
| DistributionDescription (uniformityPercent : num).

(** The [recommendation] strings. *)
Inductive Recommendation : Type :=
| ConsiderDiffering (digit : nat)
| ConsiderMatching (digit : nat)
| ReduceStake
| StableMarket
| MonitorPattern
| DominatingDigit (dominant : Z).

Record t (num : Type) : Type := {
  type : Kind;
  severity : Severity;
  description : Description num;
  affectedDigits : list Z;
  recommendation : Recommendation
}.

End Anomaly.

Module Detector.

Section Detector.

Context {num : Type} `{Number num} `{MathPow num} `{MathSqrt num}.
Local Open Scope js_scope.

Record AnomalyDetector : Type := {
  baselineFrequency : list num;
  baselineVolatility : num
}.

(** The field initialisers: [new Array(10).fill(10)] and [0]. *)
Definition new_AnomalyDetector : AnomalyDetector :=
  {| baselineFrequency := repeat (lit 10) 10;
     baselineVolatility := lit 0 |}.

Definition analyzeFrequency (digits : list digit) : list num :=
  let counts := count_digits digits in
  map (fun c => (of_nat c / of_nat (length digits)) * lit 100) counts.

Definition calculateStdDev (values : list num) (mean : num) : num :=
  let squareDiffs := map (fun v => Math_pow (v - mean) 2) values in
  let avgSquareDiff := sum_from_zero squareDiffs / of_nat (length values) in
  Math_sqrt avgSquareDiff.

Definition calibrate (historicalDigits : list digit) : AnomalyDetector :=
  let counts := count_digits historicalDigits in
  let baselineFrequency :=
    map (fun c => (of_nat c / of_nat (length historicalDigits)) * lit 100) counts in
  let stdDev := calculateStdDev baselineFrequency (lit 10) in
  {| baselineFrequency := baselineFrequency;
     baselineVolatility := stdDev |}.

(** [a === b] on two reads [digits[i]], [digits[j]] of the array. *)
Definition same_read (a b : option digit) : bool :=
  match a, b with
  | Some x, Some y => digit_eqb x y
  | None, None => true
  | _, _ => false
  end.

(** The streak loop of [detectUnusualPatterns]: [(currentStreak, patterns)]
    after the iterations [indices]. *)
Definition streaks (digits : list digit) (indices : list nat)
  : nat * list Anomaly.UnusualPattern :=
  fold_left
    (fun (st : nat * list Anomaly.UnusualPattern) (i : nat) =>
       let (currentStreak, patterns) := st in
       if same_read (nth_error digits i) (nth_error digits (i - 1)) then
         let currentStreak := S currentStreak in
         if (5 <=? currentStreak)%nat then
           match nth_error digits i with
           | Some d => (currentStreak, patterns ++ [Anomaly.Streak currentStreak d])
           | None => (currentStreak, patterns)
           end
         else (currentStreak, patterns)
       else (1%nat, patterns))
    indices (1%nat, []).

(** [last6[0] === last6[2] && ... && last6[0] !== last6[1]] *)
Definition alternates (last6 : list digit) : bool :=
  match last6 with
  | [a0; a1; a2; a3; a4; a5] =>
      digit_eqb a0 a2 && digit_eqb a2 a4 && digit_eqb a1 a3 && digit_eqb a3 a5
      && negb (digit_eqb a0 a1)
  | _ => false
  end.

(** [last4.every((d, i) => i === 0 || d === last4[i - 1] + 1)] for [up], and
    with [- 1] otherwise. *)
Fixpoint every_step (up : bool) (last4 : list digit) : bool :=
  match last4 with
  | a :: (b :: _) as rest =>
      (if up then digit_to_nat b =? S (digit_to_nat a)
       else S (digit_to_nat b) =? digit_to_nat a)%nat
      && every_step up rest
  | _ => true
  end.

Definition detectUnusualPatterns (digits : list digit) : list Anomaly.UnusualPattern :=
  let patterns := snd (streaks digits (seq 1 (length digits - 1))) in
  let patterns :=
    if (6 <=? length digits)%nat then
      let last6 := slice_last 6 digits in
      if alternates last6
      then patterns ++ [Anomaly.Alternation (nth 0 last6 D0) (nth 1 last6 D0)]
      else patterns
    else patterns in
  if (4 <=? length digits)%nat then
    let last4 := slice_last 4 digits in
    let isAscending := every_step true last4 in
    let isDescending := every_step false last4 in
    let patterns := if isAscending then patterns ++ [Anomaly.Ascending last4] else patterns in
    if isDescending then patterns ++ [Anomaly.Descending last4] else patterns
  else patterns.

Definition calculateUniformity (frequencies : list num) : num :=
  let ideal := lit 10 in
  let deviations := map (fun f => Math_abs (f - ideal)) frequencies in
  let avgDeviation := sum_from_zero deviations / lit 10 in
  Math_max (lit 0) (lit 1 - avgDeviation / ideal).

(** [Math.max(...values)] *)
Definition Math_max_of (values : list num) : num :=
  fold_left Math_max values neg_infinity.

(** [values.indexOf(x)] *)
Fixpoint indexOf_from (i : nat) (x : num) (values : list num) : Z :=
  match values with
  | [] => (-1)%Z
  | v :: values' => if strict_eq v x then Z.of_nat i else indexOf_from (S i) x values'
  end.

Definition indexOf (x : num) (values : list num) : Z := indexOf_from 0 x values.

(** 1. Frequency anomalies: the body of [currentFreq.forEach((freq, digit) => ...)]. *)
Definition frequencyAnomaly (this : AnomalyDetector) (digit : nat) (freq : num)
  : list (Anomaly.t num) :=
  let baseline := nth_num this.(baselineFrequency) digit in
  let deviation := Math_abs (freq - baseline) in
  let percentChange := (deviation / baseline) * lit 100 in
  if percentChange >? lit 50 then
    [ {| Anomaly.type := Anomaly.frequency;
         Anomaly.severity :=
           if percentChange >? lit 100 then Anomaly.critical
           else if percentChange >? lit 75 then Anomaly.high
           else Anomaly.medium;
         Anomaly.description :=
           Anomaly.FrequencyDescription digit percentChange (freq >? baseline);
         Anomaly.affectedDigits := [Z.of_nat digit];
         Anomaly.recommendation :=
           if freq >? baseline then Anomaly.ConsiderDiffering digit
           else Anomaly.ConsiderMatching digit |} ]
  else [].

(** 2. Volatility anomalies. *)
Definition volatilityAnomaly (this : AnomalyDetector) (currentFreq : list num)
  : list (Anomaly.t num) :=
  let currentVolatility := calculateStdDev currentFreq (lit 10) in
  let volatilityChange := Math_abs (currentVolatility - this.(baselineVolatility)) in
  if volatilityChange >? this.(baselineVolatility) * lit 0.5 then
    [ {| Anomaly.type := Anomaly.volatility;
         Anomaly.severity :=
           if volatilityChange >? this.(baselineVolatility)
           then Anomaly.high else Anomaly.medium;
         Anomaly.description :=
           Anomaly.VolatilityDescription
             (currentVolatility >? this.(baselineVolatility))
             ((volatilityChange / this.(baselineVolatility)) * lit 100);
         Anomaly.affectedDigits := [];
         Anomaly.recommendation :=
           if currentVolatility >? this.(baselineVolatility)
           then Anomaly.ReduceStake else Anomaly.StableMarket |} ]
  else [].

(** 3. Pattern anomalies. *)
Definition patternAnomaly (pattern : Anomaly.UnusualPattern) : Anomaly.t num :=
  {| Anomaly.type := Anomaly.pattern;
     Anomaly.severity := Anomaly.medium;
     Anomaly.description := Anomaly.PatternDescription num pattern;
     Anomaly.affectedDigits := [];
     Anomaly.recommendation := Anomaly.MonitorPattern |}.

(** 4. Distribution anomalies. *)
Definition distributionAnomaly (currentFreq : list num) : list (Anomaly.t num) :=
  let uniformityScore := calculateUniformity currentFreq in
  if uniformityScore <? lit 0.7 then
    let dominant := indexOf (Math_max_of currentFreq) currentFreq in
    [ {| Anomaly.type := Anomaly.distribution;
         Anomaly.severity :=
           if uniformityScore <? lit 0.5 then Anomaly.high else Anomaly.medium;
         Anomaly.description :=
           Anomaly.DistributionDescription (uniformityScore * lit 100);
         Anomaly.affectedDigits := [dominant];
         Anomaly.recommendation := Anomaly.DominatingDigit dominant |} ]
  else [].

(** [anomalies] as the four checks have pushed to it, before the sort. *)
Definition detected (this : AnomalyDetector) (recentDigits : list digit)
  : list (Anomaly.t num) :=
  let currentFreq := analyzeFrequency recentDigits in
  concat (mapi (frequencyAnomaly this) currentFreq)
  ++ volatilityAnomaly this currentFreq
  ++ map patternAnomaly (detectUnusualPatterns recentDigits)
  ++ distributionAnomaly currentFreq.

(** [severityOrder[b.severity] - severityOrder[a.severity]] *)
Definition bySeverity (a b : Anomaly.t num) : Z :=
  (Anomaly.severityOrder b.(Anomaly.severity)
   - Anomaly.severityOrder a.(Anomaly.severity))%Z.

Definition detect (this : AnomalyDetector) (recentDigits : list digit)
  : list (Anomaly.t num) :=
  Array_sort (fun a b => (bySeverity a b >? 0)%Z) (detected this recentDigits).

End Detector.

Arguments AnomalyDetector num : clear implicits.

End Detector.

(* ================================================================= *)
(** * The even/odd panel *)

Module EvenOddBot.

Section EvenOddBot.

Context {num : Type} `{Number num}.
Local Open Scope js_scope.

(** An entry of [digit_stats], with the two fields the panel reads:
    [digit], one of 0 to 9, and [count]. *)
Record DigitStat : Type := {
  stat_digit : digit;
  stat_count : num
}.

(** What the [useMemo] callback returns. *)
Record Counts : Type := {
  evenCount : num;
  oddCount : num;
  total : num
}.

(** The body of [digit_stats.forEach(stat => ...)] on [even], [odd], [sum]. *)
Definition visit (st : num * num * num) (stat : DigitStat) : num * num * num :=
  let '(even, odd, sum) := st in
  let sum := sum + stat_count stat in
  if (digit_to_nat (stat_digit stat) mod 2 =? 0)%nat
  then (even + stat_count stat, odd, sum)
  else (even, odd + stat_count stat, sum).

Definition counts (digit_stats : list DigitStat) : Counts :=
  let '(even, odd, sum) := fold_left visit digit_stats (lit 0, lit 0, lit 0) in
  {| evenCount := even; oddCount := odd; total := sum |}.

(** [total > 0 ? (evenCount / total) * 100 : 0] *)
Definition evenProb (c : Counts) : num :=
  if total c >? lit 0 then (evenCount c / total c) * lit 100 else lit 0.

Definition oddProb (c : Counts) : num :=
  if total c >? lit 0 then (oddCount c / total c) * lit 100 else lit 0.

(** The class [dominant] of the two cards. *)
Definition evenDominant (c : Counts) : bool := evenProb c >? oddProb c.
Definition oddDominant (c : Counts) : bool := oddProb c >? evenProb c.

End EvenOddBot.

Arguments DigitStat num : clear implicits.
Arguments Counts num : clear implicits.

End EvenOddBot.

(* ================================================================= *)
(** * Facts about digit sequences and arrays *)

Lemma digit_eqb_eq (a b : digit) : digit_eqb a b = true <-> a = b.
Proof.
  unfold digit_eqb. destruct (digit_eq_dec a b); split; congruence.
Qed.

Lemma seq_eqb_eq (a b : list digit) : seq_eqb a b = true <-> a = b.
Proof.
  revert b. induction a as [|x a IH]; intros [|y b]; simpl; split; try congruence.
  - intro Hxy. apply andb_true_iff in Hxy. destruct Hxy as [Hx Ha].
    apply digit_eqb_eq in Hx. apply IH in Ha. congruence.
  - intro Hxy. injection Hxy as -> ->. apply andb_true_iff. split.
    + apply digit_eqb_eq. reflexivity.
    + apply IH. reflexivity.
Qed.

Lemma seq_eqb_refl (a : list digit) : seq_eqb a a = true.
Proof. apply seq_eqb_eq. reflexivity. Qed.

Lemma seq_eqb_neq (a b : list digit) : seq_eqb a b = false <-> a <> b.
Proof.
  destruct (seq_eqb a b) eqn:E.
  - apply seq_eqb_eq in E. split; [discriminate | contradiction].
  - split; [|reflexivity]. intros _ Hab. apply seq_eqb_eq in Hab. congruence.
Qed.

(** Turns the tests [seq_eqb] of the context into equations. *)
Ltac seq_eqb_prop :=
  repeat match goal with
         | E : seq_eqb _ _ = true |- _ => apply seq_eqb_eq in E
         | E : seq_eqb _ _ = false |- _ => apply seq_eqb_neq in E
         end.

Lemma slice_length {A} (i j : nat) (a : list A) :
  j <= length a -> length (slice i j a) = j - i.
Proof.
  intro Hj. unfold slice. rewrite length_firstn, length_skipn. lia.
Qed.

Lemma slice_from_zero {A} (i : nat) (a : list A) : slice 0 i a = firstn i a.
Proof. unfold slice. simpl. rewrite Nat.sub_0_r. reflexivity. Qed.

(* ================================================================= *)
(** * Facts about the sort *)

Section SortFacts.

Variable A : Type.
Variable after : A -> A -> bool.

(** [x] may stand before [y]. *)
Definition may_precede (x y : A) : Prop := after x y = false.

Lemma sort_insert_perm (x : A) (l : list A) :
  Permutation (sort_insert after x l) (x :: l).
Proof.
  induction l as [|y l IH]; simpl; [apply Permutation_refl|].
  destruct (after x y).
  - eapply perm_trans; [apply perm_skip, IH | apply perm_swap].
  - apply Permutation_refl.
Qed.

Lemma Array_sort_perm (l : list A) : Permutation (Array_sort after l) l.
Proof.
  induction l as [|x l IH]; simpl; [apply perm_nil|].
  eapply perm_trans; [apply sort_insert_perm | apply perm_skip, IH].
Qed.

Lemma Array_sort_length (l : list A) : length (Array_sort after l) = length l.
Proof. apply Permutation_length, Array_sort_perm. Qed.

Lemma Array_sort_In (x : A) (l : list A) : In x (Array_sort after l) <-> In x l.
Proof.
  split; apply Permutation_in; [|apply Permutation_sym]; apply Array_sort_perm.
Qed.

(** The comparison need only behave on the elements the array holds
    ([ok]); a score that is NaN would break it. *)
Variable ok : A -> Prop.

Lemma sort_insert_ok (x : A) (l : list A) :
  ok x -> Forall ok l -> Forall ok (sort_insert after x l).
Proof.
  intros Hx Hl. apply Forall_forall. intros z Hz.
  apply (Permutation_in _ (sort_insert_perm x l)) in Hz.
  destruct Hz as [<- | Hz]; [exact Hx|].
  revert z Hz. apply Forall_forall. exact Hl.
Qed.

Lemma Array_sort_ok (l : list A) : Forall ok l -> Forall ok (Array_sort after l).
Proof.
  intro Hl. apply Forall_forall. intros z Hz.
  apply (proj1 (Array_sort_In z l)) in Hz.
  revert z Hz. apply Forall_forall. exact Hl.
Qed.

(** Elements that may precede each other keep their order: the sort is
    stable. *)
Section Stable.

Variable P : A -> bool.
Hypothesis P_ties :
  forall x y, ok x -> ok y -> P x = true -> P y = true -> after x y = false.

Lemma sort_insert_filter (x : A) (l : list A) :
  ok x -> Forall ok l ->
  filter P (sort_insert after x l) = filter P (x :: l).
Proof.
  intros Hx Hl. induction Hl as [|y l Hy Hl IH]; [reflexivity|].
  simpl sort_insert. destruct (after x y) eqn:Hxy; [|reflexivity].
  simpl in *. rewrite IH.
  destruct (P x) eqn:Px; destruct (P y) eqn:Py; try reflexivity.
  rewrite P_ties in Hxy by assumption. discriminate.
Qed.

Lemma Array_sort_filter (l : list A) :
  Forall ok l -> filter P (Array_sort after l) = filter P l.
Proof.
  induction 1 as [|x l Hx Hl IH]; [reflexivity|].
  simpl Array_sort. rewrite sort_insert_filter; [|exact Hx | apply Array_sort_ok, Hl].
  simpl. rewrite IH. reflexivity.
Qed.

End Stable.

(** For a consistent comparison the result is in order. *)
Section Ordered.

Hypothesis after_asym :
  forall x y, ok x -> ok y -> after x y = true -> after y x = false.
Hypothesis precede_trans :
  forall x y z, ok x -> ok y -> ok z ->
                may_precede x y -> may_precede y z -> may_precede x z.

Lemma sort_insert_sorted (x : A) (l : list A) :
  ok x -> Forall ok l ->
  StronglySorted may_precede l -> StronglySorted may_precede (sort_insert after x l).
Proof.
  intros Hx Hok. induction 1 as [|y l Hl IH Hy]; simpl.
  - constructor; constructor.
  - apply Forall_cons_iff in Hok. destruct Hok as [Hoky Hokl].
    destruct (after x y) eqn:Hxy.
    + constructor; [exact (IH Hokl)|].
      apply Forall_forall. intros z Hz.
      apply (Permutation_in _ (sort_insert_perm x l)) in Hz.
      destruct Hz as [<- | Hz].
      * apply after_asym; assumption.
      * revert z Hz. apply Forall_forall. exact Hy.
    + constructor; [constructor; assumption|].
      constructor; [exact Hxy|].
      apply Forall_forall. intros z Hz.
      apply precede_trans with y; try assumption.
      * revert z Hz. apply Forall_forall. exact Hokl.
      * revert z Hz. apply Forall_forall. exact Hy.
Qed.

Lemma Array_sort_sorted (l : list A) :
  Forall ok l -> StronglySorted may_precede (Array_sort after l).
Proof.
  induction 1 as [|x l Hx Hl IH]; simpl; [constructor|].
  apply sort_insert_sorted; [exact Hx | apply Array_sort_ok, Hl | exact IH].
Qed.

End Ordered.

End SortFacts.

Lemma StronglySorted_nth {A} (R : A -> A -> Prop) (l : list A) :
  StronglySorted R l ->
  forall i j a b, i < j -> nth_error l i = Some a -> nth_error l j = Some b -> R a b.
Proof.
  induction 1 as [|x l Hl IH Hx]; intros i j a b Hij Ha Hb.
  - destruct i; discriminate.
  - destruct j as [|j]; [lia|]. simpl in Hb.
    destruct i as [|i]; simpl in Ha.
    + injection Ha as <-. apply nth_error_In in Hb.
      revert b Hb. apply Forall_forall. exact Hx.
    + apply (IH i j); [lia | assumption | assumption].
Qed.

(* ================================================================= *)
(** * Properties of the recognizer *)

Arguments Method num R : clear implicits.

Section RecognizerFacts.

Context {num : Type} `{Number num}.

(** A method whose steps all leave the table as it is leaves it as it is. *)
Definition reads_only {R} (m : Method num R) : Prop :=
  forall t, snd (m t) = t.

Lemma ret_reads_only {R} (r : R) : reads_only (ret r).
Proof. intro t. reflexivity. Qed.

Lemma bind_reads_only {R S} (m : Method num R) (k : R -> Method num S) :
  reads_only m -> (forall r, reads_only (k r)) -> reads_only (bind m k).
Proof.
  intros Hm Hk t. unfold bind.
  specialize (Hm t). destruct (m t) as [r t']. simpl in Hm. subst t'.
  apply Hk.
Qed.

Lemma Map_get_reads_only (k : key) : reads_only (Map_get k).
Proof. intro t. reflexivity. Qed.

Lemma Map_values_reads_only : reads_only (@Map_values num).
Proof. intro t. reflexivity. Qed.

Lemma loop_reads_only {E R} (l : list E) (body : R -> E -> Method num R) :
  (forall acc e, reads_only (body acc e)) ->
  forall acc, reads_only (loop l acc body).
Proof.
  intros Hbody. induction l as [|e l IH]; intro acc; simpl.
  - apply ret_reads_only.
  - apply bind_reads_only; [apply Hbody | intro r; apply IH].
Qed.

Lemma detectPatterns_reads_only (recentDigits : list digit) (minConfidence : num) :
  reads_only (detectPatterns recentDigits minConfidence).
Proof.
  unfold detectPatterns.
  apply bind_reads_only; [|intro; apply ret_reads_only].
  apply loop_reads_only. intros acc w.
  destruct (length recentDigits <? w)%nat; [apply ret_reads_only|].
  apply bind_reads_only; [apply Map_get_reads_only|].
  intros [p|]; [|apply ret_reads_only].
  destruct (le minConfidence (confidence p)); apply ret_reads_only.
Qed.

Lemma predictNext_reads_only (recentDigits : list digit) :
  reads_only (predictNext recentDigits).
Proof.
  unfold predictNext.
  apply bind_reads_only; [apply Map_values_reads_only | intro; apply ret_reads_only].
Qed.

(** The sum of the stored frequencies: [train] makes it grow. *)
Definition total_frequency (t : table num) : nat :=
  fold_right (fun e acc => frequency (snd e) + acc) 0 t.

Lemma total_frequency_insert_fresh (k : key) (p : Pattern num) (t : table num) :
  lookup k t = None ->
  total_frequency (insert k p t) = total_frequency t + frequency p.
Proof.
  induction t as [|[k' p'] t IH]; simpl; intro Hl.
  - lia.
  - destruct (seq_eqb k' k); [discriminate|]. simpl. rewrite IH by assumption. lia.
Qed.

Lemma total_frequency_mutate (k : key) (f : Pattern num -> Pattern num) (t : table num) :
  (forall p, frequency (f p) = S (frequency p)) ->
  lookup k t <> None ->
  total_frequency (mutate k f t) = S (total_frequency t).
Proof.
  intros Hf. induction t as [|[k' p'] t IH]; simpl; intro Hl.
  - contradiction.
  - destruct (seq_eqb k' k); simpl.
    + rewrite Hf. lia.
    + rewrite IH by assumption. lia.
Qed.

(** ** What [train] stores *)

(** The windows [train] visits, in order: each with its starting index. *)
Definition windows_of (digits : list digit) (windowSize : nat) : list (key * nat) :=
  map (fun i => (slice i (i + windowSize) digits, i))
      (seq 0 (length digits + 1 - windowSize)).

Definition windows (digits : list digit) : list (key * nat) :=
  flat_map (windows_of digits) windowSizes.

(** The effect of one iteration of [train] on the table. *)
Definition bump (i : nat) (existing : Pattern num) : Pattern num :=
  {| sequence := existing.(sequence);
     frequency := S existing.(frequency);
     confidence := existing.(confidence);
     lastSeen := i;
     successRate := existing.(successRate) |}.

Definition first_seen (k : key) (i : nat) : Pattern num :=
  {| sequence := k; frequency := 1; confidence := lit 0; lastSeen := i;
     successRate := lit 0 |}.

Definition upsert (t : table num) (e : key * nat) : table num :=
  match lookup (fst e) t with
  | Some _ => mutate (fst e) (bump (snd e)) t
  | None => insert (fst e) (first_seen (fst e) (snd e)) t
  end.

Definition rescore (n : nat) (pattern : Pattern num) : Pattern num :=
  {| sequence := pattern.(sequence);
     frequency := pattern.(frequency);
     confidence := score_confidence n pattern;
     lastSeen := pattern.(lastSeen);
     successRate := pattern.(successRate) |}.

Lemma train_window_upsert (digits : list digit) (w i : nat) (t : table num) :
  snd (train_window digits w i t) = upsert t (slice i (i + w) digits, i).
Proof.
  unfold train_window, upsert, bind, Map_get. simpl.
  destruct (lookup (slice i (i + w) digits) t); reflexivity.
Qed.

Lemma for_each_table {E} (l : list E) (body : E -> Method num unit) (t : table num) :
  snd (for_each l body t) = fold_left (fun t e => snd (body e t)) l t.
Proof.
  unfold for_each. revert t.
  induction l as [|e l IH]; intro t; simpl; [reflexivity|].
  unfold bind. destruct (body e t) as [[] t'] eqn:Hb. simpl.
  rewrite IH. reflexivity.
Qed.

Lemma fold_left_ext_in {S E} (f g : S -> E -> S) (l : list E) (s : S) :
  (forall s e, f s e = g s e) -> fold_left f l s = fold_left g l s.
Proof.
  intro Hfg. revert s. induction l as [|e l IH]; intro s; simpl; [reflexivity|].
  rewrite Hfg. apply IH.
Qed.

Lemma fold_left_flat_map {S E F} (f : S -> F -> S) (g : E -> list F) (l : list E) (s : S) :
  fold_left f (flat_map g l) s = fold_left (fun s e => fold_left f (g e) s) l s.
Proof.
  revert s. induction l as [|e l IH]; intro s; simpl; [reflexivity|].
  rewrite fold_left_app. apply IH.
Qed.

Lemma fold_left_over_map {S E F} (f : S -> F -> S) (g : E -> F) (l : list E) (s : S) :
  fold_left f (map g l) s = fold_left (fun s e => f s (g e)) l s.
Proof.
  revert s. induction l as [|e l IH]; intro s; simpl; [reflexivity | apply IH].
Qed.

Lemma train_table (digits : list digit) (t : table num) :
  snd (train digits t)
  = map (fun e => (fst e, rescore (length digits) (snd e)))
        (fold_left upsert (windows digits) t).
Proof.
  unfold train, bind.
  destruct (for_each windowSizes _ t) as [u t'] eqn:Hf.
  assert (Ht' : t' = snd (for_each windowSizes
            (fun windowSize =>
               for_each (seq 0 (length digits + 1 - windowSize))
                        (train_window digits windowSize)) t))
    by (rewrite Hf; reflexivity).
  unfold Map_forEach_mutate. simpl. f_equal.
  rewrite Ht', for_each_table. unfold windows.
  rewrite fold_left_flat_map.
  apply fold_left_ext_in. intros s w.
  rewrite for_each_table. unfold windows_of. rewrite fold_left_over_map.
  apply fold_left_ext_in. intros s' i. apply train_window_upsert.
Qed.

(** *** The entry of a key after a run of iterations *)

Lemma lookup_mutate (k k' : key) (f : Pattern num -> Pattern num) (t : table num) :
  lookup k (mutate k' f t)
  = if seq_eqb k' k then option_map f (lookup k t) else lookup k t.
Proof.
  induction t as [|[k0 p0] t IH]; simpl.
  - destruct (seq_eqb k' k); reflexivity.
  - destruct (seq_eqb k0 k') eqn:E0; simpl;
      destruct (seq_eqb k0 k) eqn:E1; try rewrite IH;
      destruct (seq_eqb k' k) eqn:E2;
      seq_eqb_prop; subst; first [congruence | reflexivity].
Qed.

Lemma lookup_insert (k k' : key) (p : Pattern num) (t : table num) :
  lookup k (insert k' p t) = if seq_eqb k' k then Some p else lookup k t.
Proof.
  induction t as [|[k0 p0] t IH]; simpl.
  - reflexivity.
  - destruct (seq_eqb k0 k') eqn:E0; simpl;
      destruct (seq_eqb k0 k) eqn:E1; try rewrite IH;
      destruct (seq_eqb k' k) eqn:E2;
      seq_eqb_prop; subst; first [congruence | reflexivity].
Qed.

(** What one more occurrence at index [i] makes of the entry of a key. *)
Definition occur (k : key) (entry : option (Pattern num)) (i : nat)
  : option (Pattern num) :=
  Some match entry with
       | Some existing => bump i existing
       | None => first_seen k i
       end.

Lemma lookup_upsert (k : key) (t : table num) (e : key * nat) :
  lookup k (upsert t e)
  = if seq_eqb (fst e) k then occur k (lookup k t) (snd e) else lookup k t.
Proof.
  destruct e as [k' i]. unfold upsert. simpl.
  destruct (lookup k' t) as [p'|] eqn:Hk'.
  - rewrite lookup_mutate. destruct (seq_eqb k' k) eqn:E; [|reflexivity].
    seq_eqb_prop. subst k'. rewrite Hk'. reflexivity.
  - rewrite lookup_insert. destruct (seq_eqb k' k) eqn:E; [|reflexivity].
    seq_eqb_prop. subst k'. rewrite Hk'. reflexivity.
Qed.

(** The starting indices at which the windows [es] hold the key. *)
Definition hits (k : key) (es : list (key * nat)) : list nat :=
  map snd (filter (fun e => seq_eqb (fst e) k) es).

Lemma lookup_fold_upsert (k : key) (es : list (key * nat)) (t : table num) :
  lookup k (fold_left upsert es t) = fold_left (occur k) (hits k es) (lookup k t).
Proof.
  revert t. induction es as [|e es IH]; intro t; simpl; [reflexivity|].
  rewrite IH, lookup_upsert. unfold hits. destruct e as [k' i]. simpl.
  destruct (seq_eqb k' k); simpl; reflexivity.
Qed.

Definition prior_frequency (entry : option (Pattern num)) : nat :=
  match entry with Some p => frequency p | None => 0 end.

Definition prior_lastSeen (entry : option (Pattern num)) : nat :=
  match entry with Some p => lastSeen p | None => 0 end.

Definition prior_sequence (k : key) (entry : option (Pattern num)) : key :=
  match entry with Some p => sequence p | None => k end.

Lemma last_cons {A} (x d : A) (l : list A) : last (x :: l) d = last l x.
Proof.
  revert x d. induction l as [|y l IH]; intros x d; [reflexivity|].
  change (last (x :: y :: l) d) with (last (y :: l) d).
  rewrite (IH y d), (IH y x). reflexivity.
Qed.

Lemma occur_fields (k : key) (idxs : list nat) (entry : option (Pattern num))
      (p : Pattern num) :
  fold_left (occur k) idxs entry = Some p ->
  frequency p = prior_frequency entry + length idxs
  /\ lastSeen p = last idxs (prior_lastSeen entry)
  /\ sequence p = prior_sequence k entry
  /\ (entry = None -> idxs <> []).
Proof.
  revert entry. induction idxs as [|i idxs IH]; intros entry Hp.
  - simpl in Hp. subst entry. simpl. repeat split; try lia. discriminate.
  - simpl in Hp. apply IH in Hp. destruct Hp as (Hf & Hl & Hs & _).
    rewrite last_cons.
    destruct entry as [q|]; simpl in *; repeat split; try lia; try assumption;
      discriminate.
Qed.

(** *** The occurrences of a sequence in the corpus *)

(** The starting indices, in increasing order, at which [k] occurs in
    [digits] as a contiguous subsequence. *)
Definition occurrences (k : key) (digits : list digit) : list nat :=
  filter (fun i => seq_eqb (slice i (i + length k) digits) k)
         (seq 0 (length digits + 1 - length k)).

(** The occurrences [train] counts: those of sequences of a window size. *)
Definition counted_occurrences (k : key) (digits : list digit) : list nat :=
  if existsb (Nat.eqb (length k)) windowSizes then occurrences k digits else [].

Lemma hits_app (k : key) (a b : list (key * nat)) :
  hits k (a ++ b) = hits k a ++ hits k b.
Proof. unfold hits. rewrite filter_app, map_app. reflexivity. Qed.

Lemma hits_tagged (k : key) (g : nat -> key) (l : list nat) :
  hits k (map (fun i => (g i, i)) l) = filter (fun i => seq_eqb (g i) k) l.
Proof.
  unfold hits. induction l as [|i l IH]; simpl; [reflexivity|].
  destruct (seq_eqb (g i) k); simpl; rewrite IH; reflexivity.
Qed.

Lemma filter_none {A} (f : A -> bool) (l : list A) :
  (forall x, In x l -> f x = false) -> filter f l = [].
Proof.
  induction l as [|x l IH]; intro Hf; simpl; [reflexivity|].
  rewrite (Hf x) by (left; reflexivity).
  apply IH. intros y Hy. apply Hf. right. exact Hy.
Qed.

Lemma hits_windows_of (k : key) (digits : list digit) (w : nat) :
  hits k (windows_of digits w)
  = if (w =? length k)%nat then occurrences k digits else [].
Proof.
  unfold windows_of. rewrite hits_tagged.
  destruct (w =? length k)%nat eqn:E.
  - apply Nat.eqb_eq in E. subst w. reflexivity.
  - apply Nat.eqb_neq in E. apply filter_none. intros i Hi.
    apply in_seq in Hi. apply seq_eqb_neq. intro Hk. apply E.
    rewrite <- Hk, slice_length by lia. lia.
Qed.

Lemma hits_windows (k : key) (digits : list digit) :
  hits k (windows digits) = counted_occurrences k digits.
Proof.
  unfold windows, counted_occurrences, windowSizes. simpl flat_map.
  rewrite !hits_app, !hits_windows_of. unfold hits. simpl filter. simpl map.
  destruct (length k) as [|[|[|[|[|[|n]]]]]]; simpl; rewrite ?app_nil_r; reflexivity.
Qed.

Lemma lookup_map_values (k : key) (f : Pattern num -> Pattern num) (t : table num) :
  lookup k (map (fun e => (fst e, f (snd e))) t) = option_map f (lookup k t).
Proof.
  induction t as [|[k0 p0] t IH]; simpl; [reflexivity|].
  destruct (seq_eqb k0 k); [reflexivity | exact IH].
Qed.

Lemma lookup_train (digits : list digit) (t : table num) (k : key) :
  lookup k (snd (train digits t))
  = option_map (rescore (length digits))
               (fold_left (occur k) (counted_occurrences k digits) (lookup k t)).
Proof.
  rewrite train_table, lookup_map_values, lookup_fold_upsert, hits_windows.
  reflexivity.
Qed.

(** *** [train] writes *)

Lemma total_frequency_upsert (t : table num) (e : key * nat) :
  total_frequency (upsert t e) = S (total_frequency t).
Proof.
  unfold upsert. destruct (lookup (fst e) t) as [p|] eqn:Hl.
  - apply total_frequency_mutate; [reflexivity | congruence].
  - rewrite total_frequency_insert_fresh by assumption. simpl. lia.
Qed.

Lemma total_frequency_fold_upsert (es : list (key * nat)) (t : table num) :
  total_frequency (fold_left upsert es t) = total_frequency t + length es.
Proof.
  revert t. induction es as [|e es IH]; intro t; simpl; [lia|].
  rewrite IH, total_frequency_upsert. lia.
Qed.

Lemma total_frequency_map_values (f : Pattern num -> Pattern num) (t : table num) :
  (forall p, frequency (f p) = frequency p) ->
  total_frequency (map (fun e => (fst e, f (snd e))) t) = total_frequency t.
Proof.
  intro Hf. induction t as [|[k p] t IH]; simpl; [reflexivity|].
  rewrite Hf, IH. reflexivity.
Qed.

Lemma total_frequency_train (digits : list digit) (t : table num) :
  total_frequency (snd (train digits t)) = total_frequency t + length (windows digits).
Proof.
  rewrite train_table, total_frequency_map_values by reflexivity.
  apply total_frequency_fold_upsert.
Qed.

Lemma windows_nonempty (digits : list digit) :
  2 <= length digits -> 1 <= length (windows digits).
Proof.
  intro Hlen. unfold windows, windowSizes. simpl flat_map.
  rewrite length_app. unfold windows_of at 1. rewrite length_map, length_seq. lia.
Qed.

(** C3.  After [train(digits)] on a corpus of length [n], the pattern
    stored under any key has
    [confidence = (frequency / n * 1000) * 0.6 + (lastSeen / n * 100) * 0.4],
    which is [0.6 * (frequency / n * 1000) + 0.4 * (lastSeen / n * 100)]
    since multiplication commutes; [frequency] is the count the key had
    before the call plus the number of its occurrences in [digits], and
    [lastSeen] is the starting index of its last occurrence in [digits]
    (the value it had before the call when it does not occur). *)
Theorem train_confidence_invariant
        (digits : list digit) (t : table num) (k : key) (p : Pattern num) :
  lookup k (snd (train digits t)) = Some p ->
  let n := length digits in
  let occs := counted_occurrences k digits in
  confidence p
  = ((of_nat (frequency p) / of_nat n) * lit 1000 * lit 0.6
     + (of_nat (lastSeen p) / of_nat n) * lit 100 * lit 0.4)%js
  /\ ((forall a b : num, mul a b = mul b a) ->
      confidence p
      = (lit 0.6 * ((of_nat (frequency p) / of_nat n) * lit 1000)
         + lit 0.4 * ((of_nat (lastSeen p) / of_nat n) * lit 100))%js)
  /\ frequency p = prior_frequency (lookup k t) + length occs
  /\ lastSeen p = last occs (prior_lastSeen (lookup k t)).
Proof.
  intros Hp n occs. rewrite lookup_train in Hp.
  destruct (fold_left (occur k) (counted_occurrences k digits) (lookup k t))
    as [q|] eqn:Hq; [|discriminate].
  simpl in Hp. injection Hp as <-.
  apply occur_fields in Hq. destruct Hq as (Hf & Hl & _ & _).
  split; [reflexivity|]. split.
  - intro Hcomm. cbn [confidence rescore frequency lastSeen]. unfold score_confidence.
    rewrite (Hcomm (lit 0.6)), (Hcomm (lit 0.4)). reflexivity.
  - simpl. split; assumption.
Qed.

(** C10.  [detectPatterns] and [predictNext] leave the pattern table
    exactly as it was, whatever their arguments and whatever the table;
    [train] does not: on a corpus of two digits or more it changes it. *)
Theorem queries_leave_the_table_unchanged
        (recentDigits : list digit) (minConfidence : num) (t : table num) :
  snd (detectPatterns recentDigits minConfidence t) = t
  /\ snd (predictNext recentDigits t) = t
  /\ (forall digits, 2 <= length digits -> snd (train digits t) <> t).
Proof.
  split; [apply detectPatterns_reads_only|].
  split; [apply predictNext_reads_only|].
  intros digits Hlen Heq.
  pose proof (total_frequency_train digits t) as Hf. rewrite Heq in Hf.
  pose proof (windows_nonempty digits Hlen). lia.
Qed.

End RecognizerFacts.

Definition example_corpus : list digit := [D1; D2; D1; D2; D3].

Definition example_pattern : Pattern xnum :=
  {| sequence := [D1; D2];
     frequency := 2;
     confidence := Fin 256;
     lastSeen := 2;
     successRate := Fin 0 |}.

Lemma train_confidence_invariant_witness :
  confidence example_pattern
  = ((of_nat 2 / of_nat 5) * lit 1000 * lit 0.6
     + (of_nat 2 / of_nat 5) * lit 100 * lit 0.4)%js
  /\ ((forall a b : xnum, mul a b = mul b a) ->
      confidence example_pattern
      = (lit 0.6 * ((of_nat 2 / of_nat 5) * lit 1000)
         + lit 0.4 * ((of_nat 2 / of_nat 5) * lit 100))%js)
  /\ frequency example_pattern = 0 + 2
  /\ lastSeen example_pattern = 2.
Proof.
  exact (@train_confidence_invariant xnum _ example_corpus [] [D1; D2] example_pattern eq_refl).
Defined.

(* ================================================================= *)
(** * Properties of the anomaly detector *)

Lemma StronglySorted_weaken {A} (R S : A -> A -> Prop) (l : list A) :
  (forall a b, R a b -> S a b) -> StronglySorted R l -> StronglySorted S l.
Proof.
  intro HRS. induction 1 as [|x l Hl IH Hx]; constructor; [exact IH|].
  revert Hx. apply Forall_impl. intro b. apply HRS.
Qed.

Definition severity_eqb (a b : Anomaly.Severity) : bool :=
  (Anomaly.severityOrder a =? Anomaly.severityOrder b)%Z.

Section DetectorFacts.

Context {num : Type} `{Number num} `{MathPow num} `{MathSqrt num}.

Definition rank (a : Anomaly.t num) : Z :=
  Anomaly.severityOrder (Anomaly.severity a).

Definition has_severity (s : Anomaly.Severity) (a : Anomaly.t num) : bool :=
  severity_eqb (Anomaly.severity a) s.

Lemma bySeverity_after (a b : Anomaly.t num) :
  (Detector.bySeverity a b >? 0)%Z = false <-> (rank a >= rank b)%Z.
Proof.
  unfold Detector.bySeverity, rank.
  destruct (Z.gtb_spec
              (Anomaly.severityOrder (Anomaly.severity b)
               - Anomaly.severityOrder (Anomaly.severity a)) 0);
    split; intros; try discriminate; try reflexivity; lia.
Qed.

(** C6.  The list [detect] returns is in descending severity rank
    (critical 4, high 3, medium 2, low 1): no medium anomaly stands before
    a critical or a high one, the anomalies of each severity are in the
    order the checks produced them, and nothing is lost or added. *)
Theorem detect_sorted_by_severity
        (this : Detector.AnomalyDetector num) (recentDigits : list digit) :
  let result := Detector.detect this recentDigits in
  StronglySorted (fun a b => (rank a >= rank b)%Z) result
  /\ (forall i j a b,
         i < j -> nth_error result i = Some a -> nth_error result j = Some b ->
         Anomaly.severity a = Anomaly.medium ->
         Anomaly.severity b <> Anomaly.critical /\ Anomaly.severity b <> Anomaly.high)
  /\ (forall s,
         filter (has_severity s) result
         = filter (has_severity s) (Detector.detected this recentDigits))
  /\ Permutation result (Detector.detected this recentDigits).
Proof.
  intro result.
  assert (Hsorted : StronglySorted (fun a b => (rank a >= rank b)%Z) result).
  { apply StronglySorted_weaken
      with (R := may_precede (fun a b => (Detector.bySeverity a b >? 0)%Z)).
    - intros a b. apply bySeverity_after.
    - apply Array_sort_sorted with (ok := fun _ => True).
      + intros x y _ _ Hxy. apply bySeverity_after.
        apply Z.gtb_lt in Hxy. unfold Detector.bySeverity, rank in *. lia.
      + intros x y z _ _ _ Hxy Hyz. apply bySeverity_after.
        apply bySeverity_after in Hxy, Hyz. lia.
      + apply Forall_forall. intros; exact I. }
  split; [exact Hsorted|].
  split; [|split].
  - intros i j a b Hij Ha Hb Hmed.
    pose proof (StronglySorted_nth Hsorted Hij Ha Hb) as Hab.
    unfold rank in Hab. rewrite Hmed in Hab.
    split; intro Hsev; rewrite Hsev in Hab; simpl in Hab; lia.
  - intro s. apply Array_sort_filter with (ok := fun _ => True).
    + intros x y _ _ Hx Hy. apply bySeverity_after.
      unfold has_severity, severity_eqb in Hx, Hy.
      apply Z.eqb_eq in Hx, Hy. unfold rank. lia.
    + apply Forall_forall. intros; exact I.
  - apply Array_sort_perm.
Qed.

End DetectorFacts.

(* ================================================================= *)
(** * Properties of the predictor *)

Lemma digit_to_nat_lt (d : digit) : digit_to_nat d < 10.
Proof. destruct d; simpl; lia. Qed.

Lemma update_nth_length {A} (i : nat) (f : A -> A) (a : list A) :
  length (update_nth i f a) = length a.
Proof.
  revert i. induction a as [|x a IH]; intros [|i]; simpl; try reflexivity.
  rewrite IH. reflexivity.
Qed.

Lemma mapi_length {A B} (f : nat -> A -> B) (a : list A) :
  length (mapi f a) = length a.
Proof.
  unfold mapi. rewrite length_map, length_combine, length_seq. lia.
Qed.

Lemma last_error_app {A} (a : list A) (x : A) : last_error (a ++ [x]) = Some x.
Proof.
  unfold last_error. rewrite length_app. simpl.
  rewrite nth_error_app2 by lia.
  replace (length a + 1 - 1 - length a) with 0 by lia. reflexivity.
Qed.

Lemma last_error_nonempty {A} (a : list A) :
  a <> [] -> exists x, last_error a = Some x.
Proof.
  intro Ha. destruct (exists_last Ha) as (a' & x & ->).
  exists x. apply last_error_app.
Qed.

Section PredictorFacts.

Context {num : Type} `{Number num} `{MathPow num}.

(** The predictors the constructor builds have a row for every digit. *)
Definition well_formed (this : MultiStepPredictor num) : Prop :=
  length (markovChain this) = 10.

Lemma matrix_add_length (from to : digit) (w : num) (m : matrix num) :
  length (matrix_add from to w m) = length m.
Proof. apply update_nth_length. Qed.

Lemma count_transitions_length (digits : list digit) :
  length (fst (count_transitions digits)) = 10
  /\ length (snd (count_transitions digits)) = 10.
Proof.
  unfold count_transitions.
  set (body := fun (acc : matrix num * matrix num) (i : nat) => _).
  assert (Hfold : forall indices acc,
             length (fst acc) = 10 /\ length (snd acc) = 10 ->
             length (fst (fold_left body indices acc)) = 10
             /\ length (snd (fold_left body indices acc)) = 10).
  { induction indices as [|i indices IH]; intros acc Hacc; simpl; [exact Hacc|].
    apply IH. subst body. simpl. destruct acc as [tr nw].
    destruct (nth_error digits i); [|exact Hacc].
    destruct (nth_error digits (i + 1)); [|exact Hacc].
    simpl in *. rewrite !matrix_add_length. exact Hacc. }
  apply Hfold. split; reflexivity.
Qed.

Lemma buildEnhancedMarkov_length (digits : list digit) :
  length (buildEnhancedMarkov digits) = 10.
Proof.
  unfold buildEnhancedMarkov.
  pose proof (count_transitions_length digits) as [Ht _].
  destruct (count_transitions digits) as [tr nw]. simpl in Ht.
  rewrite mapi_length. exact Ht.
Qed.

Lemma new_MultiStepPredictor_well_formed (historicalDigits : list digit) :
  well_formed (new_MultiStepPredictor historicalDigits).
Proof. apply buildEnhancedMarkov_length. Qed.

Lemma ensemble_length (this : MultiStepPredictor num) (row : list num)
      (currentDigits : list digit) :
  length (ensemble this row currentDigits) = 10.
Proof. unfold ensemble. rewrite length_map. reflexivity. Qed.

Lemma predict_step_total (this : MultiStepPredictor num) (step : nat)
      (currentDigits : list digit) :
  well_formed this -> currentDigits <> [] ->
  exists p, predict_step this step currentDigits = Some p
            /\ MultiStepPrediction.step p = step.
Proof.
  intros Hwf Hcur. unfold predict_step.
  destruct (last_error_nonempty Hcur) as [lastDigit ->].
  destruct (nth_error (markovChain this) (digit_to_nat lastDigit)) as [row|] eqn:Hrow.
  2:{ apply nth_error_None in Hrow. pose proof (digit_to_nat_lt lastDigit).
      unfold well_formed in Hwf. lia. }
  pose proof (Array_sort_length
                (fun a b : digit * num => lt (lit 0) (sub (snd b) (snd a)))
                (ensemble this row currentDigits)) as Hlen.
  rewrite ensemble_length in Hlen.
  destruct (Array_sort _ (ensemble this row currentDigits)) as [|[d sc] rest];
    [discriminate|].
  eexists. split; reflexivity.
Qed.

(** The invariant of the loop of [predictNextN]. *)
Lemma predict_loop_spec (this : MultiStepPredictor num) :
  well_formed this ->
  forall remaining step predictions currentDigits,
    currentDigits <> [] ->
    exists emitted,
      predict_loop this remaining step predictions currentDigits
      = Some (predictions ++ emitted)
      /\ length emitted <= remaining
      /\ (1 <= remaining -> emitted <> [])
      /\ map (@MultiStepPrediction.step num) emitted = seq step (length emitted)
      /\ (forall k p,
             nth_error emitted k = Some p ->
             MultiStepPrediction.confidence p = MultiStepPrediction.low ->
             3 <= step + k ->
             length emitted = S k).
Proof.
  intro Hwf. induction remaining as [|remaining IH];
    intros step predictions currentDigits Hcur.
  - exists []. simpl. rewrite app_nil_r.
    split; [reflexivity|]. split; [lia|]. split; [lia|]. split; [reflexivity|].
    intros [|k] p Hk; discriminate.
  - cbn [predict_loop].
    destruct (predict_step_total step Hwf Hcur) as (p & -> & Hstep).
    destruct (MultiStepPrediction.is_low (MultiStepPrediction.confidence p)
              && (3 <=? step)) eqn:Hbreak.
    + exists [p]. cbn [map length seq]. rewrite Hstep.
      split; [reflexivity|]. split; [lia|]. split; [intros _; discriminate|].
      split; [reflexivity|].
      intros [|[|k]] q Hk; try discriminate. reflexivity.
    + assert (Hcur' : currentDigits ++ [MultiStepPrediction.digit p] <> [])
        by (intro Hnil; apply app_eq_nil in Hnil; destruct Hnil; discriminate).
      destruct (IH (S step) (predictions ++ [p]) _ Hcur')
        as (emitted & -> & Hlen & _ & Hsteps & Hlow).
      exists (p :: emitted). rewrite <- app_assoc.
      cbn [map length seq app]. rewrite Hstep, Hsteps.
      split; [reflexivity|]. split; [lia|]. split; [intros _; discriminate|].
      split; [reflexivity|].
      intros [|k] q Hk Hq Hge; simpl in Hk.
      * injection Hk as <-. rewrite Hq in Hbreak.
        cbn [MultiStepPrediction.is_low andb] in Hbreak.
        apply Nat.leb_gt in Hbreak. lia.
      * f_equal. apply (Hlow k q); [assumption | assumption | lia].
Qed.

Lemma predictNextN_spec (this : MultiStepPredictor num)
      (recentDigits : list digit) (steps : Z) :
  well_formed this -> recentDigits <> [] ->
  exists predictions,
    predictNextN this recentDigits steps = Some predictions
    /\ length predictions <= Z.to_nat steps
    /\ ((1 <= steps)%Z -> predictions <> [])
    /\ map (@MultiStepPrediction.step num) predictions = seq 1 (length predictions)
    /\ (forall k p,
           nth_error predictions k = Some p ->
           MultiStepPrediction.confidence p = MultiStepPrediction.low ->
           2 <= k ->
           length predictions = S k).
Proof.
  intros Hwf Hrecent. unfold predictNextN.
  destruct (predict_loop_spec Hwf (Z.to_nat steps) 1 [] Hrecent)
    as (emitted & Heq & Hlen & Hne & Hsteps & Hlow).
  exists emitted. simpl in Heq.
  split; [exact Heq|]. split; [exact Hlen|]. split; [|split; [exact Hsteps|]].
  - intro Hs. apply Hne. lia.
  - intros k p Hk Hp Hge. apply (Hlow k p); [assumption | assumption | lia].
Qed.

(** The predictions are numbered by their position. *)
Lemma steps_by_position (predictions : list (MultiStepPrediction.t num)) :
  map (@MultiStepPrediction.step num) predictions = seq 1 (length predictions) ->
  forall k p, nth_error predictions k = Some p -> MultiStepPrediction.step p = S k.
Proof.
  intros Hsteps k p Hk.
  pose proof (map_nth_error (@MultiStepPrediction.step num) k predictions Hk) as Hm.
  rewrite Hsteps in Hm.
  assert (Hlt : k < length predictions) by (apply nth_error_Some; congruence).
  rewrite nth_error_nth' with (d := 0) in Hm by (rewrite length_seq; exact Hlt).
  rewrite seq_nth in Hm by exact Hlt. injection Hm as <-. reflexivity.
Qed.

(** C1.  On a non-empty [recentDigits], [predictNextN] returns; if the
    confidence of its third prediction (step 3) is low the list has at
    most 3 predictions, whatever [steps] asks for; and a prediction of low
    confidence at step 3 or later is the last one. *)
Theorem early_exit_law (history recentDigits : list digit) (steps : Z) :
  recentDigits <> [] ->
  exists predictions,
    predictNextN (new_MultiStepPredictor history) recentDigits steps = Some predictions
    /\ (forall p,
           nth_error predictions 2 = Some p ->
           MultiStepPrediction.confidence p = MultiStepPrediction.low ->
           length predictions <= 3)
    /\ (forall k p,
           nth_error predictions k = Some p ->
           3 <= MultiStepPrediction.step p ->
           MultiStepPrediction.confidence p = MultiStepPrediction.low ->
           length predictions = MultiStepPrediction.step p).
Proof.
  intro Hrecent.
  destruct (predictNextN_spec steps (new_MultiStepPredictor_well_formed history) Hrecent)
    as (predictions & Heq & _ & _ & Hsteps & Hlow).
  exists predictions. split; [exact Heq|].
  pose proof (steps_by_position predictions Hsteps) as Hstep.
  split.
  - intros p Hp Hlowp. rewrite (Hlow 2 p Hp Hlowp); lia.
  - intros k p Hk Hge Hlowp. rewrite (Hstep k p Hk) in *.
    apply (Hlow k p Hk Hlowp). lia.
Qed.

(** On the history of a scored index the predictor answers with a
    prediction. *)
Lemma predictNextN_on_scored_history (this : MultiStepPredictor num)
      (testData : list digit) (i : nat) :
  well_formed this -> In i (scored_indices testData) ->
  exists p rest, predictNextN this (slice 0 i testData) 1 = Some (p :: rest).
Proof.
  intros Hwf Hi. unfold scored_indices in Hi. apply in_seq in Hi.
  assert (Hne : slice 0 i testData <> []).
  { intro Hnil. apply (f_equal (@length digit)) in Hnil.
    rewrite slice_length in Hnil by lia. simpl in Hnil. lia. }
  destruct (predictNextN_spec 1 Hwf Hne) as (predictions & -> & _ & Hnonempty & _).
  destruct predictions as [|p rest]; [exfalso; apply Hnonempty; [lia | reflexivity]|].
  exists p, rest. reflexivity.
Qed.

(** C9.  On a non-empty sequence of digits and for [steps >= 1],
    [predictNextN] returns at least one prediction; every prediction holds
    a digit 0..9 and the steps are 1, 2, 3, ... in order.  So in [backtest]
    the predictor answers every scored index with a prediction, and the
    iteration is settled, never skipped. *)
Theorem predictNextN_answers (history recentDigits : list digit) (steps : Z) :
  recentDigits <> [] -> (1 <= steps)%Z ->
  let predictor := new_MultiStepPredictor history in
  (exists predictions,
      predictNextN predictor recentDigits steps = Some predictions
      /\ predictions <> []
      /\ (forall p, In p predictions -> digit_to_nat (MultiStepPrediction.digit p) < 10)
      /\ map (@MultiStepPrediction.step num) predictions = seq 1 (length predictions))
  /\ (forall testData strategy tally i,
         In i (scored_indices testData) ->
         exists p rest,
           predictNextN predictor (slice 0 i testData) 1 = Some (p :: rest)
           /\ backtest_step (predictNextN predictor) testData strategy tally i
              = Some (settle strategy (MultiStepPrediction.digit p)
                             (nth_error testData i) tally)).
Proof.
  intros Hrecent Hsteps predictor. subst predictor.
  pose proof (new_MultiStepPredictor_well_formed history) as Hwf.
  split.
  - destruct (predictNextN_spec steps Hwf Hrecent)
      as (predictions & Heq & _ & Hne & Hnum & _).
    exists predictions. split; [exact Heq|]. split; [exact (Hne Hsteps)|].
    split; [|exact Hnum]. intros p _. apply digit_to_nat_lt.
  - intros testData strategy tally i Hi.
    destruct (predictNextN_on_scored_history testData i Hwf Hi) as (p & rest & Hp).
    exists p, rest. split; [exact Hp|].
    unfold backtest_step. rewrite Hp. reflexivity.
Qed.

End PredictorFacts.

(* ================================================================= *)
(** * Properties of the backtest *)

Section BacktestFacts.

Context {num : Type} `{Number num}.

Variable predictor : list digit -> Z -> option (list (MultiStepPrediction.t num)).
Variable testData : list digit.
Variable strategy : Strategy.

(** Whether the strategy wins on [predicted] against [actual]. *)
Definition wins (predicted : digit) (actual : option digit) : bool :=
  match strategy with
  | Match => same_digit predicted actual
  | Differ => negb (same_digit predicted actual)
  end.

(** The outcome of the iteration [i]: the history is [testData[0..i)], the
    ground truth [testData[i]]; no outcome when the predictor returns no
    prediction. *)
Definition outcome (i : nat) : option bool :=
  match predictor (slice 0 i testData) 1%Z with
  | Some (p :: _) => Some (wins (MultiStepPrediction.digit p) (nth_error testData i))
  | _ => None
  end.

Definition is_hit (i : nat) : bool :=
  match outcome i with Some true => true | _ => false end.

Definition is_miss (i : nat) : bool :=
  match outcome i with Some false => true | _ => false end.

Lemma settle_counts (predicted : digit) (actual : option digit) (t : Tally num) :
  let t' := settle strategy predicted actual t in
  tally_truePositives t'
  = tally_truePositives t + (if wins predicted actual then 1 else 0)
  /\ tally_falsePositives t'
     = tally_falsePositives t + (if wins predicted actual then 0 else 1).
Proof.
  unfold settle, wins. destruct strategy; destruct (same_digit predicted actual);
    simpl; lia.
Qed.

Lemma backtest_loop_counts (indices : list nat) (t t' : Tally num) :
  backtest_loop predictor testData strategy indices t = Some t' ->
  tally_truePositives t' = tally_truePositives t + length (filter is_hit indices)
  /\ tally_falsePositives t' = tally_falsePositives t + length (filter is_miss indices).
Proof.
  revert t. induction indices as [|i indices IH]; intros t Hloop; simpl in Hloop.
  - injection Hloop as <-. simpl. lia.
  - destruct (backtest_step predictor testData strategy t i) as [t1|] eqn:Hstep;
      [|discriminate].
    apply IH in Hloop. destruct Hloop as [Htp Hfp].
    rewrite Htp, Hfp. clear Htp Hfp IH.
    unfold backtest_step in Hstep. cbn [filter].
    assert (Hhit : is_hit i = match outcome i with Some true => true | _ => false end)
      by reflexivity.
    assert (Hmiss : is_miss i = match outcome i with Some false => true | _ => false end)
      by reflexivity.
    unfold outcome in Hhit, Hmiss.
    destruct (predictor (slice 0 i testData) 1%Z) as [[|p rest]|]; [| |discriminate].
    + injection Hstep as <-. rewrite Hhit, Hmiss. lia.
    + injection Hstep as <-.
      pose proof (settle_counts (MultiStepPrediction.digit p) (nth_error testData i) t)
        as [Htp1 Hfp1].
      cbv zeta in Htp1, Hfp1. rewrite Htp1, Hfp1, Hhit, Hmiss.
      destruct (wins (MultiStepPrediction.digit p) (nth_error testData i));
        cbn [length]; lia.
Qed.

Lemma backtest_loop_throws (indices : list nat) (t : Tally num) :
  backtest_loop predictor testData strategy indices t = None ->
  exists i, In i indices /\ predictor (slice 0 i testData) 1%Z = None.
Proof.
  revert t. induction indices as [|i indices IH]; intros t Hloop; simpl in Hloop.
  - discriminate.
  - destruct (backtest_step predictor testData strategy t i) as [t1|] eqn:Hstep.
    + destruct (IH _ Hloop) as (j & Hj & Hnone). exists j. split; [right|]; assumption.
    + exists i. split; [left; reflexivity|].
      unfold backtest_step in Hstep.
      destruct (predictor (slice 0 i testData) 1%Z) as [[|p rest]|];
        [discriminate | discriminate | reflexivity].
Qed.

Lemma backtest_loop_ext
      (predictor' : list digit -> Z -> option (list (MultiStepPrediction.t num)))
      (indices : list nat) (t : Tally num) :
  (forall i, In i indices ->
             predictor' (slice 0 i testData) 1%Z = predictor (slice 0 i testData) 1%Z) ->
  backtest_loop predictor' testData strategy indices t
  = backtest_loop predictor testData strategy indices t.
Proof.
  revert t. induction indices as [|i indices IH]; intros t Hagree; simpl; [reflexivity|].
  unfold backtest_step. rewrite (Hagree i) by (left; reflexivity).
  destruct (predictor (slice 0 i testData) 1%Z) as [[|p rest]|]; try reflexivity;
    apply IH; intros j Hj; apply Hagree; right; exact Hj.
Qed.

Lemma scored_indices_spec (i : nat) :
  In i (scored_indices testData) <-> 50 <= i /\ i + 2 <= length testData.
Proof. unfold scored_indices. rewrite in_seq. lia. Qed.

Lemma backtest_loop_returns `{MathPow num} (this : MultiStepPredictor num)
      (indices : list nat) (t : Tally num) :
  well_formed this ->
  (forall i, In i indices -> In i (scored_indices testData)) ->
  exists t', backtest_loop (predictNextN this) testData strategy indices t = Some t'.
Proof.
  intros Hwf. revert t.
  induction indices as [|i indices IH]; intros t Hin; simpl; [eexists; reflexivity|].
  unfold backtest_step.
  destruct (predictNextN_on_scored_history testData i Hwf (Hin i (or_introl eq_refl)))
    as (p & rest & ->).
  apply IH. intros j Hj. apply Hin. right. exact Hj.
Qed.

(** C4.  [backtest] either returns a result or throws because the
    predictor threw on the history of a scored index; a [MultiStepPredictor]
    never does.  In a result [trueNegatives] and [falseNegatives] are 0, and
    the positives count the outcomes of the indices [i] with
    [50 <= i <= length - 2] only, each with [testData[0..i)] as history and
    [testData[i]] as ground truth: the result depends on nothing else the
    predictor would answer. *)
Theorem backtest_scoring `{MathPow num} :
  match backtest_with predictor testData strategy with
  | Some r =>
      trueNegatives r = 0 /\ falseNegatives r = 0
      /\ truePositives r = length (filter is_hit (scored_indices testData))
      /\ falsePositives r = length (filter is_miss (scored_indices testData))
  | None =>
      exists i, In i (scored_indices testData)
                /\ predictor (slice 0 i testData) 1%Z = None
  end
  /\ (forall i, In i (scored_indices testData) <-> 50 <= i /\ i + 2 <= length testData)
  /\ (forall predictor',
         (forall i, In i (scored_indices testData) ->
                    predictor' (slice 0 i testData) 1%Z
                    = predictor (slice 0 i testData) 1%Z) ->
         backtest_with predictor' testData strategy
         = backtest_with predictor testData strategy)
  /\ (forall history,
         exists r, backtest (new_MultiStepPredictor history) testData strategy = Some r).
Proof.
  split; [|split; [|split]].
  - unfold backtest_with.
    destruct (backtest_loop predictor testData strategy (scored_indices testData) _)
      as [t|] eqn:Hloop.
    + apply backtest_loop_counts in Hloop. simpl in *.
      destruct Hloop as [Htp Hfp]. repeat split; assumption.
    + apply backtest_loop_throws in Hloop. exact Hloop.
  - apply scored_indices_spec.
  - intros predictor' Hagree. unfold backtest_with.
    rewrite backtest_loop_ext by exact Hagree. reflexivity.
  - intro history. unfold backtest, backtest_with.
    destruct (backtest_loop_returns
                (scored_indices testData)
                {| tally_truePositives := 0;
                   tally_falsePositives := 0;
                   tally_profitLoss := lit 0 |}
                (new_MultiStepPredictor_well_formed history)
                (fun i Hi => Hi)) as [t' ->].
    eexists. reflexivity.
Qed.

End BacktestFacts.

(* ================================================================= *)
(** * Instances of the theorems above *)

(** A predictor with no history scores every digit below 50: the loop
    stops after step 3 although 5 steps are asked for. *)
Example early_exit_example :
  option_map (@length _)
             (predictNextN (num := float) (new_MultiStepPredictor []) [D1; D2] 5)
  = Some 3.
Proof. vm_compute. reflexivity. Qed.

Lemma early_exit_law_witness :
  exists predictions,
    predictNextN (num := float) (new_MultiStepPredictor []) [D1; D2] 5 = Some predictions
    /\ (forall p,
           nth_error predictions 2 = Some p ->
           MultiStepPrediction.confidence p = MultiStepPrediction.low ->
           length predictions <= 3)
    /\ (forall k p,
           nth_error predictions k = Some p ->
           3 <= MultiStepPrediction.step p ->
           MultiStepPrediction.confidence p = MultiStepPrediction.low ->
           length predictions = MultiStepPrediction.step p).
Proof.
  apply (@early_exit_law float _ _ [] [D1; D2] 5%Z). discriminate.
Defined.

Lemma predictNextN_answers_witness :
  (exists predictions,
      predictNextN (num := float) (new_MultiStepPredictor [D1; D2; D3]) [D1; D2] 2
      = Some predictions
      /\ predictions <> []
      /\ (forall p, In p predictions -> digit_to_nat (MultiStepPrediction.digit p) < 10)
      /\ map (@MultiStepPrediction.step float) predictions = seq 1 (length predictions))
  /\ (forall testData strategy (tally : Tally float) i,
         In i (scored_indices testData) ->
         exists p rest,
           predictNextN (num := float) (new_MultiStepPredictor [D1; D2; D3])
                        (slice 0 i testData) 1
           = Some (p :: rest)
           /\ backtest_step (predictNextN (new_MultiStepPredictor [D1; D2; D3]))
                            testData strategy tally i
              = Some (settle strategy (MultiStepPrediction.digit p)
                             (nth_error testData i) tally)).
Proof.
  apply (@predictNextN_answers float _ _ [D1; D2; D3] [D1; D2] 2%Z).
  - discriminate.
  - lia.
Defined.

(* ================================================================= *)
(** * Exact arithmetic: finite values *)

Local Open Scope Q_scope.

(** The rational a finite value holds (0 for the others). *)
Definition val (x : xnum) : Q :=
  match x with
  | Fin q => q
  | _ => 0
  end.

(** A finite value in lowest terms: every finite result of the arithmetic
    is one, so two of them are the same value exactly when their rationals
    are equal. *)
Definition exact (x : xnum) : Prop :=
  match x with
  | Fin q => Qred q = q
  | _ => False
  end.

Lemma exact_fin (q : Q) : exact (X.fin q).
Proof. apply Qred_complete, Qred_correct. Qed.

Lemma val_fin (q : Q) : val (X.fin q) == q.
Proof. apply Qred_correct. Qed.

Lemma exact_eq (x y : xnum) : exact x -> exact y -> val x == val y -> x = y.
Proof.
  destruct x as [p| | |], y as [q| | |]; simpl; try contradiction.
  intros Hp Hq Hpq. rewrite <- Hp, <- Hq. f_equal. apply Qred_complete. exact Hpq.
Qed.

Lemma exact_is_fin (x : xnum) : exact x -> x = Fin (val x).
Proof. destruct x; simpl; try contradiction. reflexivity. Qed.

Lemma is_zero_iff (q : Q) : X.is_zero q = true <-> q == 0.
Proof.
  unfold X.is_zero, Qeq. simpl. rewrite Z.eqb_eq, Z.mul_1_r. reflexivity.
Qed.

Lemma is_zero_false (q : Q) : X.is_zero q = false <-> ~ q == 0.
Proof.
  rewrite <- is_zero_iff. destruct (X.is_zero q); split; congruence.
Qed.

Lemma add_fin (p q : Q) : add (Fin p) (Fin q) = X.fin (p + q).
Proof. reflexivity. Qed.

Lemma sub_fin (p q : Q) : sub (Fin p) (Fin q) = X.fin (p + Qred (- q)).
Proof. reflexivity. Qed.

Lemma mul_fin (p q : Q) : mul (Fin p) (Fin q) = X.fin (p * q).
Proof. reflexivity. Qed.

Lemma div_fin (p q : Q) :
  X.is_zero q = false -> div (Fin p) (Fin q) = X.fin (p / q).
Proof. intro Hq. cbn [div xnum_Number X.div]. rewrite Hq. reflexivity. Qed.

Lemma lt_fin (p q : Q) :
  lt (Fin p) (Fin q) = match p ?= q with Lt => true | _ => false end.
Proof. reflexivity. Qed.

Lemma strict_eq_fin (p q : Q) : strict_eq (Fin p) (Fin q) = Qeq_bool p q.
Proof. reflexivity. Qed.

Lemma min_fin (p q : Q) :
  Math_min (Fin p) (Fin q) = if lt (Fin q) (Fin p) then Fin q else Fin p.
Proof. reflexivity. Qed.

Section ExactOps.

Variables x y : xnum.
Hypothesis Hx : exact x.
Hypothesis Hy : exact y.

Lemma exact_add : exact (add x y) /\ val (add x y) == val x + val y.
Proof.
  rewrite (exact_is_fin x Hx), (exact_is_fin y Hy), add_fin.
  split; [apply exact_fin | apply val_fin].
Qed.

Lemma exact_sub : exact (sub x y) /\ val (sub x y) == val x - val y.
Proof.
  rewrite (exact_is_fin x Hx), (exact_is_fin y Hy), sub_fin.
  split; [apply exact_fin|]. rewrite val_fin, Qred_correct. reflexivity.
Qed.

Lemma exact_mul : exact (mul x y) /\ val (mul x y) == val x * val y.
Proof.
  rewrite (exact_is_fin x Hx), (exact_is_fin y Hy), mul_fin.
  split; [apply exact_fin | apply val_fin].
Qed.

Lemma exact_div :
  ~ val y == 0 -> exact (div x y) /\ val (div x y) == val x / val y.
Proof.
  intro Hnz. apply is_zero_false in Hnz.
  rewrite (exact_is_fin x Hx), (exact_is_fin y Hy), div_fin by exact Hnz.
  split; [apply exact_fin | apply val_fin].
Qed.

Lemma lt_iff : lt x y = true <-> val x < val y.
Proof.
  rewrite (exact_is_fin x Hx), (exact_is_fin y Hy), lt_fin. cbn [val].
  rewrite Qlt_alt. destruct (val x ?= val y); split; congruence.
Qed.

Lemma lt_false_iff : lt x y = false <-> val y <= val x.
Proof.
  pose proof lt_iff as Hlt. split.
  - intro Hf. apply Qnot_lt_le. intro Hc. apply Hlt in Hc. congruence.
  - intro Hle. apply not_true_iff_false. intro E.
    apply Hlt in E. apply Qlt_not_le in E. contradiction.
Qed.

Lemma strict_eq_iff : strict_eq x y = true <-> val x == val y.
Proof.
  rewrite (exact_is_fin x Hx), (exact_is_fin y Hy), strict_eq_fin. cbn [val].
  apply Qeq_bool_iff.
Qed.

Lemma le_iff : le x y = true <-> val x <= val y.
Proof.
  change (le x y) with (lt x y || strict_eq x y).
  rewrite orb_true_iff, lt_iff, strict_eq_iff, Qle_lteq. reflexivity.
Qed.

End ExactOps.

Arguments exact_add {x y}.
Arguments exact_sub {x y}.
Arguments exact_mul {x y}.
Arguments exact_div {x y}.
Arguments lt_iff {x y}.
Arguments lt_false_iff {x y}.
Arguments strict_eq_iff {x y}.
Arguments le_iff {x y}.

Lemma exact_min (x y : xnum) :
  exact x -> exact y ->
  exact (Math_min x y) /\ val (Math_min x y) <= val y.
Proof.
  intros Hx Hy.
  assert (Hmin : Math_min x y = if lt y x then y else x).
  { rewrite (exact_is_fin x Hx), (exact_is_fin y Hy). apply min_fin. }
  rewrite Hmin. destruct (lt y x) eqn:E.
  - split; [exact Hy | apply Qle_refl].
  - split; [exact Hx|]. apply (lt_false_iff Hy Hx). exact E.
Qed.

(** Multiplication commutes, on every value. *)
Lemma xnum_mul_comm (a b : xnum) : mul a b = mul b a.
Proof.
  destruct a as [p| | |], b as [q| | |]; try reflexivity.
  rewrite !mul_fin. unfold X.fin. f_equal. apply Qred_complete. ring.
Qed.

Lemma exact_lit (q : Q) : exact (lit q) /\ val (lit q) == q.
Proof. split; [apply exact_fin | apply val_fin]. Qed.

Lemma exact_of_nat (n : nat) :
  exact (of_nat n) /\ val (of_nat n) == inject_Z (Z.of_nat n).
Proof. split; [apply exact_fin | apply val_fin]. Qed.

Lemma of_nat_nonzero (n : nat) : n <> 0%nat -> ~ val (of_nat (num := xnum) n) == 0.
Proof.
  intros Hn Hz. rewrite (proj2 (exact_of_nat n)) in Hz.
  unfold Qeq in Hz. simpl in Hz. lia.
Qed.

Lemma or_zero_exact (x : xnum) : exact x -> or_zero x = x.
Proof.
  intro Hx. unfold or_zero. destruct (truthy x) eqn:Ht; [reflexivity|].
  apply exact_eq; [apply exact_fin | exact Hx|].
  rewrite val_fin. rewrite (exact_is_fin x Hx) in Ht.
  cbn [truthy xnum_Number X.truthy] in Ht.
  apply negb_false_iff, is_zero_iff in Ht. rewrite Ht. reflexivity.
Qed.

Fixpoint qpow (p : Q) (k : nat) : Q :=
  match k with
  | O => 1
  | S k' => p * qpow p k'
  end.

Lemma exact_pow (x : xnum) (k : nat) :
  exact x -> exact (Math_pow x k) /\ val (Math_pow x k) == qpow (val x) k.
Proof.
  intro Hx. induction k as [|k [IHe IHv]].
  - split; [apply exact_fin | apply val_fin].
  - change (Math_pow x (S k)) with (mul x (Math_pow x k)).
    destruct (exact_mul Hx IHe) as [He Hv].
    split; [exact He|]. rewrite Hv, IHv. reflexivity.
Qed.

Lemma qpow_pos (p : Q) (k : nat) : 0 < p -> 0 < qpow p k.
Proof.
  intro Hp. induction k; simpl; [reflexivity|].
  apply Qmult_lt_0_compat; assumption.
Qed.

(** Sums. *)
Definition Qsum (l : list Q) : Q := fold_right Qplus 0 l.

Lemma exact_fold_add (xs : list xnum) (acc : xnum) :
  Forall exact xs -> exact acc ->
  exact (fold_left add xs acc)
  /\ val (fold_left add xs acc) == val acc + Qsum (map val xs).
Proof.
  intro Hxs. revert acc. induction Hxs as [|x xs Hx Hxs IH]; intros acc Hacc; simpl.
  - split; [exact Hacc | ring].
  - destruct (exact_add Hacc Hx) as [He Hv].
    destruct (IH _ He) as [He' Hv'].
    split; [exact He'|]. rewrite Hv', Hv. ring.
Qed.

Lemma exact_sum (xs : list xnum) :
  Forall exact xs ->
  exact (sum_from_zero xs) /\ val (sum_from_zero xs) == Qsum (map val xs).
Proof.
  intro Hxs. unfold sum_from_zero.
  destruct (exact_fold_add (lit 0) Hxs (proj1 (exact_lit 0))) as [He Hv].
  split; [exact He|]. rewrite Hv, (proj2 (exact_lit 0)). ring.
Qed.

(* ================================================================= *)
(** * The fixed-payout scenario of the backtest *)

Section ConstantThree.

Context {num : Type} `{Number num}.

Variable predictor : list digit -> Z -> option (list (MultiStepPrediction.t num)).
Variable n : nat.

Let testData : list digit := repeat D3 n.

(** The predictor answers 3 on the history of the index [i]. *)
Definition predicts_three (i : nat) : Prop :=
  exists p rest,
    predictor (slice 0 i testData) 1%Z = Some (p :: rest)
    /\ MultiStepPrediction.digit p = D3.

Lemma constant_actual (i : nat) :
  In i (scored_indices testData) -> nth_error testData i = Some D3.
Proof.
  intro Hi. apply scored_indices_spec in Hi. subst testData.
  rewrite repeat_length in Hi. apply nth_error_repeat. lia.
Qed.

(** Every iteration wins: the tally after the iterations [indices]. *)
Lemma backtest_loop_all_wins (indices : list nat) (t : Tally num) :
  (forall i, In i indices -> In i (scored_indices testData) /\ predicts_three i) ->
  backtest_loop predictor testData Match indices t
  = Some {| tally_truePositives := (tally_truePositives t + length indices)%nat;
            tally_falsePositives := tally_falsePositives t;
            tally_profitLoss :=
              fold_left add (repeat (lit 0.95) (length indices)) (tally_profitLoss t) |}.
Proof.
  revert t. induction indices as [|i indices IH]; intros t Hall.
  - cbn [backtest_loop length repeat fold_left]. rewrite Nat.add_0_r.
    destruct t; reflexivity.
  - destruct (Hall i (or_introl eq_refl)) as [Hi (p & rest & Hp & Hd)].
    cbn [backtest_loop]. unfold backtest_step.
    rewrite Hp, Hd, (constant_actual i Hi). cbn [settle same_digit].
    change (digit_eqb D3 D3) with true. cbn iota.
    rewrite IH by (intros j Hj; apply Hall; right; exact Hj).
    cbn [win tally_truePositives tally_falsePositives tally_profitLoss
         length repeat fold_left].
    f_equal. f_equal. lia.
Qed.

(** In every arithmetic: all the scored iterations are true positives and
    the profit is the running sum of their payouts. *)
Lemma constant_three_tally :
  (forall i, In i (scored_indices testData) -> predicts_three i) ->
  exists r,
    backtest_with predictor testData Match = Some r
    /\ truePositives r = (n - 51)%nat
    /\ falsePositives r = 0%nat
    /\ accuracy r = (of_nat (n - 51) / of_nat (n - 51) * lit 100)%js
    /\ profitLoss r = fold_left add (repeat (lit 0.95) (n - 51)) (lit 0).
Proof.
  intros Hall. unfold backtest_with.
  rewrite backtest_loop_all_wins by (intros i Hi; split; [exact Hi | apply Hall, Hi]).
  assert (Hcount : length (scored_indices testData) = (n - 51)%nat).
  { unfold scored_indices, testData. rewrite length_seq, repeat_length. lia. }
  rewrite Hcount. eexists. split; [reflexivity|].
  unfold metrics.
  cbn [truePositives falsePositives accuracy profitLoss
       tally_truePositives tally_falsePositives tally_profitLoss].
  rewrite !Nat.add_0_r, !Nat.add_0_l.
  repeat split; reflexivity.
Qed.

End ConstantThree.

Lemma exact_repeat_sum (x : xnum) (k : nat) :
  exact x ->
  exact (fold_left add (repeat x k) (lit 0))
  /\ val (fold_left add (repeat x k) (lit 0)) == val x * inject_Z (Z.of_nat k).
Proof.
  intro Hx.
  assert (Hall : Forall exact (repeat x k)).
  { apply Forall_forall. intros y Hy. apply repeat_spec in Hy. subst y. exact Hx. }
  destruct (exact_fold_add (lit 0) Hall (proj1 (exact_lit 0))) as [He Hv].
  split; [exact He|]. rewrite Hv, (proj2 (exact_lit 0)).
  clear. induction k as [|k IH].
  - simpl. ring.
  - cbn [repeat map Qsum fold_right] in *.
    rewrite Nat2Z.inj_succ, <- Z.add_1_r, inject_Z_plus.
    setoid_replace (0 + (val x + fold_right Qplus 0 (map val (repeat x k))))
      with (val x + (0 + fold_right Qplus 0 (map val (repeat x k)))) by ring.
    unfold Qsum in IH. rewrite IH. simpl inject_Z. ring.
Qed.


(** A check of [predicts_three] on every scored index. *)
Definition answers_three
           (predictor : list digit -> Z -> option (list (MultiStepPrediction.t xnum)))
           (n : nat) : bool :=
  forallb (fun i =>
             match predictor (slice 0 i (repeat D3 n)) 1%Z with
             | Some (p :: _) => digit_eqb (MultiStepPrediction.digit p) D3
             | _ => false
             end)
          (scored_indices (repeat D3 n)).

Lemma answers_three_spec predictor n :
  answers_three predictor n = true ->
  forall i, In i (scored_indices (repeat D3 n)) -> predicts_three predictor n i.
Proof.
  intros Hall i Hi. unfold answers_three in Hall.
  rewrite forallb_forall in Hall. specialize (Hall i Hi).
  unfold predicts_three.
  destruct (predictor (slice 0 i (repeat D3 n)) 1%Z) as [[|p rest]|];
    try discriminate.
  exists p, rest. split; [reflexivity|]. apply digit_eqb_eq. exact Hall.
Qed.


(* ================================================================= *)
(** * The Markov matrix in exact arithmetic *)

Unset Implicit Arguments.

Lemma update_nth_same {A} (k : nat) (f : A -> A) (a : list A) (d : A) :
  (k < length a)%nat -> nth k (update_nth k f a) d = f (nth k a d).
Proof.
  revert k. induction a as [|x a IH]; intros [|k] Hk; simpl in *; try lia.
  - reflexivity.
  - apply IH. lia.
Qed.

Lemma update_nth_other {A} (i k : nat) (f : A -> A) (a : list A) (d : A) :
  i <> k -> nth i (update_nth k f a) d = nth i a d.
Proof.
  revert i k. induction a as [|x a IH]; intros [|i] [|k] Hik; simpl;
    try reflexivity; try congruence.
  apply IH. congruence.
Qed.

Lemma update_nth_Forall {A} (P : A -> Prop) (k : nat) (f : A -> A) (a : list A) :
  (forall x, P x -> P (f x)) -> Forall P a -> Forall P (update_nth k f a).
Proof.
  intros Hf Ha. revert k. induction Ha as [|x a Hx Ha IH]; intros [|k]; simpl;
    constructor; auto.
Qed.

Lemma mapi_In {A B} (f : nat -> A -> B) (a : list A) (y : B) :
  In y (mapi f a) ->
  exists i x, nth_error a i = Some x /\ y = f i x.
Proof.
  unfold mapi. rewrite in_map_iff. intros ([i x] & <- & Hin). simpl.
  assert (Hgen : forall s, In (i, x) (combine (seq s (length a)) a) ->
                           (s <= i)%nat /\ nth_error a (i - s) = Some x).
  { clear Hin. induction a as [|x0 a IH]; intros s Hin; simpl in Hin; [contradiction|].
    destruct Hin as [Heq | Hin].
    - injection Heq as <- <-. split; [lia|]. rewrite Nat.sub_diag. reflexivity.
    - apply IH in Hin. destruct Hin as [Hle Hnth]. split; [lia|].
      replace (i - s)%nat with (S (i - S s)) by lia. exact Hnth. }
  destruct (Hgen 0%nat Hin) as [_ Hnth]. rewrite Nat.sub_0_r in Hnth.
  exists i, x. split; [exact Hnth | reflexivity].
Qed.

(** A decayed count: finite and not negative. *)
Definition count_like (x : xnum) : Prop := exact x /\ 0 <= val x.

(** A 10 x 10 matrix of decayed counts. *)
Definition counts_matrix (m : matrix xnum) : Prop :=
  length m = 10%nat
  /\ Forall (fun row => length row = 10%nat /\ Forall count_like row) m.

Definition cell (m : matrix xnum) (i j : nat) : xnum := nth_num (nth i m []) j.

Lemma zero_matrix_counts : counts_matrix zero_matrix.
Proof.
  split; [reflexivity|].
  unfold zero_matrix. apply Forall_forall. intros row Hrow.
  apply repeat_spec in Hrow. subst row. split; [reflexivity|].
  apply Forall_forall. intros x Hx. apply repeat_spec in Hx. subst x.
  split; [apply exact_fin|]. rewrite val_fin. apply Qle_refl.
Qed.

Lemma count_like_add (x w : xnum) :
  count_like x -> count_like w -> count_like (add x w).
Proof.
  intros [Hx Hx0] [Hw Hw0]. destruct (exact_add Hx Hw) as [He Hv].
  split; [exact He|]. rewrite Hv.
  rewrite <- (Qplus_0_r 0). apply Qplus_le_compat; assumption.
Qed.

Lemma matrix_add_counts (from to : digit) (w : xnum) (m : matrix xnum) :
  count_like w -> counts_matrix m -> counts_matrix (matrix_add from to w m).
Proof.
  intros Hw [Hlen Hrows]. split.
  - rewrite matrix_add_length. exact Hlen.
  - unfold matrix_add. apply update_nth_Forall; [|exact Hrows].
    intros row [Hrl Hrow]. split.
    + rewrite update_nth_length. exact Hrl.
    + apply update_nth_Forall; [|exact Hrow].
      intros x Hx. apply count_like_add; assumption.
Qed.

Lemma counts_matrix_row (m : matrix xnum) (i : nat) :
  counts_matrix m -> (i < 10)%nat ->
  length (nth i m []) = 10%nat /\ Forall count_like (nth i m []).
Proof.
  intros [Hlen Hrows] Hi.
  assert (Hin : In (nth i m []) m) by (apply nth_In; lia).
  revert Hin. generalize (nth i m []). apply Forall_forall. exact Hrows.
Qed.

Lemma counts_matrix_cell (m : matrix xnum) (i j : nat) :
  counts_matrix m -> (i < 10)%nat -> (j < 10)%nat -> count_like (cell m i j).
Proof.
  intros Hm Hi Hj. destruct (counts_matrix_row m i Hm Hi) as [Hlen Hrow].
  unfold cell, nth_num.
  assert (Hin : In (nth j (nth i m []) nan) (nth i m [])) by (apply nth_In; lia).
  revert Hin. generalize (nth j (nth i m []) nan). apply Forall_forall. exact Hrow.
Qed.

(** How [m[from][to] += weight] changes the cells. *)
Lemma cell_matrix_add (from to : digit) (w : xnum) (m : matrix xnum) (i j : nat) :
  counts_matrix m -> (i < 10)%nat -> (j < 10)%nat ->
  cell (matrix_add from to w m) i j
  = if ((i =? digit_to_nat from) && (j =? digit_to_nat to))%nat
    then add (cell m i j) w
    else cell m i j.
Proof.
  intros Hm Hi Hj. unfold cell, matrix_add, nth_num.
  destruct Hm as [Hlen Hrows].
  destruct (i =? digit_to_nat from)%nat eqn:Ei.
  - apply Nat.eqb_eq in Ei. subst i. rewrite update_nth_same by lia.
    destruct (j =? digit_to_nat to)%nat eqn:Ej; cbn [andb].
    + apply Nat.eqb_eq in Ej. subst j. rewrite update_nth_same; [reflexivity|].
      assert (Hin : In (nth (digit_to_nat from) m []) m) by (apply nth_In; lia).
      rewrite Forall_forall in Hrows. destruct (Hrows _ Hin) as [Hl _]. lia.
    + apply Nat.eqb_neq in Ej. apply update_nth_other. exact Ej.
  - apply Nat.eqb_neq in Ei. rewrite update_nth_other by exact Ei. reflexivity.
Qed.

Lemma decay_weight (k : nat) :
  exact (Math_pow (lit 0.99) k) /\ 0 < val (Math_pow (lit 0.99) k).
Proof.
  destruct (exact_pow (lit 0.99) k (proj1 (exact_lit 0.99))) as [He Hv].
  split; [exact He|]. rewrite Hv. apply qpow_pos.
  rewrite (proj2 (exact_lit 0.99)). reflexivity.
Qed.

(** The body of the counting loop of [buildEnhancedMarkov]. *)
Definition count_step (digits : list digit)
           (acc : matrix xnum * matrix xnum) (i : nat) : matrix xnum * matrix xnum :=
  let (transitions, neuralWeights) := acc in
  match nth_error digits i, nth_error digits (i + 1) with
  | Some from, Some to =>
      let weight := Math_pow (lit 0.99) (length digits - 1 - i) in
      (matrix_add from to weight transitions,
       matrix_add from to weight neuralWeights)
  | _, _ => acc
  end.

Lemma count_transitions_fold (digits : list digit) :
  count_transitions digits
  = fold_left (count_step digits) (seq 0 (length digits - 1)) (zero_matrix, zero_matrix).
Proof. reflexivity. Qed.

Lemma count_step_spec (digits : list digit) (acc : matrix xnum * matrix xnum) (i : nat) :
  counts_matrix (fst acc) -> counts_matrix (snd acc) ->
  let acc' := count_step digits acc i in
  counts_matrix (fst acc') /\ counts_matrix (snd acc')
  /\ (forall a b, (a < 10)%nat -> (b < 10)%nat ->
                  val (cell (fst acc) a b) <= val (cell (fst acc') a b))
  /\ (forall from to,
         nth_error digits i = Some from -> nth_error digits (i + 1) = Some to ->
         0 < val (cell (fst acc') (digit_to_nat from) (digit_to_nat to))).
Proof.
  destruct acc as [tr nw]. cbn [fst snd]. intros Htr Hnw. unfold count_step.
  destruct (nth_error digits i) as [from|];
    [destruct (nth_error digits (i + 1)) as [to|]|].
  - cbn [fst snd]. cbv zeta.
    destruct (decay_weight (length digits - 1 - i)) as [Hwe Hwp].
    set (w := Math_pow (lit 0.99) (length digits - 1 - i)) in *.
    assert (Hw : count_like w) by (split; [exact Hwe | apply Qlt_le_weak, Hwp]).
    split; [apply matrix_add_counts; assumption|].
    split; [apply matrix_add_counts; assumption|].
    split.
    + intros a b Ha Hb. rewrite cell_matrix_add by assumption.
      destruct ((a =? digit_to_nat from) && (b =? digit_to_nat to))%nat;
        [|apply Qle_refl].
      destruct (counts_matrix_cell tr a b Htr Ha Hb) as [Hce Hc0].
      rewrite (proj2 (exact_add Hce Hwe)).
      rewrite <- (Qplus_0_r (val (cell tr a b))) at 1.
      apply Qplus_le_compat; [apply Qle_refl | apply Qlt_le_weak, Hwp].
    + intros f t Hf Ht. injection Hf as <-. injection Ht as <-.
      pose proof (digit_to_nat_lt from) as Hfl. pose proof (digit_to_nat_lt to) as Htl.
      rewrite cell_matrix_add by assumption. rewrite !Nat.eqb_refl. cbn [andb].
      destruct (counts_matrix_cell tr _ _ Htr Hfl Htl) as [Hce Hc0].
      rewrite (proj2 (exact_add Hce Hwe)).
      lra.
  - cbn [fst snd]. split; [exact Htr|]. split; [exact Hnw|].
    split; [intros; apply Qle_refl | intros; discriminate].
  - cbn [fst snd]. split; [exact Htr|]. split; [exact Hnw|].
    split; [intros; apply Qle_refl | intros; discriminate].
Qed.

Lemma count_fold_spec (digits : list digit) (indices : list nat) :
  forall acc,
    counts_matrix (fst acc) -> counts_matrix (snd acc) ->
    let acc' := fold_left (count_step digits) indices acc in
    counts_matrix (fst acc') /\ counts_matrix (snd acc')
    /\ (forall a b, (a < 10)%nat -> (b < 10)%nat ->
                    val (cell (fst acc) a b) <= val (cell (fst acc') a b))
    /\ (forall i from to,
           In i indices ->
           nth_error digits i = Some from -> nth_error digits (i + 1) = Some to ->
           0 < val (cell (fst acc') (digit_to_nat from) (digit_to_nat to))).
Proof.
  induction indices as [|i indices IH]; intros acc Htr Hnw; cbn [fold_left].
  - split; [exact Htr|]. split; [exact Hnw|].
    split; [intros; apply Qle_refl | intros i f t []].
  - destruct (count_step_spec digits acc i Htr Hnw) as (Htr1 & Hnw1 & Hmono1 & Hpos1).
    destruct (IH _ Htr1 Hnw1) as (Htr' & Hnw' & Hmono & Hpos).
    split; [exact Htr'|]. split; [exact Hnw'|]. split.
    + intros a b Ha Hb. eapply Qle_trans; [apply Hmono1 | apply Hmono]; assumption.
    + intros j f t [<- | Hj] Hf Ht.
      * eapply Qlt_le_trans; [apply (Hpos1 f t Hf Ht)|].
        apply Hmono; apply digit_to_nat_lt.
      * apply (Hpos j f t Hj Hf Ht).
Qed.

Lemma count_transitions_spec (digits : list digit) :
  counts_matrix (fst (count_transitions digits))
  /\ counts_matrix (snd (count_transitions digits))
  /\ (forall i from to,
         nth_error digits i = Some from -> nth_error digits (i + 1) = Some to ->
         0 < val (cell (fst (count_transitions digits))
                       (digit_to_nat from) (digit_to_nat to))).
Proof.
  rewrite count_transitions_fold.
  destruct (count_fold_spec digits (seq 0 (length digits - 1))
                            (zero_matrix, zero_matrix)
                            zero_matrix_counts zero_matrix_counts)
    as (Htr & Hnw & _ & Hpos).
  split; [exact Htr|]. split; [exact Hnw|].
  intros i f t Hf Ht. apply (Hpos i f t); try assumption.
  apply in_seq.
  assert (i + 1 < length digits)%nat by (apply nth_error_Some; congruence).
  lia.
Qed.

Lemma Qsum_nonneg (row : list xnum) :
  Forall count_like row -> 0 <= Qsum (map val row).
Proof.
  induction 1 as [|x row [_ Hx] _ IH]; simpl; [apply Qle_refl | lra].
Qed.

Lemma Qsum_pos (row : list xnum) (j : nat) :
  Forall count_like row -> (j < length row)%nat -> 0 < val (nth j row nan) ->
  0 < Qsum (map val row).
Proof.
  intro Hrow. revert j. induction Hrow as [|x row [_ Hx] Hrow IH]; intros j Hj Hpos.
  - simpl in Hj. lia.
  - simpl. destruct j as [|j]; simpl in Hpos.
    + pose proof (Qsum_nonneg row Hrow). lra.
    + assert (0 < Qsum (map val row)) by (apply (IH j); [simpl in Hj; lia | exact Hpos]).
      lra.
Qed.

Lemma baseProb_exact (total count : xnum) :
  exact total -> exact count -> exact (baseProb total count).
Proof.
  intros Ht Hc. unfold baseProb. destruct (lt (lit 0) total) eqn:Hlt.
  - apply (lt_iff (proj1 (exact_lit 0)) Ht) in Hlt.
    rewrite (proj2 (exact_lit 0)) in Hlt.
    assert (Hnz : ~ val total == 0) by lra.
    destruct (exact_div Hc Ht Hnz) as [He _].
    apply (exact_mul He (proj1 (exact_lit 100))).
  - apply exact_lit.
Qed.

Lemma baseProb_val (total count : xnum) :
  exact total -> exact count -> 0 < val total ->
  val (baseProb total count) == val count / val total * 100.
Proof.
  intros Ht Hc Hpos. unfold baseProb.
  assert (Hlt : lt (lit 0) total = true).
  { apply (lt_iff (proj1 (exact_lit 0)) Ht). rewrite (proj2 (exact_lit 0)). exact Hpos. }
  rewrite Hlt.
  assert (Hnz : ~ val total == 0) by lra.
  destruct (exact_div Hc Ht Hnz) as [He Hv].
  rewrite (proj2 (exact_mul He (proj1 (exact_lit 100)))), Hv, (proj2 (exact_lit 100)).
  reflexivity.
Qed.

Lemma Qsum_baseProb (total : xnum) (row : list xnum) :
  exact total -> 0 < val total -> Forall count_like row ->
  Qsum (map val (map (baseProb total) row))
  == Qsum (map val row) / val total * 100.
Proof.
  intros Ht Hpos. induction 1 as [|x row [Hx _] _ IH]; simpl.
  - field. lra.
  - rewrite IH, (baseProb_val total x Ht Hx Hpos). field. lra.
Qed.

Lemma Forall_count_like_exact (row : list xnum) :
  Forall count_like row -> Forall exact row.
Proof. apply Forall_impl. intros x [Hx _]. exact Hx. Qed.

(** The cells of the matrix are finite and at most 100; its rows have ten
    cells. *)
Lemma buildEnhancedMarkov_cells (digits : list digit) (row : list xnum) :
  In row (buildEnhancedMarkov digits) ->
  length row = 10%nat /\ Forall (fun x => exact x /\ val x <= 100) row.
Proof.
  intro Hrow. destruct (count_transitions_spec digits) as (Htr & Hnw & _).
  unfold buildEnhancedMarkov in Hrow.
  destruct (count_transitions digits) as [tr nw]. cbn [fst snd] in Htr, Hnw.
  apply mapi_In in Hrow. destruct Hrow as (from & counts' & Hfrom & ->).
  assert (Hfl : (from < 10)%nat).
  { destruct Htr as [Hlen _]. rewrite <- Hlen. apply nth_error_Some. congruence. }
  destruct (counts_matrix_row tr from Htr Hfl) as [Hlen' Hrow'].
  rewrite (nth_error_nth tr from [] Hfrom) in Hlen', Hrow'.
  split; [rewrite mapi_length; exact Hlen'|].
  apply Forall_forall. intros x Hx.
  apply mapi_In in Hx. destruct Hx as (to & count & Hto & ->).
  assert (Htl : (to < 10)%nat).
  { rewrite <- Hlen'. apply nth_error_Some. congruence. }
  assert (Hcount : count_like count).
  { rewrite Forall_forall in Hrow'. apply Hrow'. eapply nth_error_In. exact Hto. }
  destruct (exact_sum (Forall_count_like_exact counts' Hrow')) as [Hte _].
  pose proof (baseProb_exact _ count Hte (proj1 Hcount)) as Hbase.
  destruct (counts_matrix_cell nw from to Hnw Hfl Htl) as [Hboost _].
  assert (Hten : ~ val (lit 10) == 0) by (rewrite (proj2 (exact_lit 10)); lra).
  destruct (exact_div Hboost (proj1 (exact_lit 10)) Hten) as [Hbe _].
  destruct (exact_add Hbase Hbe) as [Hsum _].
  destruct (exact_min _ _ Hsum (proj1 (exact_lit 100))) as [Hme Hmv].
  split; [exact Hme|]. rewrite (proj2 (exact_lit 100)) in Hmv. exact Hmv.
Qed.



(* ================================================================= *)
(** * The steps of [predictNextN] *)

Section PredictorSteps.

Context {num : Type} `{Number num} `{MathPow num}.

(** The digits of the predictions, as the loop appends them to the
    working sequence. *)
Definition digits_of (predictions : list (MultiStepPrediction.t num)) : list digit :=
  map (@MultiStepPrediction.digit num) predictions.

(** Every prediction the loop emits is the one [predict_step] computes from
    the working sequence of its step. *)
Lemma predict_loop_steps (this : MultiStepPredictor num) :
  forall remaining step predictions currentDigits result,
    predict_loop this remaining step predictions currentDigits = Some result ->
    exists emitted,
      result = predictions ++ emitted
      /\ forall k p,
           nth_error emitted k = Some p ->
           predict_step this (step + k)
                        (currentDigits ++ digits_of (firstn k emitted))
           = Some p.
Proof.
  induction remaining as [|remaining IH];
    intros step predictions currentDigits result Hloop; cbn [predict_loop] in Hloop.
  - injection Hloop as <-. exists []. split; [symmetry; apply app_nil_r|].
    intros [|k] p Hk; discriminate.
  - destruct (predict_step this step currentDigits) as [p0|] eqn:Hstep; [|discriminate].
    destruct (MultiStepPrediction.is_low (MultiStepPrediction.confidence p0)
              && (3 <=? step)%nat).
    + injection Hloop as <-. exists [p0]. split; [reflexivity|].
      intros [|[|k]] p Hk; try discriminate. injection Hk as <-.
      cbn [firstn digits_of map]. rewrite app_nil_r, Nat.add_0_r. exact Hstep.
    + apply IH in Hloop. destruct Hloop as (emitted & -> & Hsteps).
      exists (p0 :: emitted). split; [rewrite <- app_assoc; reflexivity|].
      intros [|k] p Hk; cbn [nth_error] in Hk.
      * injection Hk as <-.
        cbn [firstn digits_of map]. rewrite app_nil_r, Nat.add_0_r. exact Hstep.
      * specialize (Hsteps k p Hk).
        cbn [firstn digits_of map].
        replace (step + S k)%nat with (S step + k)%nat by lia.
        change (currentDigits ++ MultiStepPrediction.digit p0
                              :: map (@MultiStepPrediction.digit num) (firstn k emitted))
          with (currentDigits ++ [MultiStepPrediction.digit p0]
                              ++ digits_of (firstn k emitted)).
        rewrite app_assoc. exact Hsteps.
Qed.

Lemma predictNextN_steps (this : MultiStepPredictor num)
      (recentDigits : list digit) (steps : Z)
      (predictions : list (MultiStepPrediction.t num)) :
  predictNextN this recentDigits steps = Some predictions ->
  forall k p,
    nth_error predictions k = Some p ->
    predict_step this (S k) (recentDigits ++ digits_of (firstn k predictions)) = Some p.
Proof.
  intros Hloop k p Hk. unfold predictNextN in Hloop.
  apply predict_loop_steps in Hloop. destruct Hloop as (emitted & -> & Hsteps).
  apply (Hsteps k p Hk).
Qed.

End PredictorSteps.

(* ================================================================= *)
(** * The ensemble in exact arithmetic *)

Lemma score_confidence_exact (n : nat) (p : Pattern xnum) :
  n <> 0%nat -> exact (score_confidence n p).
Proof.
  intro Hn. unfold score_confidence.
  pose proof (of_nat_nonzero Hn) as Hnz.
  destruct (exact_div (proj1 (exact_of_nat (lastSeen p))) (proj1 (exact_of_nat n)) Hnz)
    as [Hr _].
  destruct (exact_div (proj1 (exact_of_nat (frequency p))) (proj1 (exact_of_nat n)) Hnz)
    as [Hf _].
  destruct (exact_mul Hr (proj1 (exact_lit 100))) as [Hr1 _].
  destruct (exact_mul Hf (proj1 (exact_lit 1000))) as [Hf1 _].
  destruct (exact_mul Hr1 (proj1 (exact_lit 0.4))) as [Hr2 _].
  destruct (exact_mul Hf1 (proj1 (exact_lit 0.6))) as [Hf2 _].
  apply (exact_add Hf2 Hr2).
Qed.

(** Every confidence a freshly trained recognizer stores is finite. *)
Lemma trained_confidences_exact (history : list digit) :
  Forall (fun p => exact (confidence p))
         (map snd (snd (train (num := xnum) history []))).
Proof.
  rewrite train_table. rewrite map_map. cbn [snd].
  destruct history as [|d history]; [constructor|].
  apply Forall_forall. intros p Hp. apply in_map_iff in Hp.
  destruct Hp as (e & <- & _). apply score_confidence_exact. discriminate.
Qed.

(** *** The weights of [predictNext] *)

Definition weights_exact (m : weight_map xnum) : Prop :=
  Forall (fun e => exact (snd e)) m.

Lemma weight_get_exact (d : digit) (m : weight_map xnum) (w : xnum) :
  weights_exact m -> weight_get d m = Some w -> exact w.
Proof.
  induction 1 as [|[d' w'] m Hw Hm IH]; simpl; [discriminate|].
  destruct (digit_eqb d' d); [|exact IH].
  intro Heq. injection Heq as <-. exact Hw.
Qed.

Lemma weight_get_or_zero_exact (d : digit) (m : weight_map xnum) :
  weights_exact m -> exact (weight_get_or_zero d m).
Proof.
  intro Hm. unfold weight_get_or_zero.
  destruct (weight_get d m) as [w|] eqn:Hw; [|apply exact_lit].
  rewrite or_zero_exact; apply (weight_get_exact d m w Hm Hw).
Qed.

Lemma weight_set_exact (d : digit) (w : xnum) (m : weight_map xnum) :
  exact w -> weights_exact m -> weights_exact (weight_set d w m).
Proof.
  intros Hw. induction 1 as [|[d' w'] m Hw' Hm IH]; simpl.
  - constructor; [exact Hw | constructor].
  - destruct (digit_eqb d' d); constructor; try assumption.
Qed.

Lemma digit_eqb_neq (a b : digit) : digit_eqb a b = false <-> a <> b.
Proof.
  unfold digit_eqb. destruct (digit_eq_dec a b); split; congruence.
Qed.

Ltac digit_eqb_prop :=
  repeat match goal with
         | E : digit_eqb _ _ = true |- _ => apply digit_eqb_eq in E
         | E : digit_eqb _ _ = false |- _ => apply digit_eqb_neq in E
         end.

Lemma weight_get_set (d d' : digit) (w : xnum) (m : weight_map xnum) :
  weight_get d (weight_set d' w m)
  = if digit_eqb d' d then Some w else weight_get d m.
Proof.
  induction m as [|[d0 w0] m IH]; simpl.
  - reflexivity.
  - destruct (digit_eqb d0 d') eqn:E0; simpl;
      destruct (digit_eqb d0 d) eqn:E1; try rewrite IH;
      destruct (digit_eqb d' d) eqn:E2;
      digit_eqb_prop; subst; first [congruence | reflexivity].
Qed.

(** *** The three signals, as the specification words them *)

Section Signals.

Context {num : Type} `{Number num}.

(** The pattern's prefix (all but its last digit) is the tail of the
    working sequence. *)
Definition applies (currentDigits : list digit) (p : Pattern num) : bool :=
  let seqLength := length (sequence p) in
  negb (length currentDigits <? seqLength - 1)%nat
  && seq_eqb (slice_last (seqLength - 1) currentDigits) (slice_init (sequence p)).

(** The pattern applies and ends in [d]. *)
Definition selects (currentDigits : list digit) (d : digit) (p : Pattern num) : bool :=
  applies currentDigits p
  && match nth_error (sequence p) (length (sequence p) - 1) with
     | Some nextDigit => digit_eqb nextDigit d
     | None => false
     end.

(** The pattern-prefix weight of [d]: the confidences of the stored
    patterns that apply and end in [d], summed; 0 when there is none. *)
Definition pattern_weight (t : table num) (currentDigits : list digit) (d : digit) : num :=
  sum_from_zero (map (@confidence num) (filter (selects currentDigits d) (map snd t))).

(** The Markov probability of [d] after the last digit of the working
    sequence. *)
Definition markov_probability (chain : matrix num) (currentDigits : list digit)
           (d : digit) : num :=
  match last_error currentDigits with
  | Some lastDigit => nth_num (nth (digit_to_nat lastDigit) chain []) (digit_to_nat d)
  | None => nan
  end.

(** The frequency of [d] over the working sequence: count / length * 100. *)
Definition digit_frequency (currentDigits : list digit) (d : digit) : num :=
  (of_nat (count_occ digit_eq_dec currentDigits d) / of_nat (length currentDigits)
   * lit 100)%js.

(** The ensemble score of the specification. *)
Definition ensemble_score (this : MultiStepPredictor num) (currentDigits : list digit)
           (d : digit) : num :=
  (lit 0.5 * pattern_weight (patternRecognizer this) currentDigits d
   + lit 0.35 * markov_probability (markovChain this) currentDigits d
   + lit 0.15 * digit_frequency currentDigits d)%js.

End Signals.

Lemma predictNext_visit_spec (currentDigits : list digit)
      (acc : weight_map xnum) (p : Pattern xnum) :
  weights_exact acc -> exact (confidence p) ->
  weights_exact (predictNext_visit currentDigits acc p)
  /\ forall d,
       weight_get_or_zero d (predictNext_visit currentDigits acc p)
       = if selects currentDigits d p
         then add (weight_get_or_zero d acc) (confidence p)
         else weight_get_or_zero d acc.
Proof.
  intros Hacc Hp. unfold predictNext_visit, selects, applies. cbv zeta.
  destruct (length currentDigits <? length (sequence p) - 1)%nat;
    [split; [exact Hacc | reflexivity]|].
  cbn [negb andb].
  destruct (seq_eqb _ _); [|split; [exact Hacc | reflexivity]].
  destruct (nth_error (sequence p) (length (sequence p) - 1)) as [nextDigit|];
    [|split; [exact Hacc | reflexivity]].
  pose proof (weight_get_or_zero_exact nextDigit acc Hacc) as Hold.
  destruct (exact_add Hold Hp) as [Hnew _].
  split; [apply weight_set_exact; assumption|].
  intro d. unfold weight_get_or_zero at 1. rewrite weight_get_set.
  destruct (digit_eqb nextDigit d) eqn:E.
  - apply digit_eqb_eq in E. subst d. apply or_zero_exact. exact Hnew.
  - reflexivity.
Qed.

Lemma predictNext_fold_spec (currentDigits : list digit) (patterns : list (Pattern xnum)) :
  Forall (fun p => exact (confidence p)) patterns ->
  forall acc,
    weights_exact acc ->
    weights_exact (fold_left (predictNext_visit currentDigits) patterns acc)
    /\ forall d,
         weight_get_or_zero d (fold_left (predictNext_visit currentDigits) patterns acc)
         = fold_left add
                     (map (@confidence xnum) (filter (selects currentDigits d) patterns))
                     (weight_get_or_zero d acc).
Proof.
  induction 1 as [|p patterns Hp Hps IH]; intros acc Hacc; cbn [fold_left].
  - split; [exact Hacc | reflexivity].
  - destruct (predictNext_visit_spec currentDigits acc p Hacc Hp) as [Hacc' Hget].
    destruct (IH _ Hacc') as [Hfinal Hsum].
    split; [exact Hfinal|].
    intro d. rewrite Hsum, Hget. cbn [filter].
    destruct (selects currentDigits d p); reflexivity.
Qed.

Lemma predictNext_weight (t : table xnum) (currentDigits : list digit) (d : digit) :
  Forall (fun p => exact (confidence p)) (map snd t) ->
  weight_get_or_zero d (fst (predictNext currentDigits t))
  = pattern_weight t currentDigits d.
Proof.
  intro Ht. unfold predictNext, bind, Map_values, ret. cbn [fst].
  destruct (predictNext_fold_spec currentDigits (map snd t) Ht [] (Forall_nil _))
    as [_ Hsum].
  rewrite Hsum. reflexivity.
Qed.

Lemma pattern_weight_exact (t : table xnum) (currentDigits : list digit) (d : digit) :
  Forall (fun p => exact (confidence p)) (map snd t) ->
  exact (pattern_weight t currentDigits d).
Proof.
  intro Ht. unfold pattern_weight. apply exact_sum.
  apply Forall_forall. intros x Hx. apply in_map_iff in Hx.
  destruct Hx as (p & <- & Hp). apply filter_In in Hp. destruct Hp as [Hp _].
  rewrite Forall_forall in Ht. apply (Ht p Hp).
Qed.

(** *** The counts of [analyzeFrequency] *)

Lemma digit_to_nat_inj (a b : digit) : digit_to_nat a = digit_to_nat b -> a = b.
Proof. destruct a, b; simpl; intro Heq; try reflexivity; discriminate. Qed.

Lemma count_fold_nth (digits : list digit) (d : digit) :
  forall counts,
    length counts = 10%nat ->
    length (fold_left (fun counts d => update_nth (digit_to_nat d) S counts)
                      digits counts) = 10%nat
    /\ nth (digit_to_nat d)
           (fold_left (fun counts d => update_nth (digit_to_nat d) S counts)
                      digits counts) 0%nat
       = (nth (digit_to_nat d) counts 0 + count_occ digit_eq_dec digits d)%nat.
Proof.
  induction digits as [|x digits IH]; intros counts Hlen; cbn [fold_left count_occ].
  - split; [exact Hlen | lia].
  - destruct (IH (update_nth (digit_to_nat x) S counts)) as [Hl Hn];
      [rewrite update_nth_length; exact Hlen|].
    split; [exact Hl|]. rewrite Hn.
    destruct (digit_eq_dec x d) as [->|Hxd].
    + rewrite update_nth_same by (rewrite Hlen; apply digit_to_nat_lt). lia.
    + rewrite update_nth_other; [reflexivity|].
      intro Heq. apply Hxd. symmetry. apply digit_to_nat_inj. exact Heq.
Qed.

Lemma count_digits_spec (digits : list digit) (d : digit) :
  length (count_digits digits) = 10%nat
  /\ nth (digit_to_nat d) (count_digits digits) 0%nat = count_occ digit_eq_dec digits d.
Proof.
  unfold count_digits.
  destruct (count_fold_nth digits d (repeat 0%nat 10) eq_refl) as [Hl Hn].
  split; [exact Hl|]. rewrite Hn.
  rewrite nth_repeat. reflexivity.
Qed.

Lemma analyzeFrequency_nth (currentDigits : list digit) (d : digit) :
  currentDigits <> [] ->
  nth_or_zero (analyzeFrequency currentDigits) (digit_to_nat d)
  = digit_frequency currentDigits d
  /\ exact (digit_frequency currentDigits d).
Proof.
  intro Hne. destruct (count_digits_spec currentDigits d) as [Hlen Hnth].
  assert (Hnz : ~ val (of_nat (num := xnum) (length currentDigits)) == 0).
  { apply of_nat_nonzero. destruct currentDigits; [contradiction | discriminate]. }
  assert (Hexact : exact (digit_frequency currentDigits d)).
  { unfold digit_frequency.
    destruct (exact_div (proj1 (exact_of_nat (count_occ digit_eq_dec currentDigits d)))
                        (proj1 (exact_of_nat (length currentDigits))) Hnz) as [He _].
    apply (exact_mul He (proj1 (exact_lit 100))). }
  split; [|exact Hexact].
  unfold nth_or_zero, analyzeFrequency. cbv zeta.
  rewrite nth_error_map.
  rewrite (nth_error_nth' (count_digits currentDigits) 0%nat)
    by (rewrite Hlen; apply digit_to_nat_lt).
  cbn [option_map]. rewrite Hnth. apply or_zero_exact. exact Hexact.
Qed.

(** *** The best prediction *)

(** The comparison of the sort of [predictNextN]: [b[1] - a[1] > 0]. *)
Definition by_score (a b : digit * xnum) : bool := lt (lit 0) (sub (snd b) (snd a)).

Lemma by_score_iff (a b : digit * xnum) :
  exact (snd a) -> exact (snd b) ->
  (by_score a b = true <-> val (snd a) < val (snd b))
  /\ (by_score a b = false <-> val (snd b) <= val (snd a)).
Proof.
  intros Ha Hb. unfold by_score.
  destruct (exact_sub Hb Ha) as [He Hv].
  pose proof (lt_iff (proj1 (exact_lit 0)) He) as Hlt.
  pose proof (lt_false_iff (proj1 (exact_lit 0)) He) as Hge.
  rewrite Hv, (proj2 (exact_lit 0)) in Hlt, Hge.
  split.
  - rewrite Hlt. split; intro; lra.
  - rewrite Hge. split; intro; lra.
Qed.

Lemma StronglySorted_map {A B} (R : B -> B -> Prop) (g : A -> B) (l : list A) :
  StronglySorted (fun a b => R (g a) (g b)) l -> StronglySorted R (map g l).
Proof.
  induction 1 as [|x l Hl IH Hx]; simpl; constructor; [exact IH|].
  apply Forall_map. exact Hx.
Qed.

(** In a list in order, the first element a filter keeps stands before every
    other element it keeps. *)
Lemma filter_head_first {A} (R : A -> A -> Prop) (P : A -> bool) (l : list A)
      (h : A) (t : list A) :
  StronglySorted R l -> filter P l = h :: t ->
  forall z, In z l -> P z = true -> z = h \/ R h z.
Proof.
  induction 1 as [|x l Hl IH Hx]; intros Hf z Hz Pz; simpl in *; [contradiction|].
  destruct (P x) eqn:Px.
  - injection Hf as -> _. destruct Hz as [<- | Hz]; [left; reflexivity|].
    right. rewrite Forall_forall in Hx. apply Hx. exact Hz.
  - destruct Hz as [<- | Hz]; [congruence|]. apply IH; assumption.
Qed.

Lemma all_digits_in_order :
  StronglySorted (fun a b => (digit_to_nat a < digit_to_nat b)%nat) all_digits.
Proof.
  unfold all_digits.
  repeat (constructor; [|repeat (constructor; [simpl; lia|]); constructor]).
  constructor.
Qed.

Lemma all_digits_complete (d : digit) : In d all_digits.
Proof. destruct d; simpl; tauto. Qed.

(** The head of the sorted scores: a digit of maximal score, the lowest
    such digit. *)
Lemma sorted_scores_head (f : digit -> xnum) (h : digit * xnum)
      (rest : list (digit * xnum)) :
  (forall d, exact (f d)) ->
  Array_sort by_score (map (fun d => (d, f d)) all_digits) = h :: rest ->
  snd h = f (fst h)
  /\ (forall d, val (f d) <= val (snd h))
  /\ (forall d, val (f d) == val (snd h) ->
                (digit_to_nat (fst h) <= digit_to_nat d)%nat).
Proof.
  intros Hf Hsort.
  set (l := map (fun d => (d, f d)) all_digits) in *.
  set (ok := fun e : digit * xnum => exact (snd e)).
  assert (Hok : Forall ok l).
  { apply Forall_forall. intros e He. apply in_map_iff in He.
    destruct He as (d & <- & _). apply Hf. }
  assert (Hsorted : StronglySorted (may_precede by_score) (Array_sort by_score l)).
  { apply Array_sort_sorted with (ok := ok); [| |exact Hok].
    - intros x y Hx Hy Hxy.
      apply (by_score_iff x y Hx Hy) in Hxy. apply (by_score_iff y x Hy Hx). lra.
    - intros x y z Hx Hy Hz Hxy Hyz. unfold may_precede in *.
      apply (by_score_iff x y Hx Hy) in Hxy. apply (by_score_iff y z Hy Hz) in Hyz.
      apply (by_score_iff x z Hx Hz). lra. }
  assert (Hh : In h l) by (apply (Array_sort_In by_score); rewrite Hsort; left; reflexivity).
  assert (Hhf : snd h = f (fst h)).
  { apply in_map_iff in Hh. destruct Hh as (d & <- & _). reflexivity. }
  assert (Hhok : ok h) by (rewrite Forall_forall in Hok; apply Hok; exact Hh).
  split; [exact Hhf|]. split.
  - intro d.
    assert (Hd : In (d, f d) (Array_sort by_score l)).
    { apply Array_sort_In. apply in_map_iff. exists d.
      split; [reflexivity | apply all_digits_complete]. }
    rewrite Hsort in Hd, Hsorted.
    destruct Hd as [Heq | Hd]; [rewrite Heq; apply Qle_refl|].
    apply StronglySorted_inv in Hsorted. destruct Hsorted as [_ Hall].
    rewrite Forall_forall in Hall. specialize (Hall _ Hd).
    apply (by_score_iff h (d, f d) Hhok (Hf d)) in Hall. exact Hall.
  - intros d Hd.
    set (P := fun e : digit * xnum => strict_eq (snd e) (snd h)).
    assert (Hfilter : filter P (Array_sort by_score l) = filter P l).
    { apply Array_sort_filter with (ok := ok); [|exact Hok].
      intros x y Hx Hy Px Py. unfold P in Px, Py.
      apply (strict_eq_iff Hx Hhok) in Px. apply (strict_eq_iff Hy Hhok) in Py.
      apply (by_score_iff x y Hx Hy). lra. }
    assert (Ph : P h = true) by (apply (strict_eq_iff Hhok Hhok); reflexivity).
    rewrite Hsort in Hfilter. cbn [filter] in Hfilter. rewrite Ph in Hfilter.
    assert (Hl : StronglySorted
                   (fun a b : digit * xnum =>
                      (digit_to_nat (fst a) < digit_to_nat (fst b))%nat) l).
    { subst l. apply StronglySorted_map. exact all_digits_in_order. }
    assert (Hin : In (d, f d) l).
    { apply in_map_iff. exists d. split; [reflexivity | apply all_digits_complete]. }
    assert (Pd : P (d, f d) = true).
    { apply (strict_eq_iff (Hf d) Hhok). exact Hd. }
    destruct (filter_head_first _ P l h _ Hl (eq_sym Hfilter) (d, f d) Hin Pd)
      as [Heq | Hlt]; [rewrite <- Heq|]; cbn [fst] in *; lia.
Qed.

(** The weighted sum, in the operand order of the source and in that of
    the specification. *)
Lemma weighted_sum_exact (W M F : xnum) :
  exact W -> exact M -> exact F ->
  exact (lit 0.5 * W + lit 0.35 * M + lit 0.15 * F)%js
  /\ (W * lit 0.5 + M * lit 0.35 + F * lit 0.15)%js
     = (lit 0.5 * W + lit 0.35 * M + lit 0.15 * F)%js.
Proof.
  intros HW HM HF.
  destruct (exact_mul HW (proj1 (exact_lit 0.5))) as [H1 V1].
  destruct (exact_mul HM (proj1 (exact_lit 0.35))) as [H2 V2].
  destruct (exact_mul HF (proj1 (exact_lit 0.15))) as [H3 V3].
  destruct (exact_mul (proj1 (exact_lit 0.5)) HW) as [H1' V1'].
  destruct (exact_mul (proj1 (exact_lit 0.35)) HM) as [H2' V2'].
  destruct (exact_mul (proj1 (exact_lit 0.15)) HF) as [H3' V3'].
  destruct (exact_add H1 H2) as [H12 V12].
  destruct (exact_add H1' H2') as [H12' V12'].
  destruct (exact_add H12 H3) as [H123 V123].
  destruct (exact_add H12' H3') as [H123' V123'].
  split; [exact H123'|].
  apply exact_eq; [exact H123 | exact H123'|].
  rewrite V123, V123', V12, V12', V1, V1', V2, V2', V3, V3'. ring.
Qed.

Lemma ensemble_spec (history currentDigits : list digit) (lastDigit : digit)
      (markovProbs : list xnum) :
  let this := new_MultiStepPredictor history in
  last_error currentDigits = Some lastDigit ->
  nth_error (markovChain this) (digit_to_nat lastDigit) = Some markovProbs ->
  (forall d, exact (ensemble_score this currentDigits d))
  /\ ensemble this markovProbs currentDigits
     = map (fun d => (d, ensemble_score this currentDigits d)) all_digits.
Proof.
  intros this Hlast Hrow.
  assert (Hne : currentDigits <> []) by (intros ->; discriminate).
  pose proof (trained_confidences_exact history) as Htable.
  assert (Hcells : length markovProbs = 10%nat
                   /\ Forall (fun x => exact x /\ val x <= 100) markovProbs).
  { apply (buildEnhancedMarkov_cells history). eapply nth_error_In. exact Hrow. }
  destruct Hcells as [Hlen Hcells].
  assert (Hscore : forall d,
             exact (ensemble_score this currentDigits d)
             /\ totalScore (fst (predictNext currentDigits (patternRecognizer this)))
                           markovProbs (analyzeFrequency currentDigits) d
                = ensemble_score this currentDigits d).
  { intro d. unfold totalScore, ensemble_score. cbv zeta.
    rewrite (predictNext_weight (patternRecognizer this) currentDigits d Htable).
    destruct (analyzeFrequency_nth currentDigits d Hne) as [-> HF].
    assert (HM : nth_or_zero markovProbs (digit_to_nat d)
                 = markov_probability (markovChain this) currentDigits d
                 /\ exact (markov_probability (markovChain this) currentDigits d)).
    { unfold markov_probability. rewrite Hlast.
      rewrite (nth_error_nth _ _ [] Hrow).
      unfold nth_or_zero, nth_num.
      rewrite (nth_error_nth' markovProbs nan)
        by (rewrite Hlen; apply digit_to_nat_lt).
      assert (Hx : exact (nth (digit_to_nat d) markovProbs nan)).
      { rewrite Forall_forall in Hcells. apply Hcells. apply nth_In.
        rewrite Hlen. apply digit_to_nat_lt. }
      split; [apply or_zero_exact; exact Hx | exact Hx]. }
    destruct HM as [-> HM].
    pose proof (pattern_weight_exact (patternRecognizer this) currentDigits d Htable)
      as HW.
    destruct (weighted_sum_exact _ _ _ HW HM HF) as [He Heq].
    split; [exact He | exact Heq]. }
  split; [intro d; apply Hscore|].
  unfold ensemble. apply map_ext. intro d. f_equal. apply Hscore.
Qed.



(* ================================================================= *)
(** * Division by zero in binary64 *)

Local Close Scope Q_scope.

Module F64Facts.

Import SpecFloat FloatOps.

Lemma of_spec (x : float) (s : spec_float) : Prim2SF x = s -> x = SF2Prim s.
Proof. intros <-. symmetry. apply FloatAxioms.SF2Prim_Prim2SF. Qed.

Lemma Prim2SF_nan : Prim2SF PrimFloat.nan = S754_nan.
Proof. reflexivity. Qed.

Lemma Prim2SF_zero : Prim2SF 0%float = S754_zero false.
Proof. reflexivity. Qed.

(** NaN propagates through the arithmetic and fails every comparison. *)
Lemma sub_nan_l (x : float) : PrimFloat.sub PrimFloat.nan x = PrimFloat.nan.
Proof.
  apply (of_spec _ S754_nan). rewrite FloatAxioms.sub_spec, Prim2SF_nan.
  reflexivity.
Qed.

Lemma div_nan_l (x : float) : PrimFloat.div PrimFloat.nan x = PrimFloat.nan.
Proof.
  apply (of_spec _ S754_nan). rewrite FloatAxioms.div_spec, Prim2SF_nan.
  reflexivity.
Qed.

Lemma ltb_nan_r (x : float) : PrimFloat.ltb x PrimFloat.nan = false.
Proof.
  rewrite FloatAxioms.ltb_spec, Prim2SF_nan. unfold SFltb.
  destruct (Prim2SF x); reflexivity.
Qed.

(** A positive number: finite or +Infinity. *)
Definition positive (x : float) : Prop := PrimFloat.ltb 0%float x = true.

Lemma positive_spec (x : float) :
  positive x ->
  Prim2SF x = S754_infinity false \/ exists m e, Prim2SF x = S754_finite false m e.
Proof.
  unfold positive. rewrite FloatAxioms.ltb_spec, Prim2SF_zero. unfold SFltb.
  destruct (Prim2SF x) as [s|s| |s m e]; simpl; try discriminate.
  - destruct s; [discriminate|]. left. reflexivity.
  - destruct s; [discriminate|]. right. exists m, e. reflexivity.
Qed.

Lemma sub_zero_r (x : float) : positive x -> PrimFloat.sub x 0%float = x.
Proof.
  intro Hx. rewrite <- (FloatAxioms.SF2Prim_Prim2SF x) at 2.
  apply of_spec. rewrite FloatAxioms.sub_spec, Prim2SF_zero.
  destruct (positive_spec x Hx) as [-> | (m & e & ->)]; reflexivity.
Qed.

Lemma abs_positive (x : float) : positive x -> PrimFloat.abs x = x.
Proof.
  intro Hx. rewrite <- (FloatAxioms.SF2Prim_Prim2SF x) at 2.
  apply of_spec. rewrite FloatAxioms.abs_spec.
  destruct (positive_spec x Hx) as [-> | (m & e & ->)]; reflexivity.
Qed.

Lemma div_zero_r (x : float) : positive x -> PrimFloat.div x 0%float = infinity.
Proof.
  intro Hx. apply (of_spec _ (S754_infinity false)).
  rewrite FloatAxioms.div_spec, Prim2SF_zero.
  destruct (positive_spec x Hx) as [-> | (m & e & ->)]; reflexivity.
Qed.

End F64Facts.

(** The operations of the interface, at binary64, as the primitives. *)
Ltac binary64 :=
  change (@sub float float_Number) with PrimFloat.sub in *;
  change (@add float float_Number) with PrimFloat.add in *;
  change (@mul float float_Number) with PrimFloat.mul in *;
  change (@div float float_Number) with PrimFloat.div in *;
  change (@lt float float_Number) with PrimFloat.ltb in *;
  change (@Math_abs float float_Number) with PrimFloat.abs in *;
  change (@nan float float_Number) with PrimFloat.nan in *.

Section DivisionByZero.

Import Detector.

Variable this : AnomalyDetector float.

Lemma analyzeFrequency_empty :
  analyzeFrequency (num := float) [] = repeat PrimFloat.nan 10.
Proof. vm_compute. reflexivity. Qed.

Lemma frequencyAnomaly_nan (digit : nat) :
  frequencyAnomaly this digit PrimFloat.nan = [].
Proof.
  unfold frequencyAnomaly. cbv zeta. binary64.
  rewrite F64Facts.sub_nan_l.
  change (PrimFloat.abs PrimFloat.nan) with PrimFloat.nan.
  rewrite F64Facts.div_nan_l.
  change (PrimFloat.mul PrimFloat.nan (lit 100)) with PrimFloat.nan.
  rewrite F64Facts.ltb_nan_r. reflexivity.
Qed.

Lemma volatilityAnomaly_nan :
  volatilityAnomaly this (repeat PrimFloat.nan 10) = [].
Proof.
  unfold volatilityAnomaly. cbv zeta.
  assert (Hvol : calculateStdDev (repeat PrimFloat.nan 10) (lit 10) = PrimFloat.nan)
    by (vm_compute; reflexivity).
  rewrite Hvol. binary64.
  rewrite F64Facts.sub_nan_l.
  change (PrimFloat.abs PrimFloat.nan) with PrimFloat.nan.
  rewrite F64Facts.ltb_nan_r. reflexivity.
Qed.

Lemma detect_empty : detect this [] = [].
Proof.
  unfold detect, detected. cbv zeta. rewrite analyzeFrequency_empty.
  rewrite volatilityAnomaly_nan.
  assert (Hdist : distributionAnomaly (repeat PrimFloat.nan 10) = [])
    by (vm_compute; reflexivity).
  rewrite Hdist.
  unfold mapi. cbn [repeat length seq combine map fst snd concat].
  rewrite !frequencyAnomaly_nan. reflexivity.
Qed.

End DivisionByZero.

Lemma mapi_nth_In {A B} (f : nat -> A -> B) (a : list A) (j : nat) (x : A) :
  nth_error a j = Some x -> In (f j x) (mapi f a).
Proof.
  intro Hj. unfold mapi. apply in_map_iff. exists (j, x). split; [reflexivity|].
  assert (Hgen : forall s, In (s + j, x) (combine (seq s (length a)) a)).
  { revert j Hj. induction a as [|y a IH]; intros j Hj s; [destruct j; discriminate|].
    destruct j as [|j]; simpl in Hj |- *.
    - injection Hj as ->. left. rewrite Nat.add_0_r. reflexivity.
    - right. replace (s + S j) with (S s + j) by lia. apply IH. exact Hj. }
  apply (Hgen 0).
Qed.

Lemma analyzeFrequency_length {num} `{Number num} (digits : list digit) :
  length (Detector.analyzeFrequency digits) = 10.
Proof.
  unfold Detector.analyzeFrequency. cbv zeta. rewrite length_map.
  apply (count_digits_spec digits D0).
Qed.

Section ZeroBaseline.

Import Detector.

Variable this : AnomalyDetector float.
Variable recentDigits : list digit.

(** The frequency anomaly of a digit whose baseline frequency is 0 and
    that occurs in [recentDigits]. *)
Definition infinite_frequency_anomaly (digit : nat) : Anomaly.t float :=
  {| Anomaly.type := Anomaly.frequency;
     Anomaly.severity := Anomaly.critical;
     Anomaly.description := Anomaly.FrequencyDescription digit infinity true;
     Anomaly.affectedDigits := [Z.of_nat digit];
     Anomaly.recommendation := Anomaly.ConsiderDiffering digit |}.

(** The volatility anomaly when the baseline volatility is 0. *)
Definition infinite_volatility_anomaly : Anomaly.t float :=
  {| Anomaly.type := Anomaly.volatility;
     Anomaly.severity := Anomaly.high;
     Anomaly.description := Anomaly.VolatilityDescription true infinity;
     Anomaly.affectedDigits := [];
     Anomaly.recommendation := Anomaly.ReduceStake |}.

Lemma frequencyAnomaly_zero_baseline (digit : nat) (freq : float) :
  nth_num (baselineFrequency this) digit = 0%float ->
  F64Facts.positive freq ->
  frequencyAnomaly this digit freq = [infinite_frequency_anomaly digit].
Proof.
  intros Hbase Hfreq. unfold frequencyAnomaly. cbv zeta. rewrite Hbase. binary64.
  rewrite (F64Facts.sub_zero_r freq Hfreq), (F64Facts.abs_positive freq Hfreq),
    (F64Facts.div_zero_r freq Hfreq).
  change (PrimFloat.mul infinity (lit 100)) with infinity.
  change (PrimFloat.ltb (lit 50) infinity) with true.
  change (PrimFloat.ltb (lit 100) infinity) with true.
  unfold F64Facts.positive in Hfreq. rewrite Hfreq. reflexivity.
Qed.

Lemma detect_zero_baseline_frequency (d : digit) :
  nth_num (baselineFrequency this) (digit_to_nat d) = 0%float ->
  F64Facts.positive (nth_num (analyzeFrequency recentDigits) (digit_to_nat d)) ->
  In (infinite_frequency_anomaly (digit_to_nat d)) (detect this recentDigits).
Proof.
  intros Hbase Hfreq. unfold detect. apply Array_sort_In. unfold detected. cbv zeta.
  apply in_or_app. left. apply in_concat.
  exists (frequencyAnomaly this (digit_to_nat d)
                           (nth_num (analyzeFrequency recentDigits) (digit_to_nat d))).
  split.
  - apply mapi_nth_In. unfold nth_num. apply nth_error_nth'.
    rewrite analyzeFrequency_length. apply digit_to_nat_lt.
  - rewrite (frequencyAnomaly_zero_baseline _ _ Hbase Hfreq). left. reflexivity.
Qed.

Lemma detect_zero_baseline_volatility :
  baselineVolatility this = 0%float ->
  F64Facts.positive (calculateStdDev (analyzeFrequency recentDigits) (lit 10)) ->
  In infinite_volatility_anomaly (detect this recentDigits).
Proof.
  intros Hbase Hvol. unfold detect. apply Array_sort_In. unfold detected. cbv zeta.
  apply in_or_app. right. apply in_or_app. left.
  unfold volatilityAnomaly. cbv zeta. rewrite Hbase.
  set (currentVolatility := calculateStdDev (analyzeFrequency recentDigits) (lit 10)) in *.
  binary64.
  rewrite (F64Facts.sub_zero_r _ Hvol), (F64Facts.abs_positive _ Hvol),
    (F64Facts.div_zero_r _ Hvol).
  change (PrimFloat.mul 0%float (lit 0.5)) with 0%float.
  change (PrimFloat.mul infinity (lit 100)) with infinity.
  unfold F64Facts.positive in Hvol. rewrite Hvol. left. reflexivity.
Qed.

End ZeroBaseline.

(** C5, as the code has it.  [detect] signals nothing when a division by
    zero occurs; it returns the list built from the NaN and Infinity the
    divisions give.  On an empty [recentDigits] the frequencies are NaN,
    every comparison fails, and the list is empty, whatever the baseline.
    For a digit with baseline frequency 0 and a positive current frequency
    the percent change is Infinity and the list holds a critical frequency
    anomaly for it; with baseline volatility 0 and a positive current
    volatility it holds a high volatility anomaly, "increased by Infinity%". *)
Theorem detect_returns_on_division_by_zero (this : Detector.AnomalyDetector float) :
  Detector.detect this [] = []
  /\ (forall recentDigits d,
         nth_num (Detector.baselineFrequency this) (digit_to_nat d) = 0%float ->
         F64Facts.positive
           (nth_num (Detector.analyzeFrequency recentDigits) (digit_to_nat d)) ->
         In (infinite_frequency_anomaly (digit_to_nat d))
            (Detector.detect this recentDigits))
  /\ (forall recentDigits,
         Detector.baselineVolatility this = 0%float ->
         F64Facts.positive
           (Detector.calculateStdDev (Detector.analyzeFrequency recentDigits) (lit 10)) ->
         In infinite_volatility_anomaly (Detector.detect this recentDigits)).
Proof.
  split; [apply detect_empty|]. split.
  - intros recentDigits d. apply detect_zero_baseline_frequency.
  - intros recentDigits. apply detect_zero_baseline_volatility.
Qed.

(** C5, as the specification states it, does not hold.  On the empty sequence the
    frequencies divide 0 by 0 and [detect], never calibrated, returns the
    empty list; calibrated on [1, 1] the baseline frequency of 0 is 0, and
    [detect([0])] returns a list that starts with a critical frequency
    anomaly "Digit 0 appearing Infinity% above normal rate". *)
Lemma detect_returns_silently :
  Detector.analyzeFrequency (num := float) [] = repeat PrimFloat.nan 10
  /\ Detector.detect (num := float) Detector.new_AnomalyDetector [] = []
  /\ nth_num (Detector.baselineFrequency (num := float) (Detector.calibrate [D1; D1])) 0
     = 0%float
  /\ hd_error (Detector.detect (num := float) (Detector.calibrate [D1; D1]) [D0])
     = Some (infinite_frequency_anomaly 0).
Proof. repeat split; vm_compute; reflexivity. Qed.

(* ================================================================= *)
(** * The embedding at work *)

(** [train([1,2,1,2,3])] on a fresh recognizer stores [1,2] with frequency
    2, last seen at index 2, confidence 0.6 * 400 + 0.4 * 40. *)
Example train_example :
  lookup [D1; D2] (snd (train (num := float) example_corpus []))
  = Some {| sequence := [D1; D2];
            frequency := 2;
            confidence := 256%float;
            lastSeen := 2;
            successRate := 0%float |}.
Proof. vm_compute. reflexivity. Qed.

(** After [1,2,1,2,3] every transition out of 1 goes to 2: the cell is
    capped at 100. *)
Example markov_example :
  nth_num (nth 1 (buildEnhancedMarkov (num := xnum) example_corpus) []) 2 = Fin 100.
Proof. vm_compute. reflexivity. Qed.

(** Six consecutive 7s give the two pattern anomalies of the streaks of
    length 5 and 6. *)
Example streak_example :
  Detector.detectUnusualPatterns [D7; D7; D7; D7; D7; D7]
  = [Anomaly.Streak 5 D7; Anomaly.Streak 6 D7].
Proof. reflexivity. Qed.

(** The last four digits 6, 7, 8, 9 ascend; the last six of 1, 2, 1, 2, 1, 2
    alternate. *)
Example ascending_example :
  Detector.detectUnusualPatterns [D0; D1; D2; D3; D4; D5; D6; D7; D8; D9]
  = [Anomaly.Ascending [D6; D7; D8; D9]].
Proof. reflexivity. Qed.

Example alternation_example :
  Detector.detectUnusualPatterns [D1; D2; D1; D2; D1; D2]
  = [Anomaly.Alternation D1 D2].
Proof. reflexivity. Qed.

(** [predictNextN] on an empty sequence throws, unless no step is asked
    for. *)
Example predictNextN_empty :
  predictNextN (num := float) (new_MultiStepPredictor example_corpus) [] 5 = None
  /\ predictNextN (num := float) (new_MultiStepPredictor example_corpus) [] 0 = Some [].
Proof. split; vm_compute; reflexivity. Qed.

(** The fixed-payout scenario in binary64, with the predictor built from
    sixty 3s: nine true positives, no false positive, accuracy 100.  The
    profit there is the rounded running sum of [constant_three_tally]. *)
Example constant_three_binary64 :
  option_map (fun r => (truePositives r, falsePositives r, accuracy r))
             (backtest (num := float) (new_MultiStepPredictor (repeat D3 60))
                       (repeat D3 60) Match)
  = Some (9, 0, 100%float).
Proof. vm_compute. reflexivity. Qed.

(* ================================================================= *)
(** * More on [predictNextN] *)

Section PredictorMore.

Context {num : Type} `{Number num} `{MathPow num}.

(** The prediction with its [step] field replaced. *)
Definition renumber (step : nat) (p : MultiStepPrediction.t num) : MultiStepPrediction.t num :=
  {| MultiStepPrediction.step := step;
     MultiStepPrediction.digit := MultiStepPrediction.digit p;
     MultiStepPrediction.probability := MultiStepPrediction.probability p;
     MultiStepPrediction.confidence := MultiStepPrediction.confidence p;
     MultiStepPrediction.method := MultiStepPrediction.method p |}.

(** The step number enters a prediction through its [step] field only. *)
Lemma predict_step_renumber (this : MultiStepPredictor num) (step step' : nat)
      (currentDigits : list digit) (p : MultiStepPrediction.t num) :
  predict_step this step currentDigits = Some p ->
  predict_step this step' currentDigits = Some (renumber step' p).
Proof.
  unfold predict_step.
  destruct (last_error currentDigits) as [lastDigit|]; [|discriminate].
  destruct (nth_error (markovChain this) (digit_to_nat lastDigit)) as [row|];
    [|discriminate].
  destruct (Array_sort _ (ensemble this row currentDigits)) as [|[d sc] rest];
    [discriminate|].
  intro Hp. injection Hp as <-. reflexivity.
Qed.

Lemma predict_step_empty (this : MultiStepPredictor num) (step : nat) :
  predict_step this step [] = None.
Proof. reflexivity. Qed.

(** Before step 3 the loop never breaks, and a break at step 3 costs
    nothing when step 3 is the last one asked for. *)
Lemma predict_loop_full (this : MultiStepPredictor num) :
  well_formed this ->
  forall remaining step predictions currentDigits,
    currentDigits <> [] -> step + remaining <= 4 ->
    exists emitted,
      predict_loop this remaining step predictions currentDigits
      = Some (predictions ++ emitted)
      /\ length emitted = remaining.
Proof.
  intro Hwf. induction remaining as [|remaining IH];
    intros step predictions currentDigits Hcur Hle.
  - exists []. cbn [predict_loop]. rewrite app_nil_r. split; reflexivity.
  - cbn [predict_loop].
    destruct (predict_step_total (this := this) step Hwf Hcur) as (p & -> & _).
    assert (Hcur' : currentDigits ++ [MultiStepPrediction.digit p] <> [])
      by (intro Hnil; apply app_eq_nil in Hnil; destruct Hnil; discriminate).
    destruct (MultiStepPrediction.is_low (MultiStepPrediction.confidence p)
              && (3 <=? step)) eqn:Hbreak.
    + apply andb_true_iff in Hbreak. destruct Hbreak as [_ Hstep].
      apply Nat.leb_le in Hstep.
      exists [p]. split; [reflexivity|]. cbn [length]. lia.
    + destruct (IH (S step) (predictions ++ [p]) _ Hcur') as (emitted & -> & Hlen);
        [lia|].
      exists (p :: emitted). rewrite <- app_assoc. split; [reflexivity|].
      cbn [length]. rewrite Hlen. reflexivity.
Qed.

(** With fewer iterations to go the loop emits a prefix of what it emits
    with more. *)
Lemma predict_loop_prefix (this : MultiStepPredictor num) :
  forall remaining remaining' step predictions currentDigits emitted emitted',
    remaining <= remaining' ->
    predict_loop this remaining step predictions currentDigits
    = Some (predictions ++ emitted) ->
    predict_loop this remaining' step predictions currentDigits
    = Some (predictions ++ emitted') ->
    emitted = firstn remaining emitted'.
Proof.
  induction remaining as [|remaining IH];
    intros remaining' step predictions currentDigits emitted emitted' Hle Hr Hr'.
  - cbn [predict_loop] in Hr. injection Hr as Hr.
    rewrite <- (app_nil_r predictions) in Hr at 1.
    apply app_inv_head in Hr. subst emitted. reflexivity.
  - destruct remaining' as [|remaining']; [lia|].
    cbn [predict_loop] in Hr, Hr'.
    destruct (predict_step this step currentDigits) as [p|]; [|discriminate].
    destruct (MultiStepPrediction.is_low (MultiStepPrediction.confidence p)
              && (3 <=? step)).
    + injection Hr as Hr. injection Hr' as Hr'.
      apply app_inv_head in Hr, Hr'. subst emitted emitted'.
      cbn [firstn]. rewrite firstn_nil. reflexivity.
    + destruct (predict_loop_steps this _ _ _ _ _ Hr) as (e & He & _).
      destruct (predict_loop_steps this _ _ _ _ _ Hr') as (e' & He' & _).
      rewrite <- app_assoc in He, He'.
      apply app_inv_head in He, He'. subst emitted emitted'.
      cbn [app firstn]. f_equal.
      apply (IH remaining' (S step) (predictions ++ [p])
                (currentDigits ++ [MultiStepPrediction.digit p])); [lia| |].
      * rewrite Hr, <- app_assoc. reflexivity.
      * rewrite Hr', <- app_assoc. reflexivity.
Qed.

(** X1.  Asking for more steps only extends the answer: the predictions for
    [steps] are the first [steps] predictions for any larger request. *)
Theorem predictNextN_prefix (this : MultiStepPredictor num)
        (recentDigits : list digit) (steps steps' : Z) :
  well_formed this -> recentDigits <> [] -> (steps <= steps')%Z ->
  exists predictions predictions',
    predictNextN this recentDigits steps = Some predictions
    /\ predictNextN this recentDigits steps' = Some predictions'
    /\ predictions = firstn (Z.to_nat steps) predictions'.
Proof.
  intros Hwf Hrecent Hle.
  destruct (predictNextN_spec (this := this) steps Hwf Hrecent)
    as (predictions & Heq & _).
  destruct (predictNextN_spec (this := this) steps' Hwf Hrecent)
    as (predictions' & Heq' & _).
  exists predictions, predictions'. split; [exact Heq|]. split; [exact Heq'|].
  unfold predictNextN in Heq, Heq'.
  apply (predict_loop_prefix this (Z.to_nat steps) (Z.to_nat steps') 1 []
                             recentDigits predictions predictions');
    [lia|exact Heq|exact Heq'].
Qed.

(** X2.  The early exit cannot cut a short request: a request for at most
    three steps is answered in full (and a request for no or a negative
    number of steps with no prediction). *)
Theorem predictNextN_first_steps (this : MultiStepPredictor num)
        (recentDigits : list digit) (steps : Z) :
  well_formed this -> recentDigits <> [] -> (steps <= 3)%Z ->
  exists predictions,
    predictNextN this recentDigits steps = Some predictions
    /\ length predictions = Z.to_nat steps.
Proof.
  intros Hwf Hrecent Hle. unfold predictNextN.
  destruct (predict_loop_full this Hwf (Z.to_nat steps) 1 [] recentDigits Hrecent)
    as (emitted & Heq & Hlen); [lia|].
  exists emitted. split; assumption.
Qed.

(** X3.  The predictor feeds on its own output: prediction number [k + 1]
    of a multi-step call is what a one-step call answers on the recent
    digits followed by the [k] digits predicted before, the step number
    aside. *)
Theorem predictNextN_feeds_itself (this : MultiStepPredictor num)
        (recentDigits : list digit) (steps : Z)
        (predictions : list (MultiStepPrediction.t num))
        (k : nat) (p : MultiStepPrediction.t num) :
  predictNextN this recentDigits steps = Some predictions ->
  nth_error predictions k = Some p ->
  predictNextN this (recentDigits ++ digits_of (firstn k predictions)) 1
  = Some [renumber 1 p].
Proof.
  intros Hloop Hk.
  pose proof (predictNextN_steps this recentDigits steps predictions Hloop k p Hk)
    as Hstep.
  apply (predict_step_renumber this (S k) 1) in Hstep.
  unfold predictNextN. change (Z.to_nat 1) with 1.
  cbn [predict_loop]. rewrite Hstep.
  destruct (MultiStepPrediction.is_low _ && (3 <=? 1)); reflexivity.
Qed.

(** X4.  Without a single recent digit there is no last digit to look up:
    the call throws as soon as one step is asked for, and returns no
    prediction otherwise. *)
Theorem predictNextN_without_digits (this : MultiStepPredictor num) (steps : Z) :
  predictNextN this [] steps = if (1 <=? steps)%Z then None else Some [].
Proof.
  unfold predictNextN. destruct (Z.leb_spec 1 steps) as [Hle|Hlt].
  - destruct (Z.to_nat steps) as [|n] eqn:Hn; [lia|]. reflexivity.
  - replace (Z.to_nat steps) with 0 by lia. reflexivity.
Qed.

End PredictorMore.

Lemma predictNextN_prefix_witness :
  exists predictions predictions',
    predictNextN (num := float) (new_MultiStepPredictor [D1; D2; D1; D2; D3])
                 [D1; D2] 2 = Some predictions
    /\ predictNextN (num := float) (new_MultiStepPredictor [D1; D2; D1; D2; D3])
                    [D1; D2] 5 = Some predictions'
    /\ predictions = firstn (Z.to_nat 2) predictions'.
Proof.
  apply (@predictNextN_prefix float _
           (new_MultiStepPredictor [D1; D2; D1; D2; D3]) [D1; D2] 2%Z 5%Z).
  - apply new_MultiStepPredictor_well_formed.
  - discriminate.
  - lia.
Defined.

Lemma predictNextN_first_steps_witness :
  exists predictions,
    predictNextN (num := float) (new_MultiStepPredictor []) [D7] 3 = Some predictions
    /\ length predictions = Z.to_nat 3.
Proof.
  apply (@predictNextN_first_steps float _ (new_MultiStepPredictor []) [D7] 3%Z).
  - apply new_MultiStepPredictor_well_formed.
  - discriminate.
  - lia.
Defined.

Definition prefix_example : list (MultiStepPrediction.t float) :=
  Eval vm_compute in
    match predictNextN (num := float) (new_MultiStepPredictor [D1; D2; D1; D2; D3])
                       [D1; D2] 3 with
    | Some predictions => predictions
    | None => []
    end.

Definition prefix_example_third : MultiStepPrediction.t float :=
  Eval vm_compute in
    match prefix_example with
    | [_; _; p] => p
    | _ => {| MultiStepPrediction.step := 0;
              MultiStepPrediction.digit := D0;
              MultiStepPrediction.probability := 0%float;
              MultiStepPrediction.confidence := MultiStepPrediction.low;
              MultiStepPrediction.method := EmptyString |}
    end.

Lemma predictNextN_feeds_itself_witness :
  predictNextN (num := float) (new_MultiStepPredictor [D1; D2; D1; D2; D3])
               ([D1; D2] ++ digits_of (firstn 2 prefix_example)) 1
  = Some [renumber 1 prefix_example_third].
Proof.
  apply (@predictNextN_feeds_itself float _
           (new_MultiStepPredictor [D1; D2; D1; D2; D3]) [D1; D2] 3%Z
           prefix_example 2 prefix_example_third);
    vm_compute; reflexivity.
Defined.

(* ================================================================= *)
(** * More on [BacktestingEngine] *)

Section BacktestMore.

Context {num : Type} `{Number num}.

(** The counters before the loop of [backtest]. *)
Definition initial_tally : Tally num :=
  {| tally_truePositives := 0;
     tally_falsePositives := 0;
     tally_profitLoss := lit 0 |}.

Lemma backtest_with_metrics
      (predictor : list digit -> Z -> option (list (MultiStepPrediction.t num)))
      (testData : list digit) (strategy : Strategy) (r : BacktestResult num) :
  backtest_with predictor testData strategy = Some r ->
  exists t,
    backtest_loop predictor testData strategy (scored_indices testData) initial_tally
    = Some t
    /\ r = metrics t.
Proof.
  unfold backtest_with. fold initial_tally.
  destruct (backtest_loop predictor testData strategy (scored_indices testData)
                          initial_tally) as [t|]; [|discriminate].
  intro Hr. injection Hr as <-. exists t. split; reflexivity.
Qed.

Lemma hit_is_miss_of_the_other
      (predictor : list digit -> Z -> option (list (MultiStepPrediction.t num)))
      (testData : list digit) (i : nat) :
  is_hit predictor testData Match i = is_miss predictor testData Differ i
  /\ is_miss predictor testData Match i = is_hit predictor testData Differ i.
Proof.
  unfold is_hit, is_miss, outcome, wins.
  destruct (predictor (slice 0 i testData) 1%Z) as [[|p rest]|];
    [split; reflexivity| |split; reflexivity].
  destruct (same_digit (MultiStepPrediction.digit p) (nth_error testData i));
    split; reflexivity.
Qed.

Lemma hit_or_miss `{MathPow num} (this : MultiStepPredictor num)
      (testData : list digit) (strategy : Strategy) (i : nat) :
  well_formed this -> In i (scored_indices testData) ->
  is_miss (predictNextN this) testData strategy i
  = negb (is_hit (predictNextN this) testData strategy i).
Proof.
  intros Hwf Hi. unfold is_hit, is_miss, outcome.
  destruct (predictNextN_on_scored_history testData i Hwf Hi) as (p & rest & ->).
  destruct (wins strategy _ _); reflexivity.
Qed.

Lemma filter_split_length (A : Type) (f g : A -> bool) (l : list A) :
  (forall x, In x l -> g x = negb (f x)) ->
  length (filter f l) + length (filter g l) = length l.
Proof.
  induction l as [|x l IH]; intro Hfg; [reflexivity|].
  cbn [filter]. rewrite (Hfg x (or_introl eq_refl)).
  specialize (IH (fun y Hy => Hfg y (or_intror Hy))).
  destruct (f x); cbn [negb length]; lia.
Qed.

(** X5.  The two strategies [compareStrategies] runs are complementary:
    on every scored index the predictor answers, exactly one of them wins,
    so the wins of one are the losses of the other and together they cover
    the [length - 51] scored indices. *)
Theorem compareStrategies_complementary `{MathPow num}
        (this : MultiStepPredictor num) (testData : list digit) :
  well_formed this ->
  exists matchResult differResult,
    compareStrategies this testData
    = Some [ {| Comparison.strategy := "Match";
                Comparison.result := matchResult |};
             {| Comparison.strategy := "Differ";
                Comparison.result := differResult |} ]
    /\ truePositives matchResult = falsePositives differResult
    /\ falsePositives matchResult = truePositives differResult
    /\ truePositives matchResult + falsePositives matchResult
       = length testData - 51.
Proof.
  intro Hwf. unfold compareStrategies, backtest.
  destruct (backtest_with (predictNextN this) testData Match) as [m|] eqn:Hm.
  2:{ exfalso. unfold backtest_with in Hm.
      destruct (backtest_loop_returns testData Match (this := this)
                  (scored_indices testData) initial_tally Hwf (fun i Hi => Hi))
        as (t & Ht).
      unfold initial_tally in Ht. rewrite Ht in Hm. discriminate. }
  destruct (backtest_with (predictNextN this) testData Differ) as [d|] eqn:Hd.
  2:{ exfalso. unfold backtest_with in Hd.
      destruct (backtest_loop_returns testData Differ (this := this)
                  (scored_indices testData) initial_tally Hwf (fun i Hi => Hi))
        as (t & Ht).
      unfold initial_tally in Ht. rewrite Ht in Hd. discriminate. }
  exists m, d. split; [reflexivity|].
  apply backtest_with_metrics in Hm, Hd.
  destruct Hm as (tm & Hm & ->), Hd as (td & Hd & ->).
  apply backtest_loop_counts in Hm, Hd.
  destruct Hm as [Hmt Hmf], Hd as [Hdt Hdf].
  cbn [metrics truePositives falsePositives initial_tally
       tally_truePositives tally_falsePositives] in *.
  rewrite Hmt, Hmf, Hdt, Hdf. cbn [Nat.add].
  assert (Hhit : filter (is_hit (predictNextN this) testData Match)
                        (scored_indices testData)
                 = filter (is_miss (predictNextN this) testData Differ)
                          (scored_indices testData)).
  { apply filter_ext. intro i. apply hit_is_miss_of_the_other. }
  assert (Hmiss : filter (is_miss (predictNextN this) testData Match)
                         (scored_indices testData)
                  = filter (is_hit (predictNextN this) testData Differ)
                           (scored_indices testData)).
  { apply filter_ext. intro i. apply hit_is_miss_of_the_other. }
  split; [rewrite Hhit; reflexivity|]. split; [rewrite Hmiss; reflexivity|].
  rewrite (filter_split_length _ _ _ _
             (fun i Hi => hit_or_miss this testData Match i Hwf Hi)).
  unfold scored_indices. rewrite length_seq. lia.
Qed.

End BacktestMore.

Lemma compareStrategies_complementary_witness :
  exists matchResult differResult,
    compareStrategies (num := float) (new_MultiStepPredictor [D1; D2; D1])
                      (repeat D3 55 ++ [D4; D3; D4])
    = Some [ {| Comparison.strategy := "Match";
                Comparison.result := matchResult |};
             {| Comparison.strategy := "Differ";
                Comparison.result := differResult |} ]
    /\ truePositives matchResult = falsePositives differResult
    /\ falsePositives matchResult = truePositives differResult
    /\ truePositives matchResult + falsePositives matchResult
       = length (repeat D3 55 ++ [D4; D3; D4]) - 51.
Proof.
  apply (@compareStrategies_complementary float _ _
           (new_MultiStepPredictor [D1; D2; D1]) (repeat D3 55 ++ [D4; D3; D4])).
  apply new_MultiStepPredictor_well_formed.
Defined.

Section BacktestEdge.

Variable predictor : list digit -> Z -> option (list (MultiStepPrediction.t float)).

(** X6.  With at most 51 observations no index is scored: the predictor is
    not consulted (the call returns even with a predictor that always
    throws), the counts and the profit are 0, and the four ratios are
    0 / 0, that is NaN in binary64. *)
Theorem backtest_too_short (testData : list digit) (strategy : Strategy) :
  length testData <= 51 ->
  backtest_with predictor testData strategy
  = Some {| accuracy := PrimFloat.nan;
            precision := PrimFloat.nan;
            recall := PrimFloat.nan;
            f1Score := PrimFloat.nan;
            truePositives := 0;
            falsePositives := 0;
            trueNegatives := 0;
            falseNegatives := 0;
            profitLoss := 0%float |}.
Proof.
  intro Hshort. unfold backtest_with, scored_indices.
  replace (length testData - 1 - 50) with 0 by lia.
  vm_compute. reflexivity.
Qed.

End BacktestEdge.

Lemma backtest_too_short_witness :
  backtest_with (num := float) (fun _ _ => None) (repeat D3 51) Differ
  = Some {| accuracy := PrimFloat.nan;
            precision := PrimFloat.nan;
            recall := PrimFloat.nan;
            f1Score := PrimFloat.nan;
            truePositives := 0;
            falsePositives := 0;
            trueNegatives := 0;
            falseNegatives := 0;
            profitLoss := 0%float |}.
Proof.
  apply (backtest_too_short (fun _ _ => None) (repeat D3 51) Differ).
  vm_compute. reflexivity.
Defined.

Section BacktestExact.

Local Open Scope Q_scope.

Variable predictor : list digit -> Z -> option (list (MultiStepPrediction.t xnum)).
Variable testData : list digit.
Variable strategy : Strategy.

(** A count as a rational number. *)
Definition qnat (n : nat) : Q := inject_Z (Z.of_nat n).

Lemma qnat_S (n : nat) : qnat (S n) == qnat n + 1.
Proof.
  unfold qnat. rewrite Nat2Z.inj_succ, <- Z.add_1_r, inject_Z_plus. reflexivity.
Qed.

(** What a win pays: [0.95] with [match], [0.9] with [differ]. *)
Definition payout (s : Strategy) : Q :=
  match s with
  | Match => 0.95
  | Differ => 0.9
  end.

(** The balance the loop keeps: profit = payout * wins - losses. *)
Definition balanced (t : Tally xnum) : Prop :=
  exact (tally_profitLoss t)
  /\ val (tally_profitLoss t)
     == payout strategy * qnat (tally_truePositives t) - qnat (tally_falsePositives t).

Lemma settle_balanced (predicted : digit) (actual : option digit) (t : Tally xnum) :
  balanced t -> balanced (settle strategy predicted actual t).
Proof.
  intros [He Hv]. unfold balanced, settle, payout in *.
  destruct strategy; destruct (same_digit predicted actual);
    cbn [negb win lose tally_profitLoss tally_truePositives tally_falsePositives].
  - destruct (exact_add He (proj1 (exact_lit 0.95))) as [He' Hv'].
    split; [exact He'|]. rewrite Hv', Hv, (proj2 (exact_lit 0.95)), qnat_S. ring.
  - destruct (exact_sub He (proj1 (exact_lit 1))) as [He' Hv'].
    split; [exact He'|]. rewrite Hv', Hv, (proj2 (exact_lit 1)), qnat_S. ring.
  - destruct (exact_sub He (proj1 (exact_lit 1))) as [He' Hv'].
    split; [exact He'|]. rewrite Hv', Hv, (proj2 (exact_lit 1)), qnat_S. ring.
  - destruct (exact_add He (proj1 (exact_lit 0.9))) as [He' Hv'].
    split; [exact He'|]. rewrite Hv', Hv, (proj2 (exact_lit 0.9)), qnat_S. ring.
Qed.

Lemma backtest_loop_balanced (indices : list nat) (t t' : Tally xnum) :
  balanced t ->
  backtest_loop predictor testData strategy indices t = Some t' ->
  balanced t'.
Proof.
  revert t. induction indices as [|i indices IH]; intros t Ht Hloop;
    cbn [backtest_loop] in Hloop.
  - injection Hloop as <-. exact Ht.
  - destruct (backtest_step predictor testData strategy t i) as [t1|] eqn:Hstep;
      [|discriminate].
    apply (IH t1); [|exact Hloop].
    unfold backtest_step in Hstep.
    destruct (predictor (slice 0 i testData) 1%Z) as [[|p rest]|]; [| |discriminate];
      injection Hstep as <-; [exact Ht|].
    apply settle_balanced. exact Ht.
Qed.


(** X8.  With [trueNegatives] and [falseNegatives] fixed at 0 the metrics
    degenerate: accuracy and precision are the same number, and recall is
    100 as soon as there is one win; without a win recall and the F1 score
    are NaN. *)
Theorem backtest_metrics_degenerate (r : BacktestResult xnum) :
  backtest_with predictor testData strategy = Some r ->
  accuracy r = precision r
  /\ (truePositives r <> 0%nat -> recall r = lit 100)
  /\ (truePositives r = 0%nat -> recall r = NaN /\ f1Score r = NaN).
Proof.
  intro Hr. apply backtest_with_metrics in Hr. destruct Hr as (t & _ & ->).
  cbn [metrics accuracy precision recall f1Score truePositives].
  rewrite !Nat.add_0_r. split; [reflexivity|]. split.
  - intro Hn0.
    pose proof (of_nat_nonzero Hn0) as Hnz.
    destruct (exact_div (proj1 (exact_of_nat (tally_truePositives t)))
                        (proj1 (exact_of_nat (tally_truePositives t))) Hnz)
      as [He1 Hv1].
    destruct (exact_mul He1 (proj1 (exact_lit 100))) as [He2 Hv2].
    apply exact_eq; [exact He2 | apply exact_lit|].
    rewrite Hv2, Hv1, !(proj2 (exact_lit 100)). field. exact Hnz.
  - intros ->. split; [reflexivity|].
    change (of_nat 0 / of_nat 0 * lit 100)%js with (NaN : xnum).
    destruct (lit 2 * (of_nat 0 / of_nat (0 + tally_falsePositives t) * lit 100))%js;
      reflexivity.
Qed.

End BacktestExact.

Definition differ_example : BacktestResult xnum :=
  Eval vm_compute in
    match backtest (num := xnum) (new_MultiStepPredictor [D1; D2; D1])
                   (repeat D3 55 ++ [D4; D3; D4]) Differ with
    | Some r => r
    | None => metrics initial_tally
    end.


Lemma backtest_metrics_degenerate_witness :
  accuracy differ_example = precision differ_example
  /\ (truePositives differ_example <> 0 -> recall differ_example = lit 100)
  /\ (truePositives differ_example = 0 ->
      recall differ_example = NaN /\ f1Score differ_example = NaN).
Proof.
  apply (backtest_metrics_degenerate
           (predictNextN (new_MultiStepPredictor [D1; D2; D1]))
           (repeat D3 55 ++ [D4; D3; D4]) Differ differ_example).
  vm_compute. reflexivity.
Defined.

(* ================================================================= *)
(** * More on [NeuralPatternRecognizer] *)

Section RecognizerMore.

Context {num : Type} `{Number num}.

(** *** The keys of the table *)

Lemma lookup_keys (k : key) (t : table num) :
  lookup k t <> None <-> In k (map fst t).
Proof.
  induction t as [|[k0 p0] t IH]; cbn [lookup map fst In].
  - split; [congruence | contradiction].
  - destruct (seq_eqb k0 k) eqn:E; seq_eqb_prop.
    + split; [intros _; left; exact E | discriminate].
    + rewrite IH. split; [intro Hin; right; exact Hin|].
      intros [Heq|Hin]; [contradiction | exact Hin].
Qed.

Lemma lookup_In (k : key) (p : Pattern num) (t : table num) :
  lookup k t = Some p -> In p (map snd t).
Proof.
  induction t as [|[k0 p0] t IH]; cbn [lookup map snd In]; [discriminate|].
  destruct (seq_eqb k0 k).
  - intro Heq. injection Heq as <-. left. reflexivity.
  - intro Hl. right. apply IH. exact Hl.
Qed.

Lemma mutate_keys (k : key) (f : Pattern num -> Pattern num) (t : table num) :
  map fst (mutate k f t) = map fst t.
Proof.
  induction t as [|[k0 p0] t IH]; cbn [mutate map fst]; [reflexivity|].
  destruct (seq_eqb k0 k); cbn [map fst]; [reflexivity|]. rewrite IH. reflexivity.
Qed.

Lemma insert_keys (k : key) (p : Pattern num) (t : table num) :
  map fst (insert k p t)
  = match lookup k t with
    | Some _ => map fst t
    | None => map fst t ++ [k]
    end.
Proof.
  induction t as [|[k0 p0] t IH]; cbn [insert lookup map fst app]; [reflexivity|].
  destruct (seq_eqb k0 k); cbn [map fst]; [reflexivity|].
  rewrite IH. destruct (lookup k t); reflexivity.
Qed.

(** The keys are distinct and every pattern is stored under its own
    sequence. *)
Definition keyed (t : table num) : Prop :=
  NoDup (map fst t) /\ Forall (fun e => sequence (snd e) = fst e) t.

Lemma mutate_sequences (k : key) (f : Pattern num -> Pattern num) (t : table num) :
  (forall p, sequence (f p) = sequence p) ->
  Forall (fun e => sequence (snd e) = fst e) t ->
  Forall (fun e => sequence (snd e) = fst e) (mutate k f t).
Proof.
  intros Hf. induction 1 as [|[k0 p0] t He Ht IH]; cbn [mutate]; [constructor|].
  destruct (seq_eqb k0 k); constructor; try assumption.
  cbn [fst snd] in *. rewrite Hf. exact He.
Qed.

Lemma insert_sequences (k : key) (p : Pattern num) (t : table num) :
  sequence p = k ->
  Forall (fun e => sequence (snd e) = fst e) t ->
  Forall (fun e => sequence (snd e) = fst e) (insert k p t).
Proof.
  intros Hp. induction 1 as [|[k0 p0] t He Ht IH]; cbn [insert].
  - constructor; [exact Hp | constructor].
  - destruct (seq_eqb k0 k) eqn:E; constructor; try assumption.
    seq_eqb_prop. cbn [fst snd]. congruence.
Qed.

Lemma upsert_keyed (t : table num) (e : key * nat) : keyed t -> keyed (upsert t e).
Proof.
  intros [Hnodup Hseq]. unfold keyed, upsert.
  destruct (lookup (fst e) t) as [p|] eqn:Hl.
  - rewrite mutate_keys. split; [exact Hnodup|].
    apply mutate_sequences; [reflexivity | exact Hseq].
  - rewrite insert_keys, Hl. split.
    + apply (Permutation_NoDup (Permutation_cons_append (map fst t) (fst e))).
      constructor; [|exact Hnodup].
      intro Hin. apply lookup_keys in Hin. contradiction.
    + apply insert_sequences; [reflexivity | exact Hseq].
Qed.

Lemma train_keyed (digits : list digit) (t : table num) :
  keyed t -> keyed (snd (train digits t)).
Proof.
  intro Ht. rewrite train_table.
  assert (Hfold : keyed (fold_left upsert (windows digits) t)).
  { revert t Ht. induction (windows digits) as [|e es IH]; intros t Ht; [exact Ht|].
    cbn [fold_left]. apply IH, upsert_keyed, Ht. }
  destruct Hfold as [Hnodup Hseq]. split.
  - rewrite map_map. cbn [fst]. exact Hnodup.
  - apply Forall_map. revert Hseq. apply Forall_impl. intros [k p] He. exact He.
Qed.

Lemma fold_occur (k : key) (idxs : list nat) (entry : option (Pattern num)) :
  fold_left (occur k) idxs entry <> None <-> entry <> None \/ idxs <> [].
Proof.
  revert entry. induction idxs as [|i idxs IH]; intro entry; cbn [fold_left].
  - split; [intro He; left; exact He | intros [He|He]; [exact He | congruence]].
  - rewrite IH. split; [intros _; right; discriminate|].
    intros _. left. unfold occur. discriminate.
Qed.

Lemma occurrences_nonempty (k : key) (digits : list digit) :
  counted_occurrences k digits <> []
  <-> In (length k) windowSizes
      /\ exists i, i + length k <= length digits
                   /\ slice i (i + length k) digits = k.
Proof.
  unfold counted_occurrences.
  assert (Hsize : existsb (Nat.eqb (length k)) windowSizes = true
                  <-> In (length k) windowSizes).
  { rewrite existsb_exists. split.
    - intros (w & Hw & E). apply Nat.eqb_eq in E. rewrite E. exact Hw.
    - intro Hw. exists (length k). split; [exact Hw | apply Nat.eqb_refl]. }
  destruct (existsb (Nat.eqb (length k)) windowSizes).
  - unfold occurrences. split.
    + intro Hne. split; [apply Hsize; reflexivity|].
      destruct (filter _ _) as [|i rest] eqn:Hf; [congruence|].
      assert (Hi : In i (i :: rest)) by (left; reflexivity).
      rewrite <- Hf in Hi. apply filter_In in Hi. destruct Hi as [Hi E].
      apply in_seq in Hi. seq_eqb_prop. exists i. split; [lia | exact E].
    + intros (_ & i & Hi & E) Hnil.
      assert (Hin : In i (filter (fun i => seq_eqb (slice i (i + length k) digits) k)
                                 (seq 0 (length digits + 1 - length k)))).
      { apply filter_In. split; [apply in_seq; lia | apply seq_eqb_eq, E]. }
      rewrite Hnil in Hin. contradiction.
  - split; [congruence|]. intros (Hw & _). apply Hsize in Hw. discriminate.
Qed.

(** X9.  [train] keeps the table a map from sequences to their patterns:
    keys stay distinct, every pattern stays under its own sequence; and the
    keys after the call are the keys before it and the windows of 2 to 5
    consecutive digits of the corpus, nothing else. *)
Theorem train_table_keys (digits : list digit) (t : table num) :
  (keyed t -> keyed (snd (train digits t)))
  /\ forall k,
       In k (map fst (snd (train digits t)))
       <-> In k (map fst t)
           \/ (2 <= length k <= 5
               /\ exists i, i + length k <= length digits
                            /\ slice i (i + length k) digits = k).
Proof.
  split; [apply train_keyed|]. intro k.
  rewrite <- !lookup_keys, lookup_train.
  assert (Hsize : In (length k) windowSizes <-> 2 <= length k <= 5).
  { unfold windowSizes. cbn [In]. lia. }
  rewrite <- Hsize, <- occurrences_nonempty, <- (fold_occur k).
  destruct (fold_left (occur k) (counted_occurrences k digits) (lookup k t));
    cbn [option_map]; [split; intros _; discriminate | reflexivity].
Qed.

(** X10.  [train] counts every window once: the stored frequencies grow by
    the number of windows of 2, 3, 4 and 5 digits of the corpus. *)
Theorem train_counts_every_window (digits : list digit) (t : table num) :
  let n := length digits in
  total_frequency (snd (train digits t))
  = total_frequency t + ((n - 1) + (n - 2) + (n - 3) + (n - 4)).
Proof.
  intro n. rewrite total_frequency_train. f_equal.
  unfold windows, windowSizes, windows_of. cbn [flat_map].
  rewrite !length_app, !length_map, !length_seq. cbn [length]. subst n. lia.
Qed.

End RecognizerMore.

Section RecognizerQueries.

Context {num : Type} `{Number num}.
Local Open Scope js_scope.

(** What one window size contributes to [detected]. *)
Definition candidate (recentDigits : list digit) (minConfidence : num)
           (t : table num) (windowSize : nat) : list (Pattern num) :=
  if (length recentDigits <? windowSize)%nat then []
  else match lookup (slice_last windowSize recentDigits) t with
       | Some pattern =>
           if confidence pattern >=? minConfidence then [pattern] else []
       | None => []
       end.

Lemma detectPatterns_candidates (recentDigits : list digit) (minConfidence : num)
      (t : table num) :
  fst (detectPatterns recentDigits minConfidence t)
  = Array_sort (fun a b => confidence b - confidence a >? lit 0)
               (flat_map (candidate recentDigits minConfidence t) windowSizes).
Proof.
  unfold detectPatterns.
  set (body := fun (detected : list (Pattern num)) (windowSize : nat) => _).
  assert (Hloop : forall sizes acc,
             loop sizes acc body t
             = (acc ++ flat_map (candidate recentDigits minConfidence t) sizes, t)).
  { induction sizes as [|w sizes IH]; intro acc; cbn [loop flat_map].
    - rewrite app_nil_r. reflexivity.
    - unfold bind at 1. subst body. cbv beta.
      assert (Hw : candidate recentDigits minConfidence t w
                   = if (length recentDigits <? w)%nat then []
                     else match lookup (slice_last w recentDigits) t with
                          | Some pattern =>
                              if confidence pattern >=? minConfidence
                              then [pattern] else []
                          | None => []
                          end) by reflexivity.
      rewrite Hw. clear Hw.
      destruct (length recentDigits <? w)%nat.
      + cbn [ret app]. apply IH.
      + unfold bind, Map_get.
        destruct (lookup (slice_last w recentDigits) t) as [p|].
        * destruct (confidence p >=? minConfidence); cbn [ret];
            rewrite IH; [rewrite <- app_assoc|]; reflexivity.
        * cbn [ret app]. apply IH. }
  unfold bind at 1. rewrite Hloop. reflexivity.
Qed.

(** X11.  [detectPatterns] returns exactly the patterns stored under the
    last 2, 3, 4 or 5 recent digits whose confidence reaches
    [minConfidence]: at most four, and none when fewer than two digits are
    given. *)
Theorem detectPatterns_selects (recentDigits : list digit) (minConfidence : num)
        (t : table num) :
  let detected := fst (detectPatterns recentDigits minConfidence t) in
  (forall p,
      In p detected
      <-> exists windowSize,
            (2 <= windowSize <= 5)%nat
            /\ (windowSize <= length recentDigits)%nat
            /\ lookup (slice_last windowSize recentDigits) t = Some p
            /\ (confidence p >=? minConfidence) = true)
  /\ (length detected <= 4)%nat
  /\ ((length recentDigits < 2)%nat -> detected = []).
Proof.
  intro detected. subst detected. rewrite detectPatterns_candidates.
  assert (Hcand : forall w p,
             In p (candidate recentDigits minConfidence t w)
             <-> (w <= length recentDigits)%nat
                 /\ lookup (slice_last w recentDigits) t = Some p
                 /\ (confidence p >=? minConfidence) = true).
  { intros w p. unfold candidate.
    destruct (Nat.ltb_spec (length recentDigits) w) as [Hlt|Hge].
    - split; [contradiction | intros (Hle & _); lia].
    - destruct (lookup (slice_last w recentDigits) t) as [q|].
      + destruct (confidence q >=? minConfidence) eqn:Hc; cbn [In].
        * split.
          -- intros [<-|[]]. repeat split; [exact Hge | exact Hc].
          -- intros (_ & Heq & _). left. congruence.
        * split; [contradiction|]. intros (_ & Heq & Hp).
          injection Heq as <-. congruence.
      + split; [contradiction | intros (_ & Heq & _); discriminate]. }
  assert (Hshort : forall w, (length (candidate recentDigits minConfidence t w) <= 1)%nat).
  { intro w. unfold candidate.
    destruct (length recentDigits <? w)%nat; [cbn; lia|].
    destruct (lookup (slice_last w recentDigits) t) as [q|]; [|cbn; lia].
    destruct (confidence q >=? minConfidence); cbn; lia. }
  split; [|split].
  - intro p. rewrite Array_sort_In, in_flat_map. split.
    + intros (w & Hw & Hp). exists w. apply Hcand in Hp.
      split; [|exact Hp]. unfold windowSizes in Hw. cbn [In] in Hw. lia.
    + intros (w & Hw & Hp). exists w. split; [|apply Hcand; exact Hp].
      unfold windowSizes. cbn [In]. lia.
  - rewrite Array_sort_length. unfold windowSizes. cbn [flat_map].
    rewrite !length_app. cbn [length].
    pose proof (Hshort 2%nat). pose proof (Hshort 3%nat).
    pose proof (Hshort 4%nat). pose proof (Hshort 5%nat). lia.
  - intro Hlen. unfold windowSizes. cbn [flat_map]. unfold candidate.
    replace (length recentDigits <? 2)%nat with true by (symmetry; apply Nat.ltb_lt; lia).
    replace (length recentDigits <? 3)%nat with true by (symmetry; apply Nat.ltb_lt; lia).
    replace (length recentDigits <? 4)%nat with true by (symmetry; apply Nat.ltb_lt; lia).
    replace (length recentDigits <? 5)%nat with true by (symmetry; apply Nat.ltb_lt; lia).
    reflexivity.
Qed.

(** *** The digits [predictNext] proposes *)

Lemma weight_get_set_key (d d' : digit) (w : num) (m : weight_map num) :
  weight_get d (weight_set d' w m) <> None
  <-> d' = d \/ weight_get d m <> None.
Proof.
  induction m as [|[d0 w0] m IH]; cbn [weight_set weight_get].
  - destruct (digit_eqb d' d) eqn:E; digit_eqb_prop.
    + split; [intros _; left; exact E | discriminate].
    + split; [congruence | intros [Heq|Hne]; congruence].
  - destruct (digit_eqb d0 d') eqn:E0; cbn [weight_get];
      destruct (digit_eqb d0 d) eqn:E1; digit_eqb_prop.
    + split; [intros _; left; congruence | discriminate].
    + split; [intro Hm; right; exact Hm|]. intros [Heq|Hm]; [congruence | exact Hm].
    + split; [intros _; right; discriminate | discriminate].
    + exact IH.
Qed.

Lemma predictNext_visit_key (recentDigits : list digit) (acc : weight_map num)
      (p : Pattern num) (d : digit) :
  weight_get d (predictNext_visit recentDigits acc p) <> None
  <-> weight_get d acc <> None \/ selects recentDigits d p = true.
Proof.
  unfold predictNext_visit, selects, applies. cbv zeta.
  destruct (length recentDigits <? length (sequence p) - 1)%nat;
    cbn [negb andb]; [split; [tauto | intros [Hm|Hf]; [exact Hm | discriminate]]|].
  destruct (seq_eqb _ _);
    cbn [andb]; [|split; [tauto | intros [Hm|Hf]; [exact Hm | discriminate]]].
  destruct (nth_error (sequence p) (length (sequence p) - 1)) as [nextDigit|];
    [|split; [tauto | intros [Hm|Hf]; [exact Hm | discriminate]]].
  rewrite weight_get_set_key, digit_eqb_eq. tauto.
Qed.

(** X12.  [predictNext] gives a weight to exactly the digits that complete
    a stored pattern: the pattern's digits but the last are the last recent
    digits, and the digit is its last one.  With no pattern stored, or none
    that applies, the map is empty. *)
Theorem predictNext_proposes (recentDigits : list digit) (t : table num) (d : digit) :
  weight_get d (fst (predictNext recentDigits t)) <> None
  <-> exists p, In p (map snd t) /\ selects recentDigits d p = true.
Proof.
  unfold predictNext, bind, Map_values, ret. cbn [fst].
  assert (Hfold : forall patterns acc,
             weight_get d (fold_left (predictNext_visit recentDigits) patterns acc)
             <> None
             <-> weight_get d acc <> None
                 \/ exists p, In p patterns /\ selects recentDigits d p = true).
  { induction patterns as [|p patterns IH]; intro acc; cbn [fold_left In].
    - split; [intro Hm; left; exact Hm|]. intros [Hm|(p & [] & _)]. exact Hm.
    - rewrite IH, predictNext_visit_key. split.
      + intros [[Hm|Hp]|(q & Hq & Hs)].
        * left. exact Hm.
        * right. exists p. split; [left; reflexivity | exact Hp].
        * right. exists q. split; [right; exact Hq | exact Hs].
      + intros [Hm|(q & [<-|Hq] & Hs)].
        * left. left. exact Hm.
        * left. right. exact Hs.
        * right. exists q. split; assumption. }
  rewrite Hfold. cbn [weight_get]. split.
  - intros [Hm|Hp]; [congruence | exact Hp].
  - intro Hp. right. exact Hp.
Qed.

End RecognizerQueries.

Section RecognizerExact.

Local Open Scope Q_scope.

(** [b.confidence - a.confidence > 0] on finite confidences. *)
Lemma after_confidence (a b : Pattern xnum) :
  exact (confidence a) -> exact (confidence b) ->
  (lt (lit 0) (sub (confidence b) (confidence a)) = false
   <-> val (confidence b) <= val (confidence a)).
Proof.
  intros Ha Hb. destruct (exact_sub Hb Ha) as [He Hv].
  rewrite (lt_false_iff (proj1 (exact_lit 0)) He), Hv, (proj2 (exact_lit 0)).
  split; intro Hle; lra.
Qed.

(** X13.  On a table of finite confidences (such as a freshly trained one)
    [detectPatterns] lists the patterns it found by descending confidence. *)
Theorem detectPatterns_best_first (recentDigits : list digit) (minConfidence : xnum)
        (t : table xnum) :
  Forall (fun p => exact (confidence p)) (map snd t) ->
  StronglySorted (fun a b => val (confidence b) <= val (confidence a))
                 (fst (detectPatterns recentDigits minConfidence t)).
Proof.
  intro Ht. rewrite detectPatterns_candidates.
  set (after := fun a b : Pattern xnum => lt (lit 0) (sub (confidence b) (confidence a))).
  set (found := flat_map (candidate recentDigits minConfidence t) windowSizes).
  assert (Hfound : Forall (fun p => exact (confidence p)) found).
  { apply Forall_forall. intros p Hp. apply in_flat_map in Hp.
    destruct Hp as (w & _ & Hp). unfold candidate in Hp.
    destruct (length recentDigits <? w)%nat; [contradiction|].
    destruct (lookup (slice_last w recentDigits) t) as [q|] eqn:Hq; [|contradiction].
    destruct (le minConfidence (confidence q)); [|contradiction].
    destruct Hp as [<-|[]]. apply lookup_In in Hq.
    revert q Hq. apply Forall_forall. exact Ht. }
  assert (Hsorted : StronglySorted (may_precede after) (Array_sort after found)).
  { apply (Array_sort_sorted (ok := fun p => exact (confidence p))); [| |exact Hfound].
    - intros x y Hx Hy Hxy. unfold after in *.
      apply (after_confidence y x Hy Hx).
      destruct (exact_sub Hy Hx) as [He Hv].
      apply (lt_iff (proj1 (exact_lit 0)) He) in Hxy.
      rewrite Hv, (proj2 (exact_lit 0)) in Hxy. lra.
    - intros x y z Hx Hy Hz Hxy Hyz. unfold may_precede, after in *.
      apply (after_confidence x y Hx Hy) in Hxy.
      apply (after_confidence y z Hy Hz) in Hyz.
      apply (after_confidence x z Hx Hz). lra. }
  pose proof (Array_sort_ok after (ok := fun p => exact (confidence p)) Hfound) as Hok.
  clear Hfound. induction Hsorted as [|x l Hl IH Hx]; constructor.
  - apply IH. apply Forall_cons_iff in Hok. apply Hok.
  - apply Forall_cons_iff in Hok. destruct Hok as [Hokx Hokl].
    apply Forall_forall. intros y Hy.
    apply (after_confidence x y Hokx).
    + revert y Hy. apply Forall_forall. exact Hokl.
    + revert y Hy. apply Forall_forall. exact Hx.
Qed.

Lemma of_nat_over_zero (n : nat) :
  n <> 0%nat -> div (of_nat n) (of_nat 0) = (PInf : xnum).
Proof.
  intro Hn. pose proof (of_nat_nonzero Hn) as Hnz.
  pose proof (exact_of_nat n) as [He Hv].
  rewrite (exact_is_fin _ He) in *. cbn [val] in *.
  change (of_nat (num := xnum) 0) with (Fin 0).
  cbn [div xnum_Number X.div].
  change (X.is_zero 0) with true. cbv iota.
  apply is_zero_false in Hnz. rewrite Hnz.
  assert (Hneg : X.is_neg (val (of_nat (num := xnum) n)) = false).
  { unfold X.is_neg. apply Z.ltb_ge.
    assert (Hpos : 0 <= val (of_nat (num := xnum) n)).
    { rewrite Hv. unfold Qle. simpl. lia. }
    revert Hpos. generalize (val (of_nat (num := xnum) n)). intros q Hpos.
    unfold Qle in Hpos. cbn [Qnum Qden] in Hpos. lia. }
  rewrite Hneg. reflexivity.
Qed.

(** X14.  Training on an empty corpus adds no pattern and counts nothing,
    but it rescores every stored pattern against a corpus length of 0: the
    confidence of a pattern seen before becomes +Infinity, or NaN when it
    was last seen at index 0. *)
Theorem retrain_on_nothing (t : table xnum) (k : key) (p : Pattern xnum) :
  lookup k (snd (train [] t)) = Some p ->
  frequency p <> 0%nat ->
  (exists p0,
      lookup k t = Some p0
      /\ sequence p = sequence p0
      /\ frequency p = frequency p0
      /\ lastSeen p = lastSeen p0)
  /\ confidence p = if (lastSeen p =? 0)%nat then NaN else PInf.
Proof.
  intros Hp Hf. rewrite lookup_train in Hp.
  assert (Hnone : counted_occurrences k [] = []).
  { unfold counted_occurrences, occurrences, windowSizes. cbn [existsb length].
    destruct (length k) as [|[|[|[|[|[|n]]]]]]; reflexivity. }
  rewrite Hnone in Hp. cbn [fold_left] in Hp.
  destruct (lookup k t) as [p0|]; [|discriminate].
  cbn [option_map] in Hp. injection Hp as <-.
  cbn [rescore sequence frequency lastSeen confidence] in *.
  split; [exists p0; repeat split; reflexivity|].
  unfold score_confidence. cbn [length].
  rewrite (of_nat_over_zero _ Hf).
  destruct (lastSeen p0) as [|l] eqn:Hl; cbn [Nat.eqb].
  - reflexivity.
  - rewrite (of_nat_over_zero (S l)) by discriminate. reflexivity.
Qed.

End RecognizerExact.

Lemma detectPatterns_best_first_witness :
  StronglySorted (fun a b => val (confidence b) <= val (confidence a))%Q
                 (fst (detectPatterns [D3; D1; D2; D1; D2] (Fin 50)
                                      (snd (train (num := xnum) example_corpus [])))).
Proof.
  apply (detectPatterns_best_first [D3; D1; D2; D1; D2] (Fin 50)
                                   (snd (train (num := xnum) example_corpus []))).
  apply trained_confidences_exact.
Defined.

Definition stale_pattern : Pattern xnum :=
  {| sequence := [D1; D2];
     frequency := 2;
     confidence := PInf;
     lastSeen := 2;
     successRate := Fin 0 |}.

Lemma retrain_on_nothing_witness :
  (exists p0,
      lookup [D1; D2] (snd (train (num := xnum) example_corpus [])) = Some p0
      /\ sequence stale_pattern = sequence p0
      /\ frequency stale_pattern = frequency p0
      /\ lastSeen stale_pattern = lastSeen p0)
  /\ confidence stale_pattern
     = if (lastSeen stale_pattern =? 0)%nat then NaN else PInf.
Proof.
  apply (retrain_on_nothing (snd (train (num := xnum) example_corpus []))
                            [D1; D2] stale_pattern).
  - vm_compute. reflexivity.
  - discriminate.
Defined.

(* ================================================================= *)
(** * More on the Markov matrix *)

Lemma mapi_nth_error {A B} (f : nat -> A -> B) (a : list A) (i : nat) :
  nth_error (mapi f a) i = option_map (f i) (nth_error a i).
Proof.
  unfold mapi.
  assert (Hgen : forall s i,
             nth_error (map (fun ix => f (fst ix) (snd ix))
                            (combine (seq s (length a)) a)) i
             = option_map (f (s + i)) (nth_error a i)).
  { clear i. induction a as [|x a IH]; intros s [|i]; cbn; try reflexivity.
    - rewrite Nat.add_0_r. reflexivity.
    - rewrite IH. replace (S s + i) with (s + S i) by lia. reflexivity. }
  apply (Hgen 0).
Qed.

Lemma mapi_nth {A B} (f : nat -> A -> B) (a : list A) (i : nat) (d : B) (d' : A) :
  i < length a -> nth i (mapi f a) d = f i (nth i a d').
Proof.
  intro Hi. apply nth_error_nth. rewrite mapi_nth_error.
  destruct (nth_error a i) as [x|] eqn:Hx.
  - rewrite (nth_error_nth a i d' Hx). reflexivity.
  - apply nth_error_None in Hx. lia.
Qed.

Section MarkovShape.

Context {num : Type} `{Number num} `{MathPow num}.
Local Open Scope js_scope.

(** The digit [d] is never followed by a digit in [digits]. *)
Definition has_no_successor (digits : list digit) (d : digit) : Prop :=
  forall i, nth_error digits i = Some d -> nth_error digits (i + 1) = None.

(** The cell of a row without a count: [Math.min(0 + 0 / 10, 100)], where
    the base probability is the 0 of [total > 0 ? ... : 0]. *)
Definition empty_cell : num :=
  Math_min (baseProb (sum_from_zero (repeat (lit 0) 10)) (lit 0) + lit 0 / lit 10)
           (lit 100).

Lemma matrix_add_rows (from to : digit) (w : num) (m : matrix num) :
  Forall (fun row => length row = 10) m ->
  Forall (fun row => length row = 10) (matrix_add from to w m).
Proof.
  intro Hm. unfold matrix_add. apply update_nth_Forall; [|exact Hm].
  intros row Hrow. rewrite update_nth_length. exact Hrow.
Qed.

Lemma matrix_add_other_row (from to d : digit) (w : num) (m : matrix num) :
  from <> d ->
  nth (digit_to_nat d) (matrix_add from to w m) [] = nth (digit_to_nat d) m [].
Proof.
  intro Hne. unfold matrix_add. apply update_nth_other.
  intro Heq. apply Hne. symmetry. apply digit_to_nat_inj. exact Heq.
Qed.

Lemma count_transitions_rows (digits : list digit) :
  let (transitions, neuralWeights) := count_transitions digits in
  Forall (fun row => length row = 10) transitions
  /\ Forall (fun row => length row = 10) neuralWeights
  /\ forall d, has_no_successor digits d ->
               nth (digit_to_nat d) transitions [] = repeat (lit 0) 10
               /\ nth (digit_to_nat d) neuralWeights [] = repeat (lit 0) 10.
Proof.
  unfold count_transitions.
  set (body := fun (acc : matrix num * matrix num) (i : nat) => _).
  assert (Hfold : forall indices acc,
             (Forall (fun row => length row = 10) (fst acc)
              /\ Forall (fun row => length row = 10) (snd acc)
              /\ forall d, has_no_successor digits d ->
                           nth (digit_to_nat d) (fst acc) [] = repeat (lit 0) 10
                           /\ nth (digit_to_nat d) (snd acc) [] = repeat (lit 0) 10) ->
             let acc' := fold_left body indices acc in
             Forall (fun row => length row = 10) (fst acc')
             /\ Forall (fun row => length row = 10) (snd acc')
             /\ forall d, has_no_successor digits d ->
                          nth (digit_to_nat d) (fst acc') [] = repeat (lit 0) 10
                          /\ nth (digit_to_nat d) (snd acc') [] = repeat (lit 0) 10).
  { induction indices as [|i indices IH]; intros acc Hacc; cbn [fold_left];
      [exact Hacc|].
    apply IH. subst body. cbv beta. destruct acc as [tr nw].
    destruct (nth_error digits i) as [from|] eqn:Hfrom; [|exact Hacc].
    destruct (nth_error digits (i + 1)) as [to|] eqn:Hto; [|exact Hacc].
    cbn [fst snd] in *. destruct Hacc as (Htr & Hnw & Hzero).
    split; [apply matrix_add_rows, Htr|]. split; [apply matrix_add_rows, Hnw|].
    intros d Hd.
    assert (Hne : from <> d).
    { intros ->. specialize (Hd i Hfrom). congruence. }
    rewrite !(matrix_add_other_row from to d) by exact Hne.
    apply Hzero, Hd. }
  specialize (Hfold (seq 0 (length digits - 1)) (zero_matrix, zero_matrix)).
  cbv zeta in Hfold.
  destruct (fold_left body _ _) as [tr nw]. cbn [fst snd] in Hfold.
  apply Hfold. unfold zero_matrix.
  split; [|split].
  - apply Forall_forall. intros row Hrow. apply repeat_spec in Hrow. subst row.
    reflexivity.
  - apply Forall_forall. intros row Hrow. apply repeat_spec in Hrow. subst row.
    reflexivity.
  - intros d _. rewrite nth_repeat_lt by apply digit_to_nat_lt.
    split; reflexivity.
Qed.

(** X15.  The Markov matrix is 10 x 10 for every history, the empty one
    included: [markovChain[lastDigit][digit]] is always a cell. *)
Theorem markov_matrix_shape (digits : list digit) :
  length (buildEnhancedMarkov digits) = 10
  /\ Forall (fun row => length row = 10) (buildEnhancedMarkov digits).
Proof.
  split; [apply buildEnhancedMarkov_length|].
  unfold buildEnhancedMarkov.
  pose proof (count_transitions_rows digits) as Hrows.
  destruct (count_transitions digits) as [tr nw]. destruct Hrows as (Htr & _ & _).
  apply Forall_forall. intros row Hrow. apply mapi_In in Hrow.
  destruct Hrow as (from & counts & Hfrom & ->). rewrite mapi_length.
  apply nth_error_In in Hfrom. revert counts Hfrom. apply Forall_forall. exact Htr.
Qed.

Lemma unseen_row (digits : list digit) (d : digit) :
  has_no_successor digits d ->
  nth (digit_to_nat d) (buildEnhancedMarkov digits) [] = repeat empty_cell 10.
Proof.
  intro Hd. unfold buildEnhancedMarkov.
  pose proof (count_transitions_rows digits) as Hrows.
  pose proof (count_transitions_length digits) as [Hlen _].
  destruct (count_transitions digits) as [tr nw]. cbn [fst] in Hlen.
  destruct Hrows as (_ & _ & Hzero). destruct (Hzero d Hd) as [Htr Hnw].
  rewrite (mapi_nth _ tr (digit_to_nat d) [] [])
    by (rewrite Hlen; apply digit_to_nat_lt).
  rewrite Htr, Hnw. reflexivity.
Qed.

End MarkovShape.

(** X16.  A digit that no digit follows in the history (one that does not
    occur, or occurs only as the last one) has a row of zeros: after it
    the Markov signal says nothing, in binary64 as in exact arithmetic.
    With a history of at most one digit this is every row. *)
Theorem markov_unseen_row (digits : list digit) (d : digit) :
  has_no_successor digits d ->
  nth (digit_to_nat d) (buildEnhancedMarkov (num := float) digits) []
  = repeat 0%float 10
  /\ nth (digit_to_nat d) (buildEnhancedMarkov (num := xnum) digits) []
     = repeat (Fin 0) 10.
Proof.
  intro Hd. split; rewrite (unseen_row digits d Hd); vm_compute; reflexivity.
Qed.

Lemma markov_unseen_row_witness :
  nth (digit_to_nat D3) (buildEnhancedMarkov (num := float) [D1; D2; D1; D3]) []
  = repeat 0%float 10
  /\ nth (digit_to_nat D3) (buildEnhancedMarkov (num := xnum) [D1; D2; D1; D3]) []
     = repeat (Fin 0) 10.
Proof.
  apply (markov_unseen_row [D1; D2; D1; D3] D3).
  intros [|[|[|[|[|i]]]]] Hi; try discriminate; reflexivity.
Defined.

Section MarkovCells.

Local Open Scope Q_scope.

Lemma min_cases (x y : xnum) :
  exact x -> exact y -> Math_min x y = x \/ Math_min x y = y.
Proof.
  intros Hx Hy. rewrite (exact_is_fin x Hx), (exact_is_fin y Hy), min_fin.
  destruct (lt _ _); [right | left]; reflexivity.
Qed.

Lemma min_le_first (x y : xnum) :
  exact x -> exact y -> val (Math_min x y) <= val x.
Proof.
  intros Hx Hy. rewrite (exact_is_fin x Hx), (exact_is_fin y Hy), min_fin.
  destruct (lt (Fin (val y)) (Fin (val x))) eqn:Hlt; cbn [val]; [|apply Qle_refl].
  rewrite lt_fin in Hlt. apply Qlt_le_weak. rewrite Qlt_alt.
  destruct (val y ?= val x); congruence.
Qed.

(** Whether [b] follows [a] at the index [i] of [digits]. *)
Definition follows (digits : list digit) (a b : digit) (i : nat) : bool :=
  match nth_error digits i, nth_error digits (i + 1) with
  | Some from, Some to => digit_eqb from a && digit_eqb to b
  | _, _ => false
  end.

Lemma follows_iff (digits : list digit) (a b : digit) (i : nat) :
  follows digits a b i = true
  <-> nth_error digits i = Some a /\ nth_error digits (i + 1) = Some b.
Proof.
  unfold follows.
  destruct (nth_error digits i) as [from|];
    [destruct (nth_error digits (i + 1)) as [to|]|].
  - rewrite andb_true_iff, !digit_eqb_eq. split.
    + intros [-> ->]. split; reflexivity.
    + intros [Hfrom Hto]. injection Hfrom as ->. injection Hto as ->.
      split; reflexivity.
  - split; [discriminate | intros [_ Hn]; discriminate].
  - split; [discriminate | intros [Hn _]; discriminate].
Qed.

Lemma count_step_unseen (digits : list digit) (a b : digit)
      (acc : matrix xnum * matrix xnum) (i : nat) :
  counts_matrix (fst acc) -> counts_matrix (snd acc) ->
  follows digits a b i = false ->
  cell (fst (count_step digits acc i)) (digit_to_nat a) (digit_to_nat b)
  = cell (fst acc) (digit_to_nat a) (digit_to_nat b)
  /\ cell (snd (count_step digits acc i)) (digit_to_nat a) (digit_to_nat b)
     = cell (snd acc) (digit_to_nat a) (digit_to_nat b).
Proof.
  destruct acc as [tr nw]. cbn [fst snd]. intros Htr Hnw Hf.
  unfold count_step, follows in *.
  destruct (nth_error digits i) as [from|]; [|split; reflexivity].
  destruct (nth_error digits (i + 1)) as [to|]; [|split; reflexivity].
  cbn [fst snd].
  rewrite !cell_matrix_add
    by first [assumption | apply digit_to_nat_lt].
  assert (Hne : ((digit_to_nat a =? digit_to_nat from)
                 && (digit_to_nat b =? digit_to_nat to))%nat = false).
  { apply andb_false_iff. apply andb_false_iff in Hf.
    destruct Hf as [Hf|Hf]; [left | right]; apply Nat.eqb_neq; intro Heq;
      apply digit_to_nat_inj in Heq; subst; apply digit_eqb_neq in Hf;
      apply Hf; reflexivity. }
  rewrite Hne. split; reflexivity.
Qed.

Lemma count_fold_unseen (digits : list digit) (a b : digit) (indices : list nat) :
  forall acc,
    counts_matrix (fst acc) -> counts_matrix (snd acc) ->
    (forall i, In i indices -> follows digits a b i = false) ->
    let acc' := fold_left (count_step digits) indices acc in
    cell (fst acc') (digit_to_nat a) (digit_to_nat b)
    = cell (fst acc) (digit_to_nat a) (digit_to_nat b)
    /\ cell (snd acc') (digit_to_nat a) (digit_to_nat b)
       = cell (snd acc) (digit_to_nat a) (digit_to_nat b).
Proof.
  induction indices as [|i indices IH]; intros acc Htr Hnw Hun; cbn [fold_left].
  - split; reflexivity.
  - destruct (count_step_spec digits acc i Htr Hnw) as (Htr' & Hnw' & _).
    destruct (count_step_unseen digits a b acc i Htr Hnw
                                (Hun i (or_introl eq_refl))) as [E1 E2].
    destruct (IH _ Htr' Hnw' (fun j Hj => Hun j (or_intror Hj))) as [F1 F2].
    cbv zeta. rewrite F1, F2, E1, E2. split; reflexivity.
Qed.

Lemma markov_cell (digits : list digit) (a b : nat) :
  (a < 10)%nat -> (b < 10)%nat ->
  cell (buildEnhancedMarkov digits) a b
  = Math_min
      (add (baseProb (sum_from_zero (nth a (fst (count_transitions digits)) []))
                     (cell (fst (count_transitions digits)) a b))
           (div (cell (snd (count_transitions digits)) a b) (lit 10)))
      (lit 100).
Proof.
  intros Ha Hb. destruct (count_transitions_spec digits) as (Htr & _ & _).
  unfold buildEnhancedMarkov, cell.
  destruct (count_transitions digits) as [tr nw]. cbn [fst snd] in *.
  destruct (counts_matrix_row tr a Htr Ha) as [Hlen _].
  rewrite (mapi_nth _ tr a [] []) by (destruct Htr as [Hl _]; lia).
  unfold nth_num at 1. rewrite (mapi_nth _ (nth a tr []) b nan nan) by lia.
  reflexivity.
Qed.


End MarkovCells.

(* ================================================================= *)
(** * The frequency profile *)

Lemma count_digits_all (digits : list digit) :
  count_digits digits = map (count_occ digit_eq_dec digits) all_digits.
Proof.
  apply (nth_ext _ _ 0 0).
  - rewrite length_map. apply (count_digits_spec digits D0).
  - intros n Hn. rewrite (proj1 (count_digits_spec digits D0)) in Hn.
    do 10 (destruct n as [|n];
           [match goal with
            | |- nth ?k _ _ = _ =>
                first [ exact (proj2 (count_digits_spec digits D0))
                      | exact (proj2 (count_digits_spec digits D1))
                      | exact (proj2 (count_digits_spec digits D2))
                      | exact (proj2 (count_digits_spec digits D3))
                      | exact (proj2 (count_digits_spec digits D4))
                      | exact (proj2 (count_digits_spec digits D5))
                      | exact (proj2 (count_digits_spec digits D6))
                      | exact (proj2 (count_digits_spec digits D7))
                      | exact (proj2 (count_digits_spec digits D8))
                      | exact (proj2 (count_digits_spec digits D9)) ]
            end|]).
    lia.
Qed.

(** Every digit is counted once. *)
Lemma count_digits_total (digits : list digit) :
  list_sum (count_digits digits) = length digits.
Proof.
  rewrite count_digits_all.
  induction digits as [|x digits IH]; [reflexivity|].
  cbn [length]. rewrite <- IH. clear IH.
  destruct x; cbn [all_digits map count_occ]; unfold list_sum; cbn [fold_right];
    repeat match goal with
           | |- context [digit_eq_dec ?a ?b] =>
               let E := fresh "E" in
               destruct (digit_eq_dec a b) as [E|E];
               [try discriminate E | try (exfalso; apply E; reflexivity)]
           end;
    lia.
Qed.

Lemma list_sum_bound (counts : list nat) (c : nat) :
  In c counts -> c <= list_sum counts.
Proof.
  induction counts as [|x counts IH]; simpl; [contradiction|].
  intros [->|Hin]; [lia|]. specialize (IH Hin). lia.
Qed.

Section FrequencyProfile.

Local Open Scope Q_scope.

Variable n : nat.
Hypothesis n_positive : n <> 0%nat.

(** [(c / digits.length) * 100] *)
Definition share (c : nat) : xnum :=
  mul (div (of_nat c) (of_nat n)) (lit 100).

Lemma share_exact (c : nat) :
  exact (share c) /\ val (share c) == qnat c / qnat n * 100.
Proof.
  unfold share. pose proof (of_nat_nonzero n_positive) as Hnz.
  destruct (exact_div (proj1 (exact_of_nat c)) (proj1 (exact_of_nat n)) Hnz)
    as [He Hv].
  destruct (exact_mul He (proj1 (exact_lit 100))) as [He' Hv'].
  split; [exact He'|].
  rewrite Hv', Hv, (proj2 (exact_lit 100)), !(proj2 (exact_of_nat _)). reflexivity.
Qed.

Lemma qnat_positive : 0 < qnat n.
Proof. unfold qnat, Qlt. simpl. lia. Qed.

Lemma qnat_add (a b : nat) : qnat (a + b) == qnat a + qnat b.
Proof. unfold qnat. rewrite Nat2Z.inj_add, inject_Z_plus. reflexivity. Qed.

Lemma qnat_le (a b : nat) : (a <= b)%nat -> qnat a <= qnat b.
Proof. intro Hab. unfold qnat. rewrite <- Zle_Qle. lia. Qed.

Lemma shares_sum (counts : list nat) :
  Qsum (map val (map share counts)) == qnat (list_sum counts) / qnat n * 100.
Proof.
  pose proof qnat_positive as Hn.
  induction counts as [|c counts IH]; cbn [map Qsum fold_right list_sum].
  - change (qnat 0) with 0. revert Hn. generalize (qnat n). intros qn Hn.
    field. lra.
  - fold (Qsum (map val (map share counts))).
    rewrite IH, (proj2 (share_exact c)), qnat_add.
    change (fold_right Init.Nat.add 0%nat counts) with (list_sum counts).
    clear IH. revert Hn.
    generalize (qnat c), (qnat (list_sum counts)), (qnat n). intros qc qs qn Hn.
    field. lra.
Qed.

Lemma share_bounds (c : nat) :
  (c <= n)%nat -> 0 <= val (share c) <= 100.
Proof.
  intro Hc. rewrite (proj2 (share_exact c)).
  pose proof qnat_positive as Hn. pose proof (qnat_le c n Hc) as Hle.
  assert (H0 : 0 <= qnat c) by (apply (qnat_le 0 c); lia).
  assert (Hinv : 0 < / qnat n) by (apply Qinv_lt_0_compat, Hn).
  assert (Hq : 0 <= qnat c / qnat n <= 1).
  { unfold Qdiv. split.
    - apply Qmult_le_0_compat; [exact H0 | apply Qlt_le_weak, Hinv].
    - apply (Qmult_le_r _ _ (qnat n) Hn).
      rewrite <- Qmult_assoc, (Qmult_comm (/ qnat n)), Qmult_inv_r by lra. lra. }
  revert Hq. generalize (qnat c / qnat n). intros q [Hq0 Hq1]. lra.
Qed.

End FrequencyProfile.

Lemma profile_values (digits : list digit) :
  digits <> [] ->
  Forall (fun f => exact f /\ (0 <= val f <= 100)%Q)
         (Detector.analyzeFrequency (num := xnum) digits).
Proof.
  intro Hne.
  assert (Hn : length digits <> 0)
    by (destruct digits; [contradiction | discriminate]).
  change (Detector.analyzeFrequency (num := xnum) digits)
    with (map (share (length digits)) (count_digits digits)).
  apply Forall_map, Forall_forall. intros c Hc.
  split; [apply (share_exact _ Hn)|]. apply (share_bounds _ Hn).
  rewrite <- count_digits_total. apply list_sum_bound, Hc.
Qed.



(* ================================================================= *)
(** * More on [AnomalyDetector] *)

Section UnusualPatterns.

Lemma slice_last_repeat (d : digit) (k n : nat) :
  0 < k -> k <= n -> slice_last k (repeat d n) = repeat d k.
Proof.
  intros Hk Hkn. unfold slice_last. destruct k as [|k]; [lia|].
  rewrite repeat_length.
  replace n with ((n - S k) + S k) at 2 by lia.
  rewrite repeat_app, skipn_app, repeat_length, Nat.sub_diag.
  rewrite skipn_all2 by (rewrite repeat_length; lia). reflexivity.
Qed.

Lemma streaks_of_a_run (d : digit) (n m : nat) :
  m < n ->
  Detector.streaks (repeat d n) (seq 1 m)
  = (S m, map (fun k => Anomaly.Streak k d)
              (filter (fun k => 5 <=? k) (seq 2 m))).
Proof.
  induction m as [|m IH]; intro Hm; [reflexivity|].
  unfold Detector.streaks. rewrite !seq_S, fold_left_app, filter_app, map_app.
  change (fold_left _ (seq 1 m) (1, []))
    with (Detector.streaks (repeat d n) (seq 1 m)).
  rewrite IH by lia. cbn [fold_left]. change (1 + m) with (S m).
  rewrite (nth_error_repeat d) by lia. rewrite (nth_error_repeat d) by lia.
  cbn [Detector.same_read]. rewrite (proj2 (digit_eqb_eq d d) eq_refl).
  cbv zeta. change (2 + m) with (S (S m)). cbn [filter].
  destruct (5 <=? S (S m)); cbn [map]; [reflexivity|].
  rewrite app_nil_r. reflexivity.
Qed.

Lemma long_streaks (n : nat) :
  filter (fun k => 5 <=? k) (seq 2 (n - 1)) = seq 5 (n - 4).
Proof.
  destruct (Nat.le_gt_cases 5 n) as [Hn|Hn].
  - replace (n - 1) with (3 + (n - 4)) by lia.
    rewrite seq_app, filter_app.
    change (filter (fun k => 5 <=? k) (seq 2 3)) with (@nil nat).
    change (2 + 3) with 5. cbn [app].
    apply forallb_filter_id. apply forallb_forall. intros k Hk.
    apply in_seq in Hk. apply Nat.leb_le. lia.
  - replace (n - 4) with 0 by lia. cbn [seq].
    apply filter_none. intros k Hk. apply in_seq in Hk. apply Nat.leb_gt. lia.
Qed.

(** X19.  A run of [n] equal digits is reported once for every length from
    5 up to [n]: [n - 4] streak patterns, in that order, and no other
    pattern; a run shorter than 5 is not reported. *)
Theorem run_is_reported_at_every_length (d : digit) (n : nat) :
  Detector.detectUnusualPatterns (repeat d n)
  = map (fun k => Anomaly.Streak k d) (seq 5 (n - 4)).
Proof.
  unfold Detector.detectUnusualPatterns.
  rewrite repeat_length.
  destruct n as [|n].
  - reflexivity.
  - rewrite (streaks_of_a_run d (S n) (S n - 1)) by lia.
    cbn [snd]. rewrite long_streaks.
    assert (Hsix : (if (6 <=? S n)
                    then if Detector.alternates (slice_last 6 (repeat d (S n)))
                         then map (fun k => Anomaly.Streak k d) (seq 5 (S n - 4))
                              ++ [Anomaly.Alternation
                                    (nth 0 (slice_last 6 (repeat d (S n))) D0)
                                    (nth 1 (slice_last 6 (repeat d (S n))) D0)]
                         else map (fun k => Anomaly.Streak k d) (seq 5 (S n - 4))
                    else map (fun k => Anomaly.Streak k d) (seq 5 (S n - 4)))
                   = map (fun k => Anomaly.Streak k d) (seq 5 (S n - 4))).
    { destruct (Nat.leb_spec 6 (S n)) as [H6|H6]; [|reflexivity].
      rewrite slice_last_repeat by lia. cbn [repeat Detector.alternates].
      rewrite (proj2 (digit_eqb_eq d d) eq_refl). reflexivity. }
    cbv zeta. rewrite Hsix.
    destruct (Nat.leb_spec 4 (S n)) as [H4|H4]; [|reflexivity].
    rewrite slice_last_repeat by lia. cbn [repeat Detector.every_step].
    replace (digit_to_nat d =? S (digit_to_nat d)) with false
      by (symmetry; apply Nat.eqb_neq; lia).
    replace (S (digit_to_nat d) =? digit_to_nat d) with false
      by (symmetry; apply Nat.eqb_neq; lia).
    reflexivity.
Qed.

Lemma slice_last_length (k : nat) (digits : list digit) :
  0 < k -> k <= length digits -> length (slice_last k digits) = k.
Proof.
  intros Hk Hle. unfold slice_last. destruct k as [|k]; [lia|].
  rewrite length_skipn. lia.
Qed.

Lemma last4_of_last6 (digits : list digit) :
  6 <= length digits ->
  slice_last 4 digits = skipn 2 (slice_last 6 digits).
Proof.
  intro Hlen. unfold slice_last. rewrite skipn_skipn. f_equal. lia.
Qed.

(** X20.  Besides the streaks at most one pattern is reported: a perfect
    alternation, an ascending and a descending sequence exclude each
    other. *)
Theorem one_shape_at_most (digits : list digit) :
  exists shape,
    Detector.detectUnusualPatterns digits
    = snd (Detector.streaks digits (seq 1 (length digits - 1))) ++ shape
    /\ length shape <= 1.
Proof.
  unfold Detector.detectUnusualPatterns.
  set (runs := snd (Detector.streaks digits (seq 1 (length digits - 1)))).
  cbv zeta.
  destruct (Nat.leb_spec 4 (length digits)) as [H4|H4].
  2:{ replace (6 <=? length digits) with false by (symmetry; apply Nat.leb_gt; lia).
      exists []. rewrite app_nil_r. split; [reflexivity | cbn; lia]. }
  pose proof (slice_last_length 4 digits ltac:(lia) H4) as Hlen4.
  assert (Hexcl : Detector.every_step true (slice_last 4 digits) = true ->
                  Detector.every_step false (slice_last 4 digits) = true -> False).
  { destruct (slice_last 4 digits) as [|a [|b [|c [|e [|]]]]]; try discriminate Hlen4.
    cbn [Detector.every_step]. intros Hup Hdown.
    apply andb_true_iff in Hup, Hdown. destruct Hup as [Hup _], Hdown as [Hdown _].
    apply Nat.eqb_eq in Hup, Hdown. lia. }
  assert (Halt : (6 <=? length digits) = true ->
                 Detector.alternates (slice_last 6 digits) = true ->
                 Detector.every_step true (slice_last 4 digits) = false
                 /\ Detector.every_step false (slice_last 4 digits) = false).
  { intros H6 Ha. apply Nat.leb_le in H6. rewrite (last4_of_last6 digits H6).
    destruct (slice_last 6 digits) as [|a0 [|a1 [|a2 [|a3 [|a4 [|a5 [|]]]]]]];
      try discriminate Ha.
    cbn [Detector.alternates] in Ha. cbn [skipn Detector.every_step].
    repeat (apply andb_true_iff in Ha; destruct Ha as [Ha ?]).
    digit_eqb_prop. subst.
    split; apply not_true_iff_false; intro Hs;
      repeat (apply andb_true_iff in Hs; destruct Hs as [? Hs]);
      repeat match goal with
             | E : (_ =? _) = true |- _ => apply Nat.eqb_eq in E
             end; lia. }
  destruct (6 <=? length digits);
    [destruct (Detector.alternates (slice_last 6 digits))|].
  - destruct (Halt eq_refl eq_refl) as [-> ->].
    exists [Anomaly.Alternation (nth 0 (slice_last 6 digits) D0)
                                (nth 1 (slice_last 6 digits) D0)].
    split; [reflexivity | cbn; lia].
  - destruct (Detector.every_step true (slice_last 4 digits)) eqn:Hup;
      destruct (Detector.every_step false (slice_last 4 digits)) eqn:Hdown.
    + exfalso. apply Hexcl; reflexivity.
    + exists [Anomaly.Ascending (slice_last 4 digits)].
      split; [reflexivity | cbn; lia].
    + exists [Anomaly.Descending (slice_last 4 digits)].
      split; [reflexivity | cbn; lia].
    + exists []. rewrite app_nil_r. split; [reflexivity | cbn; lia].
  - destruct (Detector.every_step true (slice_last 4 digits)) eqn:Hup;
      destruct (Detector.every_step false (slice_last 4 digits)) eqn:Hdown.
    + exfalso. apply Hexcl; reflexivity.
    + exists [Anomaly.Ascending (slice_last 4 digits)].
      split; [reflexivity | cbn; lia].
    + exists [Anomaly.Descending (slice_last 4 digits)].
      split; [reflexivity | cbn; lia].
    + exists []. rewrite app_nil_r. split; [reflexivity | cbn; lia].
Qed.

End UnusualPatterns.

Section DetectorOutput.

Context {num : Type} `{Number num} `{MathPow num} `{MathSqrt num}.

(** What every anomaly of a report satisfies. *)
Definition graded (a : Anomaly.t num) : Prop :=
  Anomaly.severity a <> Anomaly.low
  /\ (Anomaly.severity a = Anomaly.critical -> Anomaly.type a = Anomaly.frequency)
  /\ (Anomaly.type a = Anomaly.pattern -> Anomaly.severity a = Anomaly.medium)
  /\ (Anomaly.type a = Anomaly.frequency ->
      exists digit, (digit < 10)%nat /\ Anomaly.affectedDigits a = [Z.of_nat digit]).

(** X21.  No anomaly is graded low; only a frequency anomaly can be
    critical, and it names the one digit (0 to 9) it is about; a pattern
    anomaly is always medium. *)
Theorem detect_grades (this : Detector.AnomalyDetector num)
        (recentDigits : list digit) :
  Forall graded (Detector.detect this recentDigits).
Proof.
  apply Forall_forall. intros a Ha.
  unfold Detector.detect in Ha. apply Array_sort_In in Ha.
  unfold Detector.detected in Ha. cbv zeta in Ha.
  repeat (apply in_app_or in Ha; destruct Ha as [Ha|Ha]).
  - apply in_concat in Ha. destruct Ha as (l & Hl & Ha).
    apply mapi_In in Hl. destruct Hl as (digit & freq & Hfreq & ->).
    assert (Hdigit : (digit < 10)%nat).
    { rewrite <- (analyzeFrequency_length recentDigits).
      apply nth_error_Some. congruence. }
    unfold Detector.frequencyAnomaly in Ha. cbv zeta in Ha.
    destruct (lt (lit 50) _); [|contradiction].
    destruct Ha as [<-|[]]. unfold graded. cbn [Anomaly.severity Anomaly.type
                                               Anomaly.affectedDigits].
    repeat split.
    + destruct (lt (lit 100) _); [discriminate|].
      destruct (lt (lit 75) _); discriminate.
    + discriminate.
    + exists digit. split; [exact Hdigit | reflexivity].
  - unfold Detector.volatilityAnomaly in Ha. cbv zeta in Ha.
    destruct (lt _ _); [|contradiction].
    destruct Ha as [<-|[]]. unfold graded. cbn [Anomaly.severity Anomaly.type].
    repeat split; try discriminate; destruct (lt _ _); discriminate.
  - apply in_map_iff in Ha. destruct Ha as (p & <- & _).
    unfold graded, Detector.patternAnomaly. cbn [Anomaly.severity Anomaly.type].
    repeat split; discriminate.
  - unfold Detector.distributionAnomaly in Ha. cbv zeta in Ha.
    destruct (lt _ (lit 0.7)); [|contradiction].
    destruct Ha as [<-|[]]. unfold graded. cbn [Anomaly.severity Anomaly.type].
    repeat split; try discriminate; destruct (lt _ _); discriminate.
Qed.

End DetectorOutput.

Section DetectorExact.

Local Open Scope Q_scope.

Lemma exact_abs (x : xnum) :
  exact x -> exact (Math_abs x) /\ val (Math_abs x) == Qabs (val x).
Proof.
  intro Hx. rewrite (exact_is_fin x Hx).
  change (Math_abs (Fin (val x))) with (X.fin (Qabs (val x))).
  split; [apply exact_fin | apply val_fin].
Qed.

Lemma max_fin (x y : xnum) :
  exact x -> exact y -> Math_max x y = if lt x y then y else x.
Proof.
  intros Hx Hy. rewrite (exact_is_fin x Hx), (exact_is_fin y Hy). reflexivity.
Qed.

Lemma tenth (x : Q) : x / 10 == x * (1 # 10).
Proof. reflexivity. Qed.

Lemma Qabs_zero (q : Q) : Qabs q == 0 <-> q == 0.
Proof.
  split.
  - intro Hq. destruct (Qlt_le_dec q 0) as [Hneg|Hpos].
    + rewrite (Qabs_neg q) in Hq by lra. lra.
    + rewrite (Qabs_pos q) in Hq by lra. exact Hq.
  - intros ->. reflexivity.
Qed.

(** The deviations [|f - 10|] and their sum. *)
Lemma deviations_exact (frequencies : list xnum) :
  Forall exact frequencies ->
  Forall exact (map (fun f => Math_abs (sub f (lit 10))) frequencies)
  /\ 0 <= Qsum (map val (map (fun f => Math_abs (sub f (lit 10))) frequencies))
  /\ (Qsum (map val (map (fun f => Math_abs (sub f (lit 10))) frequencies)) == 0
      <-> Forall (fun f => val f == 10) frequencies).
Proof.
  induction 1 as [|f frequencies Hf Hfs (IHe & IH0 & IHz)]; cbn [map Qsum fold_right].
  - split; [constructor|]. split; [apply Qle_refl|].
    split; [constructor | reflexivity].
  - fold (Qsum (map val (map (fun f => Math_abs (sub f (lit 10))) frequencies))).
    destruct (exact_sub Hf (proj1 (exact_lit 10))) as [Hd Hdv].
    destruct (exact_abs _ Hd) as [Ha Hav].
    rewrite (proj2 (exact_lit 10)) in Hdv.
    pose proof (Qabs_nonneg (val (sub f (lit 10)))) as Hnn.
    split; [constructor; assumption|]. split; [rewrite Hav; lra|].
    rewrite Hav. split.
    + intro Hz. constructor.
      * assert (Hq : Qabs (val (sub f (lit 10))) == 0) by lra.
        apply (proj1 (Qabs_zero _)) in Hq. lra.
      * apply IHz. lra.
    + intro Hall. apply Forall_cons_iff in Hall. destruct Hall as [Hten Hall].
      apply IHz in Hall.
      assert (Hq : Qabs (val (sub f (lit 10))) == 0)
        by (apply (proj2 (Qabs_zero _)); lra).
      lra.
Qed.


(** *** The dominant digit *)

Lemma fold_max_spec (values : list xnum) :
  Forall exact values ->
  forall acc,
    exact acc ->
    let m := fold_left Math_max values acc in
    exact m /\ (m = acc \/ In m values) /\ val acc <= val m
    /\ Forall (fun v => val v <= val m) values.
Proof.
  induction 1 as [|v values Hv Hvs IH]; intros acc Hacc; cbn [fold_left].
  - split; [exact Hacc|]. split; [left; reflexivity|].
    split; [apply Qle_refl | constructor].
  - assert (Hstep : exact (Math_max acc v)
                    /\ (Math_max acc v = acc \/ Math_max acc v = v)
                    /\ val acc <= val (Math_max acc v)
                    /\ val v <= val (Math_max acc v)).
    { rewrite (max_fin _ _ Hacc Hv). destruct (lt acc v) eqn:Hlt.
      - apply (lt_iff Hacc Hv) in Hlt.
        split; [exact Hv|]. split; [right; reflexivity|]. split; lra.
      - apply (lt_false_iff Hacc Hv) in Hlt.
        split; [exact Hacc|]. split; [left; reflexivity|]. split; lra. }
    destruct Hstep as (He & Hcase & Hacc' & Hv').
    destruct (IH _ He) as (Hm & Hin & Hle & Hall). cbv zeta.
    split; [exact Hm|]. split; [|split].
    + destruct Hin as [Hin|Hin]; [|right; right; exact Hin].
      destruct Hcase as [Hc|Hc];
        [left; rewrite Hin; exact Hc | right; left; rewrite Hin; symmetry; exact Hc].
    + lra.
    + constructor; [lra | exact Hall].
Qed.

Lemma indexOf_from_spec (x : xnum) (values : list xnum) :
  Forall exact values -> exact x -> In x values ->
  forall i,
  exists k,
    Detector.indexOf_from i x values = Z.of_nat (i + k)
    /\ (k < length values)%nat
    /\ nth k values nan = x
    /\ forall j, (j < k)%nat -> nth j values nan <> x.
Proof.
  intros Hvalues Hx. induction Hvalues as [|v values Hv Hvs IH]; intros Hin i;
    [contradiction|].
  cbn [Detector.indexOf_from].
  destruct (strict_eq v x) eqn:Heq.
  - apply (strict_eq_iff Hv Hx) in Heq.
    exists 0%nat. rewrite Nat.add_0_r. split; [reflexivity|].
    split; [cbn; lia|]. split; [apply exact_eq; assumption|].
    intros j Hj. lia.
  - assert (Hne : v <> x).
    { intros ->. assert (Hrefl : strict_eq x x = true)
        by (apply (strict_eq_iff Hx Hx); reflexivity).
      congruence. }
    destruct Hin as [Hin|Hin]; [contradiction|].
    destruct (IH Hin (S i)) as (k & Hk & Hlen & Hnth & Hfirst).
    exists (S k). split; [rewrite Hk; f_equal; lia|].
    split; [cbn; lia|]. split; [exact Hnth|].
    intros [|j] Hj; [exact Hne|]. apply Hfirst. lia.
Qed.

(** X23.  On finite frequencies the dominant digit of a distribution
    anomaly, [indexOf(Math.max(...))], is an index of the array (never -1):
    the first one that holds the largest frequency. *)
Theorem dominant_digit (frequencies : list xnum) :
  frequencies <> [] -> Forall exact frequencies ->
  exists k,
    Detector.indexOf (Detector.Math_max_of frequencies) frequencies = Z.of_nat k
    /\ (k < length frequencies)%nat
    /\ (forall j, (j < length frequencies)%nat ->
                  val (nth j frequencies nan) <= val (nth k frequencies nan))
    /\ (forall j, (j < k)%nat ->
                  val (nth j frequencies nan) < val (nth k frequencies nan)).
Proof.
  intros Hne Hfs. destruct frequencies as [|f frequencies]; [contradiction|].
  pose proof Hfs as Hall. apply Forall_cons_iff in Hall. destruct Hall as [Hf Hrest].
  unfold Detector.Math_max_of. cbn [fold_left].
  assert (Hfirst : Math_max neg_infinity f = f)
    by (rewrite (exact_is_fin f Hf); reflexivity).
  rewrite Hfirst.
  destruct (fold_max_spec frequencies Hrest f Hf) as (Hm & Hin & Hle & Hmax).
  cbv zeta in Hm, Hin, Hle, Hmax.
  set (m := fold_left Math_max frequencies f) in *.
  assert (Hin' : In m (f :: frequencies)).
  { destruct Hin as [->|Hin]; [left; reflexivity | right; exact Hin]. }
  destruct (indexOf_from_spec m (f :: frequencies) Hfs Hm Hin' 0)
    as (k & Hk & Hlen & Hnth & Hbefore).
  exists k. split; [exact Hk|]. split; [exact Hlen|]. rewrite Hnth.
  assert (Hbound : forall j, (j < length (f :: frequencies))%nat ->
                             val (nth j (f :: frequencies) nan) <= val m).
  { intros j Hj. assert (Hj' : In (nth j (f :: frequencies) nan) (f :: frequencies))
      by (apply nth_In; exact Hj).
    destruct Hj' as [<-|Hj']; [exact Hle|].
    revert Hj'. generalize (nth j (f :: frequencies) nan). apply Forall_forall.
    exact Hmax. }
  split; [exact Hbound|].
  intros j Hj. specialize (Hbound j ltac:(lia)).
  assert (Hej : exact (nth j (f :: frequencies) nan)).
  { assert (Hj' : In (nth j (f :: frequencies) nan) (f :: frequencies))
      by (apply nth_In; lia).
    revert Hj'. generalize (nth j (f :: frequencies) nan). apply Forall_forall.
    exact Hfs. }
  destruct (Qlt_le_dec (val (nth j (f :: frequencies) nan)) (val m)) as [Hlt|Hge];
    [exact Hlt|].
  exfalso. apply (Hbefore j Hj). apply exact_eq; [exact Hej | exact Hm | lra].
Qed.

(** *** A detector calibrated on the digits it examines *)

Lemma no_deviation (this : Detector.AnomalyDetector xnum) (digit : nat) (freq : xnum) :
  (exact freq \/ freq = NaN) ->
  nth_num (Detector.baselineFrequency this) digit = freq ->
  Detector.frequencyAnomaly this digit freq = [].
Proof.
  intros Hfreq Hbase. unfold Detector.frequencyAnomaly. cbv zeta. rewrite Hbase.
  destruct Hfreq as [Hf | ->]; [|reflexivity].
  destruct (exact_sub Hf Hf) as [Hd Hdv].
  destruct (exact_abs _ Hd) as [Ha Hav].
  assert (Hzero : Math_abs (sub freq freq) = Fin 0).
  { apply exact_eq; [exact Ha | reflexivity|]. rewrite Hav, Hdv.
    cbn [val]. setoid_replace (val freq - val freq) with 0 by ring. reflexivity. }
  rewrite Hzero, (exact_is_fin freq Hf).
  cbn [div xnum_Number X.div]. change (X.is_zero 0) with true.
  destruct (X.is_zero (val freq)); reflexivity.
Qed.

(** X24.  A detector whose baseline is the frequency profile of the digits
    it examines, as [calibrate] on these digits sets it, reports no
    frequency anomaly, whatever the digits (none at all included). *)
Theorem calibrated_on_the_same_digits (this : Detector.AnomalyDetector xnum)
        (digits : list digit) :
  Detector.baselineFrequency this = Detector.analyzeFrequency digits ->
  concat (mapi (Detector.frequencyAnomaly this) (Detector.analyzeFrequency digits)) = [].
Proof.
  intro Hbase. apply concat_nil_Forall, Forall_forall. intros l Hl.
  apply mapi_In in Hl. destruct Hl as (digit & freq & Hfreq & ->).
  apply no_deviation.
  - destruct digits as [|d digits].
    + right. apply nth_error_In in Hfreq. vm_compute in Hfreq.
      repeat (destruct Hfreq as [Hfreq|Hfreq]; [symmetry; exact Hfreq|]).
      contradiction.
    + left. apply nth_error_In in Hfreq.
      pose proof (profile_values (d :: digits) ltac:(discriminate)) as Hall.
      rewrite Forall_forall in Hall. apply (Hall freq Hfreq).
  - rewrite Hbase. unfold nth_num. apply nth_error_nth. exact Hfreq.
Qed.

End DetectorExact.


Lemma dominant_digit_witness :
  exists k,
    Detector.indexOf
      (Detector.Math_max_of (Detector.analyzeFrequency (num := xnum) [D1; D2; D1; D3]))
      (Detector.analyzeFrequency [D1; D2; D1; D3]) = Z.of_nat k
    /\ (k < length (Detector.analyzeFrequency (num := xnum) [D1; D2; D1; D3]))%nat
    /\ (forall j,
           (j < length (Detector.analyzeFrequency (num := xnum) [D1; D2; D1; D3]))%nat ->
           (val (nth j (Detector.analyzeFrequency [D1; D2; D1; D3]) nan)
            <= val (nth k (Detector.analyzeFrequency [D1; D2; D1; D3]) nan))%Q)
    /\ (forall j,
           (j < k)%nat ->
           (val (nth j (Detector.analyzeFrequency [D1; D2; D1; D3]) nan)
            < val (nth k (Detector.analyzeFrequency [D1; D2; D1; D3]) nan))%Q).
Proof.
  apply (dominant_digit (Detector.analyzeFrequency (num := xnum) [D1; D2; D1; D3])).
  - discriminate.
  - vm_compute. repeat constructor.
Defined.

Lemma calibrated_on_the_same_digits_witness :
  concat (mapi (Detector.frequencyAnomaly
                  {| Detector.baselineFrequency :=
                       Detector.analyzeFrequency (num := xnum) [D1; D2; D1; D3];
                     Detector.baselineVolatility := Fin 0 |})
               (Detector.analyzeFrequency [D1; D2; D1; D3])) = [].
Proof.
  apply (calibrated_on_the_same_digits
           {| Detector.baselineFrequency :=
                Detector.analyzeFrequency (num := xnum) [D1; D2; D1; D3];
              Detector.baselineVolatility := Fin 0 |}
           [D1; D2; D1; D3]).
  reflexivity.
Defined.

(* ================================================================= *)
(** * A predictor without history *)

Section Untrained.

Local Open Scope Q_scope.

(** One step of the loop: the prediction is a digit of maximal ensemble
    score, the lowest one, and its confidence is read off its score. *)
Lemma predict_step_best (history currentDigits : list digit) (step : nat)
      (p : MultiStepPrediction.t xnum) :
  predict_step (new_MultiStepPredictor history) step currentDigits = Some p ->
  let score := ensemble_score (new_MultiStepPredictor history) currentDigits in
  (forall d, exact (score d))
  /\ MultiStepPrediction.probability p = score (MultiStepPrediction.digit p)
  /\ MultiStepPrediction.confidence p
     = confidence_of (MultiStepPrediction.probability p)
  /\ (forall d, val (score d) <= val (score (MultiStepPrediction.digit p)))
  /\ (forall d,
         val (score d) == val (score (MultiStepPrediction.digit p)) ->
         (digit_to_nat (MultiStepPrediction.digit p) <= digit_to_nat d)%nat).
Proof.
  intros Hstep score. unfold predict_step in Hstep.
  destruct (last_error currentDigits) as [lastDigit|] eqn:Hlast; [|discriminate].
  destruct (nth_error (markovChain (new_MultiStepPredictor history))
                      (digit_to_nat lastDigit)) as [markovProbs|] eqn:Hrow;
    [|discriminate].
  destruct (ensemble_spec history currentDigits lastDigit markovProbs Hlast Hrow)
    as [Hexact Hens].
  rewrite Hens in Hstep.
  change (fun a b : digit * xnum => lt (lit 0) (sub (snd b) (snd a)))
    with by_score in Hstep.
  destruct (Array_sort by_score _) as [|[predictedDigit best] rest] eqn:Hsort;
    [discriminate|].
  injection Hstep as <-.
  cbn [MultiStepPrediction.probability MultiStepPrediction.digit
       MultiStepPrediction.confidence].
  destruct (sorted_scores_head _ _ _ Hexact Hsort) as (Hbest & Hmax & Hties).
  cbn [fst snd] in Hbest, Hmax, Hties. fold score in Hbest, Hmax, Hties.
  split; [exact Hexact|]. split; [exact Hbest|]. split; [reflexivity|].
  rewrite <- Hbest. split; assumption.
Qed.

Lemma share_le_iff (n a b : nat) :
  n <> 0%nat -> (val (share n a) <= val (share n b) <-> (a <= b)%nat).
Proof.
  intro Hn. rewrite (proj2 (share_exact n Hn a)), (proj2 (share_exact n Hn b)).
  pose proof (qnat_positive n Hn) as Hpos.
  assert (Hinv : 0 < / qnat n) by (apply Qinv_lt_0_compat, Hpos).
  unfold Qdiv, qnat in *. rewrite Nat2Z.inj_le, Zle_Qle.
  generalize dependent (/ inject_Z (Z.of_nat n)). intros r Hr.
  generalize (inject_Z (Z.of_nat a)), (inject_Z (Z.of_nat b)). intros x y.
  split; intro Hle; nra.
Qed.

Lemma share_eq_iff (n a b : nat) :
  n <> 0%nat -> (val (share n a) == val (share n b) <-> a = b).
Proof.
  intro Hn. pose proof (share_le_iff n a b Hn) as Hab.
  pose proof (share_le_iff n b a Hn) as Hba. split.
  - intro Heq. apply Nat.le_antisymm; [apply Hab | apply Hba]; lra.
  - intros ->. reflexivity.
Qed.

(** Without transitions and without patterns the ensemble score is the
    frequency share alone, weighted by 0.15. *)
Lemma untrained_score (history currentDigits : list digit) (d : digit) :
  (length history <= 1)%nat -> currentDigits <> [] ->
  val (ensemble_score (new_MultiStepPredictor (num := xnum) history) currentDigits d)
  == 0.15 * val (share (length currentDigits)
                       (count_occ digit_eq_dec currentDigits d)).
Proof.
  intros Hshort Hne.
  assert (Hn : length currentDigits <> 0%nat)
    by (destruct currentDigits; [contradiction | discriminate]).
  unfold ensemble_score.
  assert (Htable : patternRecognizer (new_MultiStepPredictor (num := xnum) history) = []).
  { destruct history as [|a [|b history]]; [reflexivity | reflexivity|].
    cbn [length] in Hshort. lia. }
  rewrite Htable.
  change (pattern_weight [] currentDigits d) with (lit 0 : xnum).
  assert (Hmarkov : markov_probability
                      (markovChain (new_MultiStepPredictor (num := xnum) history))
                      currentDigits d = Fin 0).
  { unfold markov_probability.
    destruct (last_error_nonempty Hne) as (lastDigit & ->).
    cbn [markovChain new_MultiStepPredictor].
    rewrite (unseen_row history lastDigit).
    - unfold nth_num. rewrite nth_repeat_lt by apply digit_to_nat_lt. reflexivity.
    - intros i _. apply nth_error_None. lia. }
  rewrite Hmarkov.
  change (digit_frequency currentDigits d)
    with (share (length currentDigits) (count_occ digit_eq_dec currentDigits d)).
  destruct (share_exact (length currentDigits) Hn
                        (count_occ digit_eq_dec currentDigits d)) as [He Hv].
  destruct (exact_mul (proj1 (exact_lit 0.15)) He) as [Hm Hmv].
  change (add (mul (lit 0.5) (lit 0)) (mul (lit 0.35) (Fin 0))) with (Fin 0).
  destruct (exact_add (x := Fin 0) (y := mul (lit 0.15) (share _ _)) eq_refl Hm)
    as [_ Hsv].
  rewrite Hsv, Hmv, (proj2 (exact_lit 0.15)). cbn [val]. ring.
Qed.


End Untrained.


(* ================================================================= *)
(** * The even/odd panel: facts *)

Section EvenOddFacts.

Local Open Scope Q_scope.

Lemma visit_exact (st : xnum * xnum * xnum) (stat : EvenOddBot.DigitStat xnum) :
  exact (EvenOddBot.stat_count stat) ->
  (exact (fst (fst st)) /\ exact (snd (fst st)) /\ exact (snd st)
   /\ val (fst (fst st)) + val (snd (fst st)) == val (snd st)) ->
  let st' := EvenOddBot.visit st stat in
  exact (fst (fst st')) /\ exact (snd (fst st')) /\ exact (snd st')
  /\ val (fst (fst st')) + val (snd (fst st')) == val (snd st').
Proof.
  destruct st as [[even odd] sum]. cbn [fst snd]. intros Hc (He & Ho & Hs & Hv).
  unfold EvenOddBot.visit.
  destruct (exact_add He Hc) as [He' Hev].
  destruct (exact_add Ho Hc) as [Ho' Hov].
  destruct (exact_add Hs Hc) as [Hs' Hsv].
  destruct (_ =? 0)%nat; cbn [fst snd].
  - split; [exact He'|]. split; [exact Ho|]. split; [exact Hs'|].
    rewrite Hev, Hsv. lra.
  - split; [exact He|]. split; [exact Ho'|]. split; [exact Hs'|].
    rewrite Hov, Hsv. lra.
Qed.

Lemma counts_exact (digit_stats : list (EvenOddBot.DigitStat xnum)) :
  Forall (fun stat => exact (EvenOddBot.stat_count stat)) digit_stats ->
  let c := EvenOddBot.counts digit_stats in
  exact (EvenOddBot.evenCount c) /\ exact (EvenOddBot.oddCount c)
  /\ exact (EvenOddBot.total c)
  /\ val (EvenOddBot.evenCount c) + val (EvenOddBot.oddCount c)
     == val (EvenOddBot.total c).
Proof.
  intro Hstats. unfold EvenOddBot.counts.
  assert (Hfold : forall st,
             (exact (fst (fst st)) /\ exact (snd (fst st)) /\ exact (snd st)
              /\ val (fst (fst st)) + val (snd (fst st)) == val (snd st)) ->
             let st' := fold_left EvenOddBot.visit digit_stats st in
             exact (fst (fst st')) /\ exact (snd (fst st')) /\ exact (snd st')
             /\ val (fst (fst st')) + val (snd (fst st')) == val (snd st')).
  { induction Hstats as [|stat digit_stats Hstat Hstats IH]; intros st Hst;
      cbn [fold_left]; [exact Hst|].
    apply IH. apply visit_exact; assumption. }
  specialize (Hfold (lit 0, lit 0, lit 0)). cbv zeta in Hfold.
  destruct (fold_left EvenOddBot.visit digit_stats (lit 0, lit 0, lit 0))
    as [[even odd] sum].
  cbn [fst snd EvenOddBot.evenCount EvenOddBot.oddCount EvenOddBot.total] in *.
  apply Hfold. split; [apply exact_fin|]. split; [apply exact_fin|].
  split; [apply exact_fin | reflexivity].
Qed.


End EvenOddFacts.


(* ================================================================= *)
(** * A detector calibrated on nothing *)

Section CalibratedOnNothing.

Import Detector.

Lemma sub_nan_r (x : float) : PrimFloat.sub x PrimFloat.nan = PrimFloat.nan.
Proof.
  apply (F64Facts.of_spec _ SpecFloat.S754_nan).
  rewrite FloatAxioms.sub_spec, F64Facts.Prim2SF_nan.
  destruct (FloatOps.Prim2SF x); reflexivity.
Qed.

Lemma calibrate_empty :
  calibrate (num := float) []
  = {| baselineFrequency := repeat PrimFloat.nan 10;
       baselineVolatility := PrimFloat.nan |}.
Proof. vm_compute. reflexivity. Qed.

Lemma frequencyAnomaly_nan_baseline (this : AnomalyDetector float)
      (digit : nat) (freq : float) :
  baselineFrequency this = repeat PrimFloat.nan 10 ->
  frequencyAnomaly this digit freq = [].
Proof.
  intro Hbase. unfold frequencyAnomaly. cbv zeta. rewrite Hbase.
  unfold nth_num. binary64. rewrite nth_repeat.
  rewrite sub_nan_r.
  change (PrimFloat.abs PrimFloat.nan) with PrimFloat.nan.
  rewrite F64Facts.div_nan_l.
  change (PrimFloat.mul PrimFloat.nan (lit 100)) with PrimFloat.nan.
  rewrite F64Facts.ltb_nan_r. reflexivity.
Qed.

Lemma volatilityAnomaly_nan_baseline (this : AnomalyDetector float)
      (currentFreq : list float) :
  baselineVolatility this = PrimFloat.nan ->
  volatilityAnomaly this currentFreq = [].
Proof.
  intro Hbase. unfold volatilityAnomaly. cbv zeta. rewrite Hbase.
  binary64. rewrite sub_nan_r.
  change (PrimFloat.abs PrimFloat.nan) with PrimFloat.nan.
  rewrite F64Facts.ltb_nan_r. reflexivity.
Qed.

(** X27.  Calibrating on an empty history divides 0 by 0: the baseline
    frequencies and the baseline volatility are NaN, every comparison with
    them fails, and from then on [detect] reports neither a frequency nor a
    volatility anomaly, whatever digits it is given (binary64). *)
Theorem calibrated_on_nothing (recentDigits : list digit) :
  let this := calibrate (num := float) [] in
  baselineFrequency this = repeat PrimFloat.nan 10
  /\ baselineVolatility this = PrimFloat.nan
  /\ Forall (fun a => Anomaly.type a = Anomaly.pattern
                      \/ Anomaly.type a = Anomaly.distribution)
            (detect this recentDigits).
Proof.
  intro this. subst this. rewrite calibrate_empty.
  split; [reflexivity|]. split; [reflexivity|].
  apply Forall_forall. intros a Ha.
  unfold detect in Ha. apply Array_sort_In in Ha.
  unfold detected in Ha. cbv zeta in Ha.
  rewrite volatilityAnomaly_nan_baseline in Ha by reflexivity.
  repeat (apply in_app_or in Ha; destruct Ha as [Ha|Ha]).
  - apply in_concat in Ha. destruct Ha as (l & Hl & Ha).
    apply mapi_In in Hl. destruct Hl as (digit & freq & _ & ->).
    rewrite frequencyAnomaly_nan_baseline in Ha by reflexivity. contradiction.
  - contradiction.
  - apply in_map_iff in Ha. destruct Ha as (p & <- & _). left. reflexivity.
  - unfold distributionAnomaly in Ha. cbv zeta in Ha.
    destruct (lt _ (lit 0.7)); [|contradiction].
    destruct Ha as [<-|[]]. right. reflexivity.
Qed.

End CalibratedOnNothing.
